(** * BMW diagnostic tool: byte codec, UDS read-by-identifier engines,
      LED decoder, raw-bit detector and trigger correlation.

    A shallow embedding of the algorithmic core of the repository:
    - [Codec]      : [normalize_hex_byte], [tokens_from_boxes]
                     (bmw_gui/can_utils.py and bmw.py, identical bodies);
    - [TriggerUds] : [uds_read_by_id] (bmw_gui/trigger_finder.py);
    - [TableUds]   : [UdsTablePage._recv_until], [_uds_read_by_identifier],
                     [_decode_led] (bmw.py);
    - [Detector]   : [CanBit] (bmw_gui/trigger_finder.py);
    - [Correlate]  : the rising-edge branch of [TriggerFinderRunner._run];
    - [PyFmt], [CanUtils], [Sequences], [BmwApp] : [fmt_bytes], [make_msg],
                     [recv_drain], [send_sequence] (bmw_gui/can_utils.py,
                     bmw_gui/sequences.py, bmw.py);
    - [TestPage]   : the combinations and bursts of [TestPage.on_send]
                     (bmw.py and bmw_gui/ui/pages/test.py);
    - [Pcan], [UdsDetectors], [Run] : [_mk_msg], [LEDAnyOn], [AHLMove],
                     [LWRMove] and runs of the loop of [_run]
                     (bmw_gui/trigger_finder.py);
    - [TablePage]  : [_fetch_values], [_apply_values] (bmw.py).

    Conventions.  A byte is a [Z]; Python's [&], [^], [<<], [>>] are [Z.land],
    [Z.lxor], [Z.shiftl], [Z.shiftr].  Text is a [string] of ASCII code
    points.  Clock readings are integers in milliseconds, so the source's
    [1.0], [0.2], [0.300], [0.050] and [5.0] seconds read [1000], [200],
    [300], [50] and [5000].  A dict is a [gmap], a set a [gset], a
    [Counter] a [gmap] into [Z] read with default 0. *)

From Stdlib Require Import ZArith String Ascii List Bool Lia DecimalString.
From Stdlib Require HexadecimalString.
From stdpp Require Import base decidable option list gmap sets strings sorting.

Local Open Scope Z_scope.

(* ===================================================================== *)
(** * Part I: the model                                                   *)
(* ===================================================================== *)

(** ** Python built-ins on ASCII text

    The definitions of this module are the built-ins on texts of code
    points below 128 ([is_ascii]).  On other code points the built-ins do
    more: [str.strip] also drops U+0085 and U+00A0, [str.upper] also
    changes letters of 181 and above, and [int] also takes the blanks and
    the decimal digits of Unicode.  A statement about what a built-in does
    to an arbitrary text therefore assumes [is_ascii]. *)

Module Py.

(** The text has only code points below 128. *)
Fixpoint is_ascii (s : string) : bool :=
  match s with
  | EmptyString => true
  | String c r => (nat_of_ascii c <? 128)%nat && is_ascii r
  end.

(** [str.isspace] on code points below 128: TAB..CR, FS..US and SPACE. *)
Definition is_space (c : ascii) : bool :=
  let n := nat_of_ascii c in
  ((9 <=? n)%nat && (n <=? 13)%nat) || ((28 <=? n)%nat && (n <=? 32)%nat).

(** [str.upper] on one ASCII character. *)
Definition upper_char (c : ascii) : ascii :=
  let n := nat_of_ascii c in
  if ((97 <=? n)%nat && (n <=? 122)%nat) then ascii_of_nat (n - 32) else c.

Fixpoint upper (s : string) : string :=
  match s with
  | EmptyString => EmptyString
  | String c r => String (upper_char c) (upper r)
  end.

(** Dropping the leading, and the trailing, characters that [sp] accepts. *)
Fixpoint lstrip_with (sp : ascii -> bool) (s : string) : string :=
  match s with
  | EmptyString => EmptyString
  | String c r => if sp c then lstrip_with sp r else s
  end.

Fixpoint rstrip_with (sp : ascii -> bool) (s : string) : string :=
  match s with
  | EmptyString => EmptyString
  | String c r =>
      match rstrip_with sp r with
      | EmptyString => if sp c then EmptyString else String c EmptyString
      | r' => String c r'
      end
  end.

(** [s.strip()] *)
Definition strip (s : string) : string :=
  rstrip_with is_space (lstrip_with is_space s).

(** [s.replace("0X", "")]: every non-overlapping occurrence, scanning from
    the left. *)
Fixpoint replace_0X (s : string) : string :=
  match s with
  | EmptyString => EmptyString
  | String c r =>
      match c, r with
      | "0"%char, String "X"%char r' => replace_0X r'
      | _, _ => String c (replace_0X r)
      end
  end.

Definition hex_digit (c : ascii) : option Z :=
  let n := nat_of_ascii c in
  if ((48 <=? n)%nat && (n <=? 57)%nat) then Some (Z.of_nat (n - 48))
  else if ((65 <=? n)%nat && (n <=? 70)%nat) then Some (Z.of_nat (n - 55))
  else if ((97 <=? n)%nat && (n <=? 102)%nat) then Some (Z.of_nat (n - 87))
  else None.

(** The digit part of an integer literal in base 16: at least one digit,
    single underscores allowed between digits only. *)
Fixpoint digits16 (acc : Z) (after_digit : bool) (s : string) : option Z :=
  match s with
  | EmptyString => if after_digit then Some acc else None
  | String c r =>
      if Ascii.eqb c "_"%char then
        if after_digit then digits16 acc false r else None
      else
        match hex_digit c with
        | Some d => digits16 (16 * acc + d) true r
        | None => None
        end
  end.

(** The white space [int] drops around a literal: TAB..CR and SPACE (the
    separators FS..US, which [str.strip] drops, are no white space here). *)
Definition is_blank (c : ascii) : bool :=
  let n := nat_of_ascii c in
  ((9 <=? n)%nat && (n <=? 13)%nat) || (n =? 32)%nat.

(** [int(s, 16)]: surrounding white space is dropped, then an optional sign,
    an optional [0x]/[0X] prefix (which may be followed by one underscore)
    and the digits.  [None] stands for the [ValueError] the built-in raises. *)
Definition int16 (s : string) : option Z :=
  let s1 := rstrip_with is_blank (lstrip_with is_blank s) in
  let '(neg, s2) :=
    match s1 with
    | String "+"%char r => (false, r)
    | String "-"%char r => (true, r)
    | _ => (false, s1)
    end in
  let s3 :=
    match s2 with
    | String "0"%char (String "x"%char r) | String "0"%char (String "X"%char r) =>
        match r with String "_"%char r' => r' | _ => r end
    | _ => s2
    end in
  match digits16 0 false s3 with
  | Some v => Some (if neg then - v else v)
  | None => None
  end.

(** [str(n)] for an integer. *)
Definition str (n : Z) : string := NilZero.string_of_int (Z.to_int n).

End Py.

(** ** Byte codec: bmw_gui/can_utils.py (and the same functions in bmw.py) *)

Module Codec.

(** The two [ValueError]s [normalize_hex_byte] can raise: its own, with the
    fixed message "Byte muss 1-2 Hex-Zeichen sein (z. B. A oder 0A).", and
    the one of [int(s, 16)], whose message quotes the text [s] it was given. *)
Inductive ValueError : Type :=
| ByteLengthError
| InvalidLiteral (s : string).

(** [normalize_hex_byte(val)]; [inr None] is the wildcard. *)
Definition normalize_hex_byte (val : string) : ValueError + option string :=
  let s := Py.replace_0X (Py.upper (Py.strip val)) in
  if (String.eqb s "" || String.eqb s "?" || String.eqb s "??")%bool then inr None
  else
    let s := if (String.length s =? 1)%nat then String.append "0" s else s in
    if negb (String.length s =? 2)%nat then inl ByteLengthError
    else
      match Py.int16 s with
      | None => inl (InvalidLiteral s)
      | Some _ => inr (Some s)
      end.

(** The loop of [tokens_from_boxes]; an exception of [normalize_hex_byte]
    leaves the loop and the function. *)
Fixpoint tokens_loop (byte_values : list string)
    (tokens : list (option string)) (total : Z)
  : ValueError + (list (option string) * Z) :=
  match byte_values with
  | [] => inr (tokens, total)
  | v :: rest =>
      match normalize_hex_byte v with
      | inl e => inl e
      | inr t =>
          tokens_loop rest (tokens ++ [t])
            (match t with None => total * 256 | Some _ => total end)
      end
  end.

Definition tokens_from_boxes (byte_values : list string)
  : ValueError + (list (option string) * Z) :=
  tokens_loop byte_values [] 1.

(** *** The codec as the specification words it (section 4.1) *)

Inductive InvalidByteToken : Type := InvalidToken (original : string).

(** "strips an optional 0x prefix" *)
Definition strip_0x_prefix (s : string) : string :=
  match s with
  | String "0"%char (String "X"%char r) => r
  | _ => s
  end.

Definition is_hex2 (s : string) : bool :=
  match s with
  | String a (String b EmptyString) =>
      match Py.hex_digit a, Py.hex_digit b with
      | Some _, Some _ => true
      | _, _ => false
      end
  | _ => false
  end.

(** [normalize_byte] of section 4.1, read literally. *)
Definition normalize_byte_spec (token : string) : InvalidByteToken + option string :=
  let s := strip_0x_prefix (Py.upper (Py.strip token)) in
  if (String.eqb s "" || String.eqb s "?" || String.eqb s "??")%bool then inr None
  else
    let s := if (String.length s =? 1)%nat then String.append "0" s else s in
    if is_hex2 s then inr (Some s) else inl (InvalidToken token).

(** *** Notions the statements about the codec use *)

(** Number of wildcard positions of a token list. *)
Definition wildcards (tokens : list (option string)) : nat :=
  length (List.filter (fun t => match t with None => true | Some _ => false end) tokens).

(** The text an error carries, if any. *)
Definition carried (e : ValueError) : option string :=
  match e with
  | ByteLengthError => None
  | InvalidLiteral s => Some s
  end.

(** The code does on [val] what section 4.1 says: the same token, or a
    failure whose error carries the original text. *)
Definition meets_spec (val : string) : Prop :=
  match normalize_byte_spec val with
  | inr t => normalize_hex_byte val = inr t
  | inl (InvalidToken original) =>
      exists e, normalize_hex_byte val = inl e /\ carried e = Some original
  end.

Definition is_sign (c : ascii) : bool := Ascii.eqb c "+" || Ascii.eqb c "-".

Definition is_hex (c : ascii) : bool :=
  match Py.hex_digit c with Some _ => true | None => false end.

(** The two-character texts [int(s, 16)] accepts: two hex digits, or one
    hex digit with a sign or a blank before it, or with a blank after it. *)
Definition int_accepts2 (a b : ascii) : bool :=
  (is_hex a && is_hex b)
  || ((is_sign a || Py.is_blank a) && is_hex b)
  || (is_hex a && Py.is_blank b).

Definition all_ascii : list ascii := map ascii_of_nat (seq 0 256).

End Codec.

(** ** The bus as the engines see it *)

Module Transport.

(** A received frame: arbitration id and [DLC] data bytes. *)
Record Frame : Type := mkFrame { arbitration_id : Z; data : list Z }.

(** One call of the receive primitive ([_pcan_read_once], or
    [bus.recv(timeout=0.01)]): the clock when the call returns, and the frame
    it returned, if any. *)
Record Read : Type := mkRead { stamp : Z; got : option Frame }.

(** What an engine did on the bus, in order. *)
Inductive io : Type :=
| Sent (arbid : Z) (data8 : list Z)
| Recv (r : Read).

(** The bus: the clock ([time.monotonic()] / [time.time()] return [now],
    which advances to a read's stamp when the read returns), the reads still
    to come, and the log of what was done so far.  When [pending] is used up
    the bus stays silent: every further read is empty and the clock runs on,
    so a wait bounded by a timeout ends as timed out. *)
Record Bus : Type := mkBus { now : Z; pending : list Read; log : list io }.

Definition send (b : Bus) (arbid : Z) (data8 : list Z) : Bus :=
  mkBus (now b) (pending b) (log b ++ [Sent arbid data8]).

(** [l[i]] where the source has checked that [i < len(l)]. *)
Definition byte_at (l : list Z) (i : nat) : Z := nth i l 0.

(** [l[i:j]] *)
Definition slice (l : list Z) (i j : nat) : list Z := take (j - i) (drop i l).

(** The clock after the reads [rs] have returned. *)
Definition clock_after (now : Z) (rs : list Read) : Z :=
  foldl (fun _ r => stamp r) now rs.

(** The frames sent, in order. *)
Definition sends (l : list io) : list (Z * list Z) :=
  omap (fun e => match e with Sent a d => Some (a, d) | Recv _ => None end) l.

(** The log of an exchange that received the first frame [ff] of a
    multi-frame response after passing over [pre], and then read [consumed]. *)
Definition multi_frame_log (log0 : list io) (tx_id : Z) (request fc : list Z)
    (pre : list Read) (ff : Read) (consumed : list Read) : list io :=
  log0 ++ [Sent tx_id request] ++ map Recv pre ++ [Recv ff]
       ++ [Sent tx_id fc] ++ map Recv consumed.

(** The two bytes of a data identifier, as both engines compute them. *)
Definition did_hi (did : Z) : Z := Z.land (Z.shiftr did 8) 0xFF.
Definition did_lo (did : Z) : Z := Z.land did 0xFF.

End Transport.

Import Transport.

(** ** bmw_gui/trigger_finder.py: [uds_read_by_id] *)

Module TriggerUds.

Record Profile : Type :=
  mkProfile { TX_ID : Z; RX_ID : Z; EA_REQ : Z; EA_RSP : Z }.

(** [PROFILES] *)
Definition links : Profile := mkProfile 0x06F1 0x0643 0x43 0xF1.
Definition rechts : Profile := mkProfile 0x06F2 0x0644 0x44 0xF1.

(** [TimeoutError("UDS 0x22 Timeout (DID 0x....)")] *)
Inductive TimeoutError : Type := UdsTimeout (did : Z).

(** The inner [while time.monotonic() - tf < timeout] loop: collects
    consecutive frames; leaves by [break] or when the condition fails, and
    the function then returns [tuple(payload)]. *)
Fixpoint collect (p : Profile) (timeout tf now : Z) (payload : list Z)
    (pending : list Read) (log : list io) : list Z * Bus :=
  match pending with
  | [] => (payload, mkBus now [] log)
  | r :: rest =>
      if now - tf <? timeout then
        let log := log ++ [Recv r] in
        let now := stamp r in
        match got r with
        | None => collect p timeout tf now payload rest log
        | Some f =>
            let data2 := data f in
            if negb (arbitration_id f =? RX_ID p)
               || (length data2 <? 2)%nat
               || negb (byte_at data2 0 =? EA_RSP p)
            then collect p timeout tf now payload rest log
            else if Z.land (byte_at data2 1) 0xF0 =? 0x20
            then collect p timeout now now (payload ++ drop 2 data2) rest log
            else (payload, mkBus now rest log)
        end
      else (payload, mkBus now pending log)
  end.

(** The outer [while time.monotonic() - t0 < timeout] loop. *)
Fixpoint await (p : Profile) (did did_h did_l timeout t0 now : Z)
    (pending : list Read) (log : list io) : (TimeoutError + list Z) * Bus :=
  match pending with
  | [] => (inl (UdsTimeout did), mkBus now [] log)
  | r :: rest =>
      if now - t0 <? timeout then
        let log := log ++ [Recv r] in
        let now := stamp r in
        match got r with
        | None => await p did did_h did_l timeout t0 now rest log
        | Some f =>
            let data := data f in
            if negb (arbitration_id f =? RX_ID p) || (length data <? 2)%nat
            then await p did did_h did_l timeout t0 now rest log
            else if negb (byte_at data 0 =? EA_RSP p)
            then await p did did_h did_l timeout t0 now rest log
            else
              let pci := Z.land (byte_at data 1) 0xF0 in
              if (pci =? 0x00) && (5 <=? length data)%nat
                 && (byte_at data 2 =? 0x62) && (byte_at data 3 =? did_h)
                 && (byte_at data 4 =? did_l)
              then
                let L := Z.land (byte_at data 1) 0x0F in
                (inr (slice data 5 (5 + Z.to_nat L)), mkBus now rest log)
              else if (pci =? 0x10) && (6 <=? length data)%nat
                 && (byte_at data 3 =? 0x62) && (byte_at data 4 =? did_h)
                 && (byte_at data 5 =? did_l)
              then
                let log := log ++ [Sent (TX_ID p) [EA_REQ p; 0x30; 0x00; 0x00; 0; 0; 0; 0]] in
                let '(payload, b) := collect p timeout now now (drop 6 data) rest log in
                (inr payload, b)
              else await p did did_h did_l timeout t0 now rest log
        end
      else (inl (UdsTimeout did), mkBus now pending log)
  end.

Definition uds_read_by_id (b : Bus) (did : Z) (p : Profile) (timeout : Z)
  : (TimeoutError + list Z) * Bus :=
  let did_h := Z.land (Z.shiftr did 8) 0xFF in
  let did_l := Z.land did 0xFF in
  let b := send b (TX_ID p) [EA_REQ p; 0x03; 0x22; did_h; did_l; 0; 0; 0] in
  let t0 := now b in
  await p did did_h did_l timeout t0 (now b) (pending b) (log b).

(** *** Notions the statements about [uds_read_by_id] use *)

(** The frame passes the two filters at the head of the outer loop. *)
Definition addressed (p : Profile) (f : Frame) : bool :=
  (arbitration_id f =? RX_ID p) && (2 <=? length (data f))%nat
  && (byte_at (data f) 0 =? EA_RSP p).

(** The condition of the single-frame branch. *)
Definition is_single (did_h did_l : Z) (data : list Z) : bool :=
  (Z.land (byte_at data 1) 0xF0 =? 0x00) && (5 <=? length data)%nat
  && (byte_at data 2 =? 0x62) && (byte_at data 3 =? did_h)
  && (byte_at data 4 =? did_l).

(** The condition of the first-frame branch. *)
Definition is_first (did_h did_l : Z) (data : list Z) : bool :=
  (Z.land (byte_at data 1) 0xF0 =? 0x10) && (6 <=? length data)%nat
  && (byte_at data 3 =? 0x62) && (byte_at data 4 =? did_h)
  && (byte_at data 5 =? did_l).

(** A read the outer loop passes over: no frame, a frame that is not
    addressed to the exchange, or one that is neither the single frame nor
    the first frame answering this identifier. *)
Definition skipped (p : Profile) (did_h did_l : Z) (r : Read) : bool :=
  match got r with
  | None => true
  | Some f =>
      negb (addressed p f
            && (is_single did_h did_l (data f) || is_first did_h did_l (data f)))
  end.

(** A read the inner loop passes over. *)
Definition passed_over (p : Profile) (r : Read) : bool :=
  match got r with
  | None => true
  | Some f => negb (addressed p f)
  end.

(** A response that does not end: the first frame of DID 0xD631 on the left
    profile, followed by [n] consecutive frames of 8 bytes. *)
Definition first_frame_D631 : Read :=
  mkRead 0 (Some (mkFrame 0x0643 [0xF1; 0x10; 0xB9; 0x62; 0xD6; 0x31; 0x01; 0x02])).

Definition consecutive_frame : Read :=
  mkRead 0 (Some (mkFrame 0x0643 [0xF1; 0x21; 3; 4; 5; 6; 7; 8])).

Definition flood (n : nat) : list Read :=
  first_frame_D631 :: replicate n consecutive_frame.

End TriggerUds.

(** ** bmw.py: [UdsTablePage] *)

Module TableUds.

(** [UDS_EA_RSP] *)
Definition EA_RSP : Z := 0xF1.

(** The [RuntimeError]s of [_uds_read_by_identifier], by message. *)
Inductive RuntimeError : Type :=
| NoValidResponse   (* 'Keine gueltige UDS Antwort.' *)
| NegativeSF        (* 'Negative Antwort (SF).' *)
| NegativeFF        (* 'Negative Antwort (FF).' *)
| UnexpectedPCI.    (* 'Unerwartete PCI Art.' *)

(** [raw = list(msg.data); if len(raw) < 8: raw.extend([0] * (8 - len(raw)))] *)
Definition pad8 (raw : list Z) : list Z :=
  if (length raw <? 8)%nat then raw ++ replicate (8 - length raw) 0 else raw.

(** The loop of [_recv_until], [end_] being [time.time() + timeout_s]. *)
Fixpoint recv_loop (arbitration_id end_ now : Z) (pending : list Read)
    (log : list io) : option (list Z) * Bus :=
  match pending with
  | [] => (None, mkBus now [] log)
  | r :: rest =>
      if now <? end_ then
        let log := log ++ [Recv r] in
        let now := stamp r in
        match got r with
        | None => recv_loop arbitration_id end_ now rest log
        | Some msg =>
            if negb (Transport.arbitration_id msg =? arbitration_id)
            then recv_loop arbitration_id end_ now rest log
            else
              (Some (pad8 (data msg)), mkBus now rest log)

        end
      else (None, mkBus now pending log)
  end.

Definition _recv_until (b : Bus) (arbitration_id timeout_s : Z)
  : option (list Z) * Bus :=
  recv_loop arbitration_id (now b + timeout_s) (now b) (pending b) (log b).

(** The [while True] loop collecting consecutive frames.  Every round that
    does not leave the loop has used up a pending read, so [fuel] equal to
    the number of pending reads is never exhausted ([cf_loop_fuel]). *)
Fixpoint cf_loop (fuel : nat) (rx_id : Z) (payload : list Z) (b : Bus)
  : list Z * Bus :=
  let '(cf, b) := _recv_until b rx_id 1000 in
  match cf with
  | None | Some [] => (payload, b)
  | Some cf =>
      if negb (byte_at cf 0 =? EA_RSP)
         || negb (Z.land (byte_at cf 1) 0xF0 =? 0x20)
      then (payload, b)
      else
        let payload := payload ++ drop 2 cf in
        if (128 <? length payload)%nat then (payload, b)
        else
          match fuel with
          | O => (payload, b)
          | S fuel' => cf_loop fuel' rx_id payload b
          end
  end.

Definition _uds_read_by_identifier (b : Bus) (tx_id rx_id ea_req did : Z)
  : (RuntimeError + list Z) * Bus :=
  let did_hi := Z.land (Z.shiftr did 8) 0xFF in
  let did_lo := Z.land did 0xFF in
  let request := [ea_req; 0x03; 0x22; did_hi; did_lo; 0x00; 0x00; 0x00] in
  let b := send b tx_id request in
  let '(first, b) := _recv_until b rx_id 1000 in
  match first with
  | None | Some [] => (inl NoValidResponse, b)
  | Some first =>
      if negb (byte_at first 0 =? EA_RSP) then (inl NoValidResponse, b)
      else
        let pci := Z.land (byte_at first 1) 0xF0 in
        if pci =? 0x00 then
          if negb (byte_at first 2 =? 0x62) || negb (byte_at first 3 =? did_hi)
             || negb (byte_at first 4 =? did_lo)
          then (inl NegativeSF, b)
          else
            let length := Z.land (byte_at first 1) 0x0F in
            (inr (slice first 5 (5 + Z.to_nat length)), b)
        else if pci =? 0x10 then
          let b := send b tx_id [ea_req; 0x30; 0x00; 0x00; 0; 0; 0; 0] in
          if negb (byte_at first 3 =? 0x62) || negb (byte_at first 4 =? did_hi)
             || negb (byte_at first 5 =? did_lo)
          then (inl NegativeFF, b)
          else
            let '(payload, b) :=
              cf_loop (length (pending b)) rx_id (drop 6 first) b in
            (inr payload, b)
        else (inl UnexpectedPCI, b)
  end.

(** [_decode_led]: percentages and currents as the strings the table shows. *)
Definition _decode_led (payload : list Z) : list string * list string :=
  let padded :=
    if (length payload <? 20)%nat
    then take 20 payload ++ replicate (20 - length payload) 0
    else take 20 payload in
  let perc_raw := take 10 padded in
  let curr_raw := slice padded 10 20 in
  let percent := map (fun val => Py.str (Z.max 0 (Z.min 100 val))) perc_raw in
  let current := map (fun val => Py.str (Z.max 0 val * 10)) curr_raw in
  (percent, current).

(** *** Notions the statements about [_uds_read_by_identifier] use *)

(** A read [_recv_until] passes over: no frame, or another arbitration id. *)
Definition passed_over (rx_id : Z) (r : Read) : bool :=
  match got r with
  | None => true
  | Some f => negb (arbitration_id f =? rx_id)
  end.

End TableUds.

(** ** bmw_gui/trigger_finder.py: the [CanBit] detector *)

Module Detector.

(** [self.cid], [self.byte], [self.mask], [self.value], [self._last];
    the fields are Python integers ([int(text, 0)] of the operator's input),
    so [byte] may be negative. *)
Record CanBit : Type :=
  mkCanBit { cid : Z; byte : Z; mask : Z; value : Z; _last : Z }.

(** [CanBit.__init__] *)
Definition init (can_id byte_idx mask value : Z) : CanBit :=
  mkCanBit can_id byte_idx mask value 0.

(** [CanBit.reset] *)
Definition reset (d : CanBit) : CanBit :=
  mkCanBit (cid d) (byte d) (mask d) (value d) 0.

Inductive IndexError : Type := TupleIndexOutOfRange.

(** [l[i]] for a Python integer [i]: a negative index counts from the end. *)
Definition py_index (l : list Z) (i : Z) : option Z :=
  if 0 <=? i then l !! Z.to_nat i
  else if - Z.of_nat (length l) <=? i then l !! Z.to_nat (Z.of_nat (length l) + i)
  else None.

(** The loop of [read_state]; the state threaded is [self._last]. *)
Fixpoint read_loop (d : CanBit) (target_value t0 now last : Z)
    (pending : list Read) (log : list io) : (IndexError + bool) * Z * Bus :=
  match pending with
  | [] => (inr false, last, mkBus now [] log)
  | r :: rest =>
      if now - t0 <? 200 then
        let log := log ++ [Recv r] in
        let now := stamp r in
        match got r with
        | None => read_loop d target_value t0 now last rest log
        | Some f =>
            if (arbitration_id f =? cid d) && (byte d <? Z.of_nat (length (data f)))
            then
              match py_index (data f) (byte d) with
              | None => (inl TupleIndexOutOfRange, last, mkBus now rest log)
              | Some x =>
                  let masked := Z.land x (mask d) in
                  if masked =? target_value
                  then (inr (negb (last =? target_value)), masked, mkBus now rest log)
                  else read_loop d target_value t0 now masked rest log
              end
            else read_loop d target_value t0 now last rest log
        end
      else (inr false, last, mkBus now pending log)
  end.

Definition read_state (d : CanBit) (b : Bus) : (IndexError + bool) * CanBit * Bus :=
  let target_value := Z.land (value d) (mask d) in
  let '(res, last, b') :=
    read_loop d target_value (now b) (now b) (_last d) (pending b) (log b) in
  (res, mkCanBit (cid d) (byte d) (mask d) (value d) last, b').

(** *** Notions the statements about [CanBit] use *)

(** The frames among the entries of a log. *)
Definition frames_of (l : list io) : list Frame :=
  omap (fun e => match e with Recv r => got r | Sent _ _ => None end) l.

(** The frames a call examined: those of the reads it added to the log. *)
Definition examined (b b' : Bus) : list Frame :=
  frames_of (drop (length (log b)) (log b')).

(** The frame is one [read_state] looks at: the watched id, and long enough. *)
Definition relevant (d : CanBit) (f : Frame) : bool :=
  (arbitration_id f =? cid d) && (byte d <? Z.of_nat (length (data f))).

(** The masked byte [read_state] computes for a frame it looks at. *)
Definition masked_byte (d : CanBit) (f : Frame) : option Z :=
  if relevant d f
  then (fun x => Z.land x (mask d)) <$> py_index (data f) (byte d)
  else None.

(** Among [seen] there is a frame whose masked byte is not zero. *)
Definition saw_nonzero (d : CanBit) (seen : list Frame) : Prop :=
  exists f m, In f seen /\ masked_byte d f = Some m /\ m <> 0.


(** Successive calls of [read_state], each on the bus as it stands when the
    call is made (other code reads the bus between two calls): what each
    call returned and the frames it examined. *)
Fixpoint read_states (d : CanBit) (buses : list Bus)
  : list ((IndexError + bool) * list Frame) :=
  match buses with
  | [] => []
  | b :: rest =>
      let '(res, d', b') := read_state d b in
      (res, examined b b') :: read_states d' rest
  end.

End Detector.

(** ** bmw_gui/trigger_finder.py: the loop of [TriggerFinderRunner._run] *)

Module Correlate.

Definition RING_SECONDS : Z := 5000.
Definition PRE_WIN : Z := 300.
Definition POST_WIN : Z := 50.

(** An entry of [ring]: [(ts, arbid, dlc, bytes(data))]. *)
Record Entry : Type :=
  mkEntry { ts : Z; can_id : Z; dlc : Z; payload : list Z }.

(** A [Counter]: [c[k]] is 0 for a key that is absent. *)
Definition count {K} `{Countable K} (c : gmap K Z) (k : K) : Z :=
  default 0 (c !! k).

(** [c[k] += 1] *)
Definition incr {K} `{Countable K} (k : K) (c : gmap K Z) : gmap K Z :=
  <[k := count c k + 1]> c.

Record Counters : Type :=
  mkCounters { id_hits : gmap Z Z; bit_hits : gmap (Z * nat * nat) Z }.

(** [before]: for every id the data of its last ring entry older than
    [t_start]. *)
Definition before_of (ring : list Entry) (t_start : Z) : gmap Z (list Z) :=
  foldl (fun before e =>
           if ts e <? t_start then <[can_id e := payload e]> before else before)
        ∅ ring.

(** [in_win] *)
Definition in_win (ring : list Entry) (t_start t_end : Z) : list Entry :=
  List.filter (fun e => (t_start <=? ts e) && (ts e <=? t_end)) ring.

(** [for bit in range(8)] *)
Definition bits_loop (cid : Z) (idx : nat) (p d : Z)
    (bh : gmap (Z * nat * nat) Z) : gmap (Z * nat * nat) Z :=
  foldl (fun bh bit =>
           let mask := Z.shiftl 1 (Z.of_nat bit) in
           if (Z.land p mask =? 0) && negb (Z.land d mask =? 0)
           then incr (cid, idx, bit) bh else bh)
        bh (seq 0 8).

(** [for idx, byte in enumerate(xor)] *)
Definition bytes_loop (cid : Z) (prev data_frame : list Z)
    (bh : gmap (Z * nat * nat) Z) : gmap (Z * nat * nat) Z :=
  let xor := zip_with Z.lxor prev data_frame in
  foldl (fun bh '(idx, byte) =>
           if byte =? 0 then bh
           else bits_loop cid idx (byte_at prev idx) (byte_at data_frame idx) bh)
        bh (zip (seq 0 (length xor)) xor).

(** The body of [for ... in in_win]: the state is [seen_ids] and
    [bit_hits]. *)
Definition frame_step (before : gmap Z (list Z))
    (st : gset Z * gmap (Z * nat * nat) Z) (e : Entry)
  : gset Z * gmap (Z * nat * nat) Z :=
  let '(seen_ids, bh) := st in
  let seen_ids := {[can_id e]} ∪ seen_ids in
  match before !! can_id e with
  | None => (seen_ids, bh)
  | Some prev =>
      if negb (length prev =? length (payload e))%nat
      then (seen_ids, bh)
      else (seen_ids, bytes_loop (can_id e) prev (payload e) bh)
  end.

(** [for ... in in_win], giving [seen_ids] and the updated [bit_hits]. *)
Definition frames_loop (before : gmap Z (list Z)) (win : list Entry)
    (bh : gmap (Z * nat * nat) Z) : gset Z * gmap (Z * nat * nat) Z :=
  foldl (frame_step before) (∅, bh) win.

(** The body of [if state and not last_state], up to the log lines. *)
Definition on_rising_edge (ring : list Entry) (t_event : Z) (c : Counters)
  : Counters :=
  let t_start := t_event - PRE_WIN in
  let t_end := t_event + POST_WIN in
  let before := before_of ring t_start in
  let '(seen_ids, bh) := frames_loop before (in_win ring t_start t_end) (bit_hits c) in
  mkCounters (set_fold incr (id_hits c) seen_ids) bh.

(** [while ring and ring[0][0] < t_cut: ring.popleft()] *)
Fixpoint evict (ring : list Entry) (t_cut : Z) : list Entry :=
  match ring with
  | [] => []
  | e :: rest => if ts e <? t_cut then evict rest t_cut else ring
  end.

Record Runner : Type :=
  mkRunner { ring : list Entry; hits : Counters; last_state : bool }.

(** [ring = deque(); id_hits = Counter(); bit_hits = Counter();
     last_state = False] *)
Definition start : Runner := mkRunner [] (mkCounters ∅ ∅) false.

(** One round of the [while not self._stop_event.is_set()] loop: [rd] is
    what [_pcan_read_once] gave, [state] what the detector reported (an
    exception of the detector counts as [False]), [t_event] the clock when
    the edge is tested. *)
Definition iteration (rd : option Entry) (state : bool) (t_event : Z)
    (r : Runner) : Runner :=
  let ring :=
    match rd with
    | Some e => evict (ring r ++ [e]) (ts e - RING_SECONDS)
    | None => ring r
    end in
  let hits :=
    if state && negb (last_state r) then on_rising_edge ring t_event (hits r)
    else hits r in
  mkRunner ring hits state.

(** *** Notions the statements about the correlation use *)

(** Bit [bit] is clear in [p] and set in [d]. *)
Definition bit_rises (p d : Z) (bit : nat) : bool :=
  (Z.land p (Z.shiftl 1 (Z.of_nat bit)) =? 0)
  && negb (Z.land d (Z.shiftl 1 (Z.of_nat bit)) =? 0).

(** The frame [e] is compared with the snapshot [prev] (same length) and
    bit [bit] of byte [idx] goes from 0 in [prev] to 1 in [e]. *)
Definition rises (prev : list Z) (idx bit : nat) (e : Entry) : bool :=
  (length prev =? length (payload e))%nat
  && (idx <? length prev)%nat && (bit <? 8)%nat
  && bit_rises (byte_at prev idx) (byte_at (payload e) idx) bit.

(** Number of frames of [win] with the id of [k] that show the rise of the
    bit of [k] over the before-snapshot of that id. *)
Definition rise_count (before : gmap Z (list Z)) (win : list Entry)
    (k : Z * nat * nat) : Z :=
  match before !! k.1.1 with
  | None => 0
  | Some prev =>
      Z.of_nat (length (List.filter
                          (fun e => (can_id e =? k.1.1) && rises prev k.1.2 k.2 e) win))
  end.

(** The data of the last ring entry of [cid] older than [t]. *)
Definition last_seen_before (ring : list Entry) (t cid : Z) : option (list Z) :=
  payload <$> last (List.filter (fun e => (can_id e =? cid) && (ts e <? t)) ring).

(** The frames of [cid] among [win]. *)
Definition frames_with_id (cid : Z) (win : list Entry) : list Entry :=
  List.filter (fun e => can_id e =? cid) win.

End Correlate.

(** ** More Python built-ins: formatting, [bytes.fromhex], [str.join],
       [itertools.product] *)

Module PyFmt.

(** [s.zfill(width)] for a text without sign. *)
Definition zfill (width : nat) (s : string) : string :=
  String.append (string_of_list_ascii (replicate (width - String.length s) "0"%char)) s.

(** [f"{n:02X}"]: upper-case hexadecimal, the sign first, filled with zeros
    to two characters in all. *)
Definition format_02X (n : Z) : string :=
  let digits :=
    Py.upper (HexadecimalString.NilZero.string_of_uint (N.to_hex_uint (Z.abs_N n))) in
  if n <? 0 then String "-"%char (zfill 1 digits) else zfill 2 digits.

(** The text [s] is the byte [b] in two upper-case hex digits. *)
Definition two_digits_of (b : Z) (s : string) : bool :=
  match s with
  | String h (String l EmptyString) =>
      negb (Py.is_blank h)
      && bool_decide (Py.hex_digit h = Some (b / 16))
      && bool_decide (Py.hex_digit l = Some (b mod 16))
      && bool_decide (Py.upper s = s)
  | _ => false
  end.

(** [sep.join(l)] *)
Fixpoint join (sep : string) (l : list string) : string :=
  match l with
  | [] => EmptyString
  | [x] => x
  | x :: rest => String.append x (String.append sep (join sep rest))
  end.

(** [bytes.fromhex(s)]: pairs of hex digits, white space allowed between
    pairs; [None] stands for the [ValueError]. *)
Fixpoint fromhex (s : string) : option (list Z) :=
  match s with
  | EmptyString => Some []
  | String c r =>
      if Py.is_blank c then fromhex r
      else
        match Py.hex_digit c, r with
        | Some h, String c2 r2 =>
            match Py.hex_digit c2 with
            | Some l =>
                match fromhex r2 with
                | Some bytes => Some (16 * h + l :: bytes)
                | None => None
                end
            | None => None
            end
        | _, _ => None
        end
  end.

(** [itertools.product] of the pools, as a list: the last pool runs fastest. *)
Fixpoint product {A} (pools : list (list A)) : list (list A) :=
  match pools with
  | [] => [[]]
  | pool :: rest => flat_map (fun x => map (cons x) (product rest)) pool
  end.

End PyFmt.

(** ** bmw_gui/can_utils.py (and bmw.py): [fmt_bytes], [make_msg],
       [recv_drain] *)

Module CanUtils.

(** [fmt_bytes(by)] *)
Definition fmt_bytes (by_ : list Z) : string :=
  PyFmt.join " " (map PyFmt.format_02X by_).

(** The [ValueError] of [make_msg]: from [int(can_id_hex, 16)] or from
    [bytes.fromhex(data_hex)]. *)
Inductive ValueError : Type :=
| BadId (can_id_hex : string)
| BadData (data_hex : string).

(** [make_msg(can_id_hex, data_hex)]: arbitration id and data of the frame. *)
Definition make_msg (can_id_hex data_hex : string) : ValueError + Frame :=
  match Py.int16 can_id_hex with
  | None => inl (BadId can_id_hex)
  | Some arb_id =>
      match PyFmt.fromhex data_hex with
      | None => inl (BadData data_hex)
      | Some data => inr (mkFrame arb_id data)
      end
  end.

(** The loop of [recv_drain], [end_t] being [time.time() + max_duration]. *)
Fixpoint drain_loop (end_t now : Z) (pending : list Read) (log : list io) : Bus :=
  match pending with
  | [] => mkBus now [] log
  | r :: rest =>
      if now <? end_t then drain_loop end_t (stamp r) rest (log ++ [Recv r])
      else mkBus now pending log
  end.

Definition recv_drain (b : Bus) (max_duration : Z) : Bus :=
  drain_loop (now b + max_duration) (now b) (pending b) (log b).

(** [time.sleep(delay)] *)
Definition sleep (b : Bus) (delay : Z) : Bus :=
  mkBus (now b + delay) (pending b) (log b).

End CanUtils.

(** ** bmw_gui/sequences.py: [send_sequence] *)

Module Sequences.

Import CanUtils.

(** The loop of [send_sequence]; an exception of [make_msg] leaves it. *)
Fixpoint send_loop (seq : list (string * string)) (delay_s rx_window_s : Z)
    (b : Bus) : (ValueError + bool) * Bus :=
  match seq with
  | [] => (inr true, b)
  | (can_id, data_hex) :: rest =>
      match make_msg can_id data_hex with
      | inl e => (inl e, b)
      | inr msg =>
          let b := send b (arbitration_id msg) (data msg) in
          let b := recv_drain b rx_window_s in
          let b := sleep b delay_s in
          send_loop rest delay_s rx_window_s b
      end
  end.

(** [send_sequence(seq, delay_s, rx_window_s)] on a bus that opens and takes
    every frame: [True], or the exception of [make_msg] handed up. *)
Definition send_sequence (seq : list (string * string)) (delay_s rx_window_s : Z)
    (b : Bus) : (ValueError + bool) * Bus :=
  send_loop seq delay_s rx_window_s b.



End Sequences.

(** ** bmw.py: [send_sequence], which reports an exception and answers
       [False] *)

Module BmwApp.

Definition send_sequence (seq : list (string * string)) (delay_s rx_window_s : Z)
    (b : Bus) : bool * Bus :=
  match Sequences.send_loop seq delay_s rx_window_s b with
  | (inl _, b) => (false, b)
  | (inr ok, b) => (ok, b)
  end.

End BmwApp.

(** ** The test pages: [TestPage.on_send] of bmw.py and of
       bmw_gui/ui/pages/test.py, the combinations sent *)

Module TestPage.

(** [[f"{i:02X}" for i in range(256)]] *)
Definition hex_choices : list string :=
  map (fun i => PyFmt.format_02X (Z.of_nat i)) (seq 0 256).

(** [choices] *)
Definition choices (tokens : list (option string)) : list (list string) :=
  map (fun t => match t with None => hex_choices | Some t => [t] end) tokens.

(** bmw.py: the combinations of [for combo in itertools.product] over [choices]. *)
Definition combos (tokens : list (option string)) : list (list string) :=
  PyFmt.product (choices tokens).

(** test.py: [combo_iter()], the product of the reversed choices with every
    tuple reversed. *)
Definition combo_iter (tokens : list (option string)) : list (list string) :=
  map (@rev string) (PyFmt.product (rev (choices tokens))).

(** [bytes.fromhex("".join(combo))] *)
Definition frame_data (combo : list string) : option (list Z) :=
  PyFmt.fromhex (PyFmt.join "" combo).

(** [combo] fits [tokens]: the token itself at a fixed position, one of the
    256 two-digit texts at a wildcard. *)
Definition fits (tokens : list (option string)) (combo : list string) : Prop :=
  Forall2 (fun t x => match t with Some s => x = s | None => In x hex_choices end)
          tokens combo.

(** test.py: the batching of [on_send] when the operator never aborts.
    [burst] collects combinations; once it holds [max_parallel] of them it is
    sent and emptied. *)
Fixpoint burst_loop {A} (max_parallel : nat) (combos : list A)
    (burst : list A) (sent : list (list A)) : list A * list (list A) :=
  match combos with
  | [] => (burst, sent)
  | combo :: rest =>
      let burst := burst ++ [combo] in
      if (length burst <? max_parallel)%nat
      then burst_loop max_parallel rest burst sent
      else burst_loop max_parallel rest [] (sent ++ [burst])
  end.

(** The bursts sent: those of the loop, then what is left ([if ok and burst]). *)
Definition bursts {A} (max_parallel : nat) (combos : list A) : list (list A) :=
  let '(burst, sent) := burst_loop max_parallel combos [] [] in
  match burst with
  | [] => sent
  | _ => sent ++ [burst]
  end.

End TestPage.

(** ** bmw_gui/trigger_finder.py: [_mk_msg] *)

Module Pcan.

(** [TPCANMsg], the structure of the PCAN-Basic binding: [ID] a [c_uint],
    [LEN] a [c_ubyte], [DATA] an array of 8 [c_ubyte] ([MSGTYPE] is the
    constant [PCAN_MESSAGE_STANDARD]).  A field of these types stores the
    integer assigned to it modulo 2^32, respectively 256. *)
Record TPCANMsg : Type := mkMsg { ID : Z; LEN : Z; DATA : list Z }.

(** [_mk_msg(arbid, data8)]: [msg.ID = arbid] stores [arbid] modulo 2^32,
    [msg.LEN = 8]; the array of 8 [c_ubyte] starts as zeros and
    [arr[i] = b] stores [b] modulo 256. *)
Definition _mk_msg (arbid : Z) (data8 : list Z) : TPCANMsg :=
  let arr := replicate 8 0 in
  let arr :=
    foldl (fun arr '(i, b) => <[i := b mod 256]> arr) arr
          (zip (seq 0 (length (take 8 data8))) (take 8 data8)) in
  mkMsg (arbid mod 2 ^ 32) 8 arr.

End Pcan.

(** ** bmw_gui/trigger_finder.py: the detectors on top of [uds_read_by_id] *)

Module UdsDetectors.

Import TriggerUds.

(** The loop of [LEDAnyOn.read_state] over [range(0, min(len(payload), 20), 2)]. *)
Fixpoint led_loop (payload : list Z) (idxs : list nat) : bool :=
  match idxs with
  | [] => false
  | i :: rest =>
      let milliamp := byte_at payload i * 10 in
      let pct := if (i + 1 <? length payload)%nat then byte_at payload (i + 1) else 0 in
      if (0 <? pct) || (50 <=? milliamp) then true else led_loop payload rest
  end.

(** [range(0, n, 2)] *)
Definition range_by_2 (n : nat) : list nat :=
  map (fun k => (2 * k)%nat) (seq 0 (Nat.div2 (n + 1))).

(** What [LEDAnyOn.read_state] answers on the payload read. *)
Definition led_any_on (payload : list Z) : bool :=
  led_loop payload (range_by_2 (Nat.min (length payload) 20)).

(** [LEDAnyOn.read_state(api, profile)]; a [TimeoutError] of the read is
    handed up. *)
Definition LEDAnyOn_read_state (b : Bus) (p : Profile)
  : (TimeoutError + bool) * Bus :=
  let '(res, b') := uds_read_by_id b 0xD631 p 1000 in
  match res with
  | inl e => (inl e, b')
  | inr payload => (inr (led_any_on payload), b')
  end.

Section Moves.

(** The floating-point part of [AHLMove] and [LWRMove] is left open: [F]
    stands for [float], [tenth raw] for [raw / 10.0], and
    [moved val prev delta] for [abs(val - prev) >= delta]. *)
Variable F : Type.
Variable tenth : Z -> F.
Variable moved : F -> F -> F -> bool.

(** [self.prev], [self.delta] *)
Record Move : Type := mkMove { prev : option F; delta : F }.

(** [AHLMove.reset] / [LWRMove.reset] *)
Definition move_reset (d : Move) : Move := mkMove None (delta d).

(** [AHLMove.read_state] from the payload on. *)
Definition ahl_step (d : Move) (payload : list Z) : bool * Move :=
  if (length payload <? 2)%nat then (false, d)
  else
    let val := tenth (Z.lor (Z.shiftl (byte_at payload 0) 8) (byte_at payload 1)) in
    match prev d with
    | None => (false, mkMove (Some val) (delta d))
    | Some prev => (moved val prev (delta d), mkMove (Some val) (delta d))
    end.

(** [LWRMove.read_state] from the payload on. *)
Definition lwr_step (d : Move) (payload : list Z) : bool * Move :=
  match payload with
  | [] => (false, d)
  | _ =>
      let val := tenth (byte_at payload 0) in
      match prev d with
      | None => (false, mkMove (Some val) (delta d))
      | Some prev => (moved val prev (delta d), mkMove (Some val) (delta d))
      end
  end.

(** [AHLMove.read_state(api, profile)] *)
Definition AHLMove_read_state (d : Move) (b : Bus) (p : Profile)
  : (TimeoutError + bool) * Move * Bus :=
  let '(res, b') := uds_read_by_id b 0xD663 p 1000 in
  match res with
  | inl e => (inl e, d, b')
  | inr payload => let '(trig, d') := ahl_step d payload in (inr trig, d', b')
  end.

(** [LWRMove.read_state(api, profile)] *)
Definition LWRMove_read_state (d : Move) (b : Bus) (p : Profile)
  : (TimeoutError + bool) * Move * Bus :=
  let '(res, b') := uds_read_by_id b 0xD63B p 1000 in
  match res with
  | inl e => (inl e, d, b')
  | inr payload => let '(trig, d') := lwr_step d payload in (inr trig, d', b')
  end.

(** Successive payloads through [ahl_step]: the answers. *)
Fixpoint ahl_run (d : Move) (payloads : list (list Z)) : list bool :=
  match payloads with
  | [] => []
  | payload :: rest =>
      let '(trig, d') := ahl_step d payload in trig :: ahl_run d' rest
  end.

Fixpoint lwr_run (d : Move) (payloads : list (list Z)) : list bool :=
  match payloads with
  | [] => []
  | payload :: rest =>
      let '(trig, d') := lwr_step d payload in trig :: lwr_run d' rest
  end.

End Moves.

End UdsDetectors.

(** ** bmw_gui/trigger_finder.py: a run of the loop of [_run] *)

Module Run.

Import Correlate.

(** One round: what [_pcan_read_once] gave, what the detector reported, and
    the clock when the edge is tested. *)
Definition Round : Type := (option Entry * bool * Z)%type.

(** The rounds of the loop, from the runner [r] on. *)
Fixpoint run (rounds : list Round) (r : Runner) : Runner :=
  match rounds with
  | [] => r
  | (rd, state, t_event) :: rest => run rest (iteration rd state t_event r)
  end.

(** Number of rising edges of the detector's answers, [last] being the
    answer before the first round. *)
Fixpoint edges (last : bool) (rounds : list Round) : nat :=
  match rounds with
  | [] => 0
  | (_, state, _) :: rest =>
      ((if state && negb last then 1 else 0) + edges state rest)%nat
  end.

(** The frames the rounds put into the ring, in order. *)
Definition pushed (rounds : list Round) : list Entry :=
  omap (fun round : Round => round.1.1) rounds.

(** The counters are consistent: no count is negative, and a bit that was
    counted is one of the eight bits of a byte of an id that was counted. *)
Definition consistent (c : Counters) : Prop :=
  (forall cid, 0 <= count (id_hits c) cid) /\
  (forall k, 0 <= count (bit_hits c) k) /\
  (forall k, 0 < count (bit_hits c) k ->
             0 < count (id_hits c) k.1.1 /\ (k.2 < 8)%nat).

(** The entries are in the order of their time stamps. *)
Definition ordered (ring : list Entry) : Prop :=
  StronglySorted (fun a b => ts a <= ts b) ring.

End Run.

(** ** Notions for the statements about multi-frame responses *)

Module Reassembly.

(** A consecutive frame as [uds_read_by_id] takes it. *)
Definition is_consecutive (p : TriggerUds.Profile) (r : Read) : bool :=
  match got r with
  | Some f =>
      TriggerUds.addressed p f && (Z.land (byte_at (data f) 1) 0xF0 =? 0x20)
  | None => false
  end.

(** What [uds_read_by_id] appends for it: [data2[2:]]. *)
Definition tail_of (r : Read) : list Z :=
  match got r with
  | Some f => drop 2 (data f)
  | None => []
  end.

(** A consecutive frame as [_uds_read_by_identifier] takes it, the data
    being filled up to 8 bytes by [_recv_until]. *)
Definition is_table_consecutive (rx_id : Z) (r : Read) : bool :=
  match got r with
  | Some f =>
      (arbitration_id f =? rx_id)
      && (byte_at (TableUds.pad8 (data f)) 0 =? TableUds.EA_RSP)
      && (Z.land (byte_at (TableUds.pad8 (data f)) 1) 0xF0 =? 0x20)
  | None => false
  end.

(** What [_uds_read_by_identifier] appends for it: [cf[2:]]. *)
Definition padded_tail_of (r : Read) : list Z :=
  match got r with
  | Some f => drop 2 (TableUds.pad8 (data f))
  | None => []
  end.

End Reassembly.

(** ** bmw.py: [UdsTablePage._fetch_values] and [_apply_values] *)

Module TablePage.

(** [_apply_values(values)]: [vars] are the texts of [self._value_vars], a
    variable being named by its position; the first loop sets the variables
    paired with a value and leaves their number in [count], the second sets
    [self._value_vars[count:]] to a dash. *)
Definition _apply_values (vars values : list string) : list string :=
  let pairs := zip (seq 0 (length vars)) values in
  let '(vars, count) :=
    foldl (fun '(vars, _) '(count, (var, val)) => (<[var := val]> vars, count))
          (vars, 0%nat) (zip (seq 1 (length pairs)) pairs) in
  foldl (fun vars var => <[var := "-"%string]> vars) vars
        (drop count (seq 0 (length vars))).

Section Fetch.

(** [two_decimals raw] stands for [f"{raw / 10.0:.2f}"], the text of the
    float [raw / 10.0]; the decoders below give [raw]. *)
Variable two_decimals : Z -> string.

(** [_decode_ahl], before the division by [10.0]. *)
Definition _decode_ahl (payload : list Z) : Z :=
  if (2 <=? length payload)%nat
  then Z.lor (Z.shiftl (byte_at payload 0) 8) (byte_at payload 1)
  else match payload with
       | x :: _ => x
       | [] => 0
       end.

(** [_decode_lwr], before the division by [10.0]. *)
Definition _decode_lwr (payload : list Z) : Z :=
  match payload with
  | x :: _ => x
  | [] => 0
  end.

Definition DID_LED : Z := 0xD631.
Definition DID_AHL : Z := 0xD663.
Definition DID_LWR : Z := 0xD63B.

(** [_fetch_values(cfg, bus=bus)]: three reads, the first [RuntimeError]
    ends the call. *)
Definition _fetch_values (TX_ID RX_ID EA_REQ : Z) (b : Bus)
  : (TableUds.RuntimeError + list string) * Bus :=
  let '(led, b) := TableUds._uds_read_by_identifier b TX_ID RX_ID EA_REQ DID_LED in
  match led with
  | inl e => (inl e, b)
  | inr payload_led =>
      let '(ahl, b) := TableUds._uds_read_by_identifier b TX_ID RX_ID EA_REQ DID_AHL in
      match ahl with
      | inl e => (inl e, b)
      | inr payload_ahl =>
          let '(lwr, b) :=
            TableUds._uds_read_by_identifier b TX_ID RX_ID EA_REQ DID_LWR in
          match lwr with
          | inl e => (inl e, b)
          | inr payload_lwr =>
              let '(pct_vals, ma_vals) := TableUds._decode_led payload_led in
              let ahl_val := two_decimals (_decode_ahl payload_ahl) in
              let lwr_val := two_decimals (_decode_lwr payload_lwr) in
              (inr (pct_vals ++ ma_vals ++ [ahl_val; lwr_val]), b)
          end
      end
  end.

End Fetch.

End TablePage.

(* ===================================================================== *)
(** * Part II: properties                                                 *)
(* ===================================================================== *)

Example normalize_examples :
  Codec.normalize_hex_byte " a " = inr (Some "0A"%string) /\
  Codec.normalize_hex_byte "0x1f" = inr (Some "1F"%string) /\
  Codec.normalize_hex_byte "??" = inr None /\
  Codec.normalize_hex_byte "GG" = inl (Codec.InvalidLiteral "GG") /\
  Codec.normalize_hex_byte "123" = inl Codec.ByteLengthError /\
  Py.str 50 = "50"%string /\ Py.str 0 = "0"%string /\ Py.str (-7) = "-7"%string.
Proof. repeat split; reflexivity. Qed.

(** ** The LED decoder *)

Section DecodeLed.

Import TableUds.

(** The conditional expression of [_decode_led] pads or cuts to 20 bytes. *)
Lemma padded_take (payload : list Z) :
  (if (length payload <? 20)%nat
   then take 20 payload ++ replicate (20 - length payload) 0
   else take 20 payload)
  = take 20 (payload ++ replicate 20 0).
Proof.
  destruct (Nat.ltb_spec (length payload) 20) as [Hlt | Hge].
  - rewrite take_ge by lia.
    rewrite take_app_ge by lia.
    rewrite take_replicate. do 2 f_equal. lia.
  - rewrite take_app_le by lia. reflexivity.
Qed.

Lemma padded_length (payload : list Z) :
  length (take 20 (payload ++ replicate 20 0)) = 20%nat.
Proof. rewrite length_take, length_app, length_replicate. lia. Qed.

Lemma padded_nth (payload : list Z) (i : nat) :
  (i < 20)%nat ->
  nth i (take 20 (payload ++ replicate 20 0)) 0 = nth i payload 0.
Proof.
  intros Hi. rewrite !nth_lookup, lookup_take_lt by lia.
  destruct (Nat.lt_ge_cases i (length payload)) as [Hlt | Hge].
  - rewrite lookup_app_l by lia. reflexivity.
  - rewrite lookup_app_r by lia.
    rewrite lookup_replicate_2 by lia.
    rewrite (lookup_ge_None_2 payload i) by lia. reflexivity.
Qed.

(** [_decode_led] in closed form. *)
Lemma decode_led_closed (payload : list Z) :
  _decode_led payload =
    (map (fun v => Py.str (Z.max 0 (Z.min 100 v)))
         (take 10 (take 20 (payload ++ replicate 20 0))),
     map (fun v => Py.str (Z.max 0 v * 10))
         (drop 10 (take 20 (payload ++ replicate 20 0)))).
Proof.
  unfold _decode_led, slice. rewrite padded_take.
  f_equal. f_equal. apply take_ge.
  rewrite length_drop, padded_length. lia.
Qed.

(** C7.  [_decode_led] is total; it reads the payload cut or zero-padded to
    exactly 20 bytes; channel [i] of the first list is byte [i] clamped to
    [0, 100], channel [i] of the second list is byte [10 + i] floored at 0
    and multiplied by 10, both as decimal strings, a byte that is missing
    counting as 0; [[0]*10 + [5]*10] gives ["0"]*10 and ["50"]*10, and a
    5-byte payload decodes like the same payload followed by 15 zero bytes. *)
Theorem decode_led_spec (payload : list Z) :
  let padded := take 20 (payload ++ replicate 20 0) in
  length padded = 20%nat /\
  (forall i, (i < 20)%nat -> nth i padded 0 = nth i payload 0) /\
  length (fst (_decode_led payload)) = 10%nat /\
  length (snd (_decode_led payload)) = 10%nat /\
  (forall i, (i < 10)%nat ->
     exists pct ma,
       fst (_decode_led payload) !! i = Some (Py.str pct) /\
       snd (_decode_led payload) !! i = Some (Py.str ma) /\
       pct = Z.max 0 (Z.min 100 (nth i payload 0)) /\ 0 <= pct <= 100 /\
       ma = Z.max 0 (nth (10 + i) payload 0) * 10 /\ 0 <= ma) /\
  _decode_led (replicate 10 0 ++ replicate 10 5)
    = (replicate 10 "0"%string, replicate 10 "50"%string) /\
  (forall a b c d e,
     _decode_led [a; b; c; d; e] = _decode_led ([a; b; c; d; e] ++ replicate 15 0)).
Proof.
  cbv zeta. split; [apply padded_length|].
  split; [intros i Hi; apply padded_nth, Hi|].
  rewrite decode_led_closed. cbn [fst snd].
  pose proof (padded_length payload) as Hlen.
  split; [rewrite length_map, length_take; lia|].
  split; [rewrite length_map, length_drop; lia|].
  split.
  - intros i Hi.
    exists (Z.max 0 (Z.min 100 (nth i payload 0))),
           (Z.max 0 (nth (10 + i) payload 0) * 10).
    rewrite !list_lookup_fmap, lookup_take_lt, lookup_drop by lia.
    rewrite <- (padded_nth payload i), <- (padded_nth payload (10 + i)) by lia.
    rewrite !nth_lookup.
    destruct (lookup_lt_is_Some_2 (take 20 (payload ++ replicate 20 0)) i)
      as [x Hx]; [lia|].
    destruct (lookup_lt_is_Some_2 (take 20 (payload ++ replicate 20 0)) (10 + i))
      as [y Hy]; [lia|].
    rewrite Hx, Hy. cbn. repeat split; lia.
  - split; [reflexivity|]. intros a b c d e. reflexivity.
Qed.

End DecodeLed.

(** ** The byte codec *)

Section CodecProperties.

Import Codec.

Lemma in_all_ascii (c : ascii) : In c all_ascii.
Proof.
  unfold all_ascii. rewrite <- (ascii_nat_embedding c).
  apply in_map, in_seq. pose proof (nat_ascii_bounded c). lia.
Qed.

(** A property of two characters that holds by running through all pairs. *)
Lemma by_all_pairs (P : ascii -> ascii -> bool) :
  forallb (fun a => forallb (P a) all_ascii) all_ascii = true ->
  forall a b, P a b = true.
Proof.
  intros H a b. rewrite forallb_forall in H.
  specialize (H a (in_all_ascii a)). rewrite forallb_forall in H.
  exact (H b (in_all_ascii b)).
Qed.

(** [int(s, 16)] on a text of two characters. *)
Lemma int16_two (a b : ascii) :
  is_Some (Py.int16 (String a (String b EmptyString))) <-> int_accepts2 a b = true.
Proof.
  pose proof (by_all_pairs
    (fun a b => Bool.eqb
       (match Py.int16 (String a (String b EmptyString)) with
        | Some _ => true | None => false end)
       (int_accepts2 a b))) as H.
  specialize (H ltac:(vm_compute; reflexivity) a b).
  apply eqb_prop in H. rewrite <- H.
  destruct (Py.int16 _); split; intros Hs; try reflexivity; try discriminate.
  - eauto.
  - destruct Hs as [? ?]. discriminate.
Qed.

Lemma int16_two_range (a b : ascii) (n : Z) :
  Py.int16 (String a (String b EmptyString)) = Some n -> -15 <= n <= 255.
Proof.
  pose proof (by_all_pairs
    (fun a b =>
       match Py.int16 (String a (String b EmptyString)) with
       | Some n => (-15 <=? n) && (n <=? 255) | None => true end)) as H.
  specialize (H ltac:(vm_compute; reflexivity) a b). cbv beta in H.
  intros Hn. rewrite Hn in H. lia.
Qed.

Lemma wild_dec (s : string) :
  (String.eqb s "" || String.eqb s "?" || String.eqb s "??")%bool = true
  <-> (s = "" \/ s = "?" \/ s = "??")%string.
Proof.
  rewrite !orb_true_iff, !String.eqb_eq. tauto.
Qed.

Lemma length_two (t : string) :
  String.length t = 2%nat -> exists a b, t = String a (String b EmptyString).
Proof.
  destruct t as [|a [|b [|c r]]]; cbn; try discriminate. eauto.
Qed.

(** C8.  The code at inputs the claim must reject.  ["10x"] is not an
    optional leading prefix followed by a byte, yet [replace] removes the
    inner "0X" and the byte ["01"] is returned, where section 4.1 (which
    strips a leading prefix and nothing more) fails.  ["+5"], ["-a"] and
    ["0x 5"] are returned as the tokens ["+5"], ["-A"] and [" 5"], which are
    not two hex digits: the validation by [int(s, 16)] lets a sign or a
    blank next to one hex digit pass.  The cases of the docstring, ["GG"]
    and ["0x1f"], are as it says. *)
Theorem normalize_hex_byte_accepts_non_hex :
  normalize_hex_byte "10x" = inr (Some "01"%string) /\
  normalize_byte_spec "10x" = inl (InvalidToken "10x") /\
  ~ meets_spec "10x" /\
  normalize_hex_byte "+5" = inr (Some "+5"%string) /\
  normalize_byte_spec "+5" = inl (InvalidToken "+5") /\
  is_hex2 "+5" = false /\
  normalize_hex_byte "-a" = inr (Some "-A"%string) /\
  is_hex2 "-A" = false /\
  normalize_hex_byte "0x 5" = inr (Some " 5"%string) /\
  is_hex2 " 5" = false /\
  normalize_hex_byte "GG" = inl (InvalidLiteral "GG") /\
  normalize_hex_byte "0x1f" = inr (Some "1F"%string).
Proof.
  assert (H1 : ~ meets_spec "10x").
  { intros (e & He & _). vm_compute in He. discriminate He. }
  repeat (split; [first [reflexivity | assumption]|]). reflexivity.
Qed.

(** What [normalize_hex_byte] does to an ASCII text, in full.  With [s] the
    input trimmed, upper-cased and with every occurrence of "0X" removed,
    and [t] the text [s] zero-padded when it is a single character: [s]
    empty, "?" or "??" gives the wildcard; otherwise a [t] that is not two
    characters long fails with the fixed-message error, a two-character
    [t] that [int(t, 16)] accepts (two hex digits, or one hex digit next to
    a sign or a blank) is returned as it is, and any other fails with the
    error of [int], which names [t]; whatever is returned has two
    characters and an integer value; two hex digits are always returned. *)
Theorem normalize_hex_byte_spec (val : string) :
  Py.is_ascii val = true ->
  let s := Py.replace_0X (Py.upper (Py.strip val)) in
  let t := if (String.length s =? 1)%nat then String.append "0" s else s in
  ((s = "" \/ s = "?" \/ s = "??")%string -> normalize_hex_byte val = inr None) /\
  (~ (s = "" \/ s = "?" \/ s = "??")%string ->
     (String.length t <> 2%nat -> normalize_hex_byte val = inl ByteLengthError) /\
     (forall a b, t = String a (String b EmptyString) ->
        normalize_hex_byte val =
          if int_accepts2 a b then inr (Some t) else inl (InvalidLiteral t))) /\
  (forall t', normalize_hex_byte val = inr (Some t') ->
     t' = t /\ String.length t' = 2%nat /\
     exists n, Py.int16 t' = Some n /\ -15 <= n <= 255) /\
  (is_hex2 t = true -> normalize_hex_byte val = inr (Some t)).
Proof.
  intros _. cbv zeta. unfold normalize_hex_byte.
  set (s := Py.replace_0X (Py.upper (Py.strip val))).
  set (t := if (String.length s =? 1)%nat then String.append "0" s else s).
  destruct (String.eqb s "" || String.eqb s "?" || String.eqb s "??")%bool eqn:Hw.
  - apply wild_dec in Hw.
    repeat split; try discriminate; try tauto.
    intros Hh. exfalso. subst t.
    destruct Hw as [-> | [-> | ->]]; discriminate Hh.
  - assert (Hnw : ~ (s = "" \/ s = "?" \/ s = "??")%string).
    { intros H. apply wild_dec in H. congruence. }
    assert (Hab : forall a b, t = String a (String b EmptyString) ->
              (if negb (String.length t =? 2)%nat
               then inl ByteLengthError
               else match Py.int16 t with
                    | Some _ => inr (Some t)
                    | None => inl (InvalidLiteral t)
                    end)
              = if int_accepts2 a b then inr (Some t) else inl (InvalidLiteral t)).
    { intros a b Ht. rewrite Ht. cbn [String.length Nat.eqb negb].
      pose proof (int16_two a b) as Hi.
      destruct (Py.int16 _) as [n|], (int_accepts2 a b); try reflexivity.
      - destruct Hi as [Hi _]. specialize (Hi ltac:(eauto)). discriminate.
      - destruct Hi as [_ Hi]. destruct (Hi eq_refl). discriminate. }
    split; [tauto|]. split; [|split].
    + intros _. split; [|exact Hab].
      intros Hlen. apply Nat.eqb_neq in Hlen. rewrite Hlen. reflexivity.
    + intros t'.
      destruct (String.length t =? 2)%nat eqn:Hlen; cbn [negb]; [|discriminate].
      apply Nat.eqb_eq in Hlen.
      destruct (Py.int16 t) as [n|] eqn:Hn; [|discriminate].
      intros [= <-]. repeat split; [exact Hlen|].
      exists n. split; [exact Hn|].
      destruct (length_two t Hlen) as (a & b & Ht). rewrite Ht in Hn.
      exact (int16_two_range a b n Hn).
    + intros Hh.
      destruct t as [|a [|b [|c r]]] eqn:Ht; try discriminate Hh.
      rewrite (Hab a b eq_refl).
      unfold is_hex2 in Hh. unfold int_accepts2, is_hex.
      destruct (Py.hex_digit a), (Py.hex_digit b); try discriminate Hh.
      reflexivity.
Qed.

(** *** [tokens_from_boxes] *)

Lemma tokens_loop_ok (fields : list string) (ts acc : list (option string)) (total : Z) :
  Forall2 (fun v t => normalize_hex_byte v = inr t) fields ts ->
  tokens_loop fields acc total
    = inr (acc ++ ts, total * 256 ^ Z.of_nat (wildcards ts)).
Proof.
  intros H. revert acc total.
  induction H as [|v t fields ts Hv _ IH]; intros acc total; cbn.
  - rewrite app_nil_r. f_equal. f_equal. unfold wildcards. cbn. lia.
  - rewrite Hv, IH, <- app_assoc. cbn. f_equal. f_equal.
    unfold wildcards. destruct t; cbn [List.filter length]; [reflexivity|].
    rewrite Nat2Z.inj_succ, Z.pow_succ_r by lia. lia.
Qed.

Lemma tokens_loop_fail (pre post : list string) (v : string) (e : ValueError)
    (acc : list (option string)) (total : Z) :
  Forall (fun u => exists t, normalize_hex_byte u = inr t) pre ->
  normalize_hex_byte v = inl e ->
  tokens_loop (pre ++ v :: post) acc total = inl e.
Proof.
  intros Hpre Hv. revert acc total.
  induction Hpre as [|u pre [t Hu] _ IH]; intros acc total; cbn.
  - rewrite Hv. reflexivity.
  - rewrite Hu. apply IH.
Qed.

(** Either every field normalises, or there is a first one that does not. *)
Lemma fields_valid_or_first_invalid (fields : list string) :
  (exists ts, Forall2 (fun v t => normalize_hex_byte v = inr t) fields ts) \/
  (exists pre v post e,
     fields = pre ++ v :: post /\
     Forall (fun u => exists t, normalize_hex_byte u = inr t) pre /\
     normalize_hex_byte v = inl e).
Proof.
  induction fields as [|v fields IH].
  - left. exists []. constructor.
  - destruct (normalize_hex_byte v) as [e|t] eqn:Hv.
    + right. exists [], v, fields, e. repeat split; [constructor | exact Hv].
    + destruct IH as [[ts Hts] | (pre & u & post & e & -> & Hpre & Hu)].
      * left. exists (t :: ts). constructor; assumption.
      * right. exists (v :: pre), u, post, e. repeat split; [|exact Hu].
        constructor; eauto.
Qed.



End CodecProperties.

(** ** The clock *)

Lemma clock_after_lt (rs : list Read) :
  forall now deadline,
  now < deadline ->
  Forall (fun r => stamp r < deadline) rs ->
  clock_after now rs < deadline.
Proof.
  induction rs as [|r rs IH]; intros now deadline Hn H; [exact Hn|].
  inversion H as [|? ? Hr H']; subst. cbn. apply IH; assumption.
Qed.

(** ** The log *)

Lemma sends_app (l1 l2 : list io) : sends (l1 ++ l2) = sends l1 ++ sends l2.
Proof. apply omap_app. Qed.

Lemma sends_reads (rs : list Read) : sends (map Recv rs) = [].
Proof. induction rs as [|r rs IH]; [reflexivity | exact IH]. Qed.

(** A multi-frame exchange sends the request and one flow control. *)
Lemma sends_multi_frame_log (log0 : list io) (tx_id : Z) (request fc : list Z)
    (pre : list Read) (ff : Read) (consumed : list Read) :
  sends (multi_frame_log log0 tx_id request fc pre ff consumed)
  = sends log0 ++ [(tx_id, request); (tx_id, fc)].
Proof.
  unfold multi_frame_log. rewrite !sends_app, !sends_reads. reflexivity.
Qed.

(** ** [uds_read_by_id] of the trigger finder *)

Section TriggerEngine.

Import TriggerUds.

Variable p : Profile.
Variables did did_h did_l timeout : Z.

Local Abbreviation flow_control := [EA_REQ p; 0x30; 0x00; 0x00; 0; 0; 0; 0].


(** One round of the outer loop, by the branch taken. *)
Lemma await_cons (t0 now : Z) (r : Read) (rest : list Read) (log : list io) :
  await p did did_h did_l timeout t0 now (r :: rest) log =
    if now - t0 <? timeout then
      match got r with
      | None => await p did did_h did_l timeout t0 (stamp r) rest (log ++ [Recv r])
      | Some f =>
          if negb (addressed p f)
          then await p did did_h did_l timeout t0 (stamp r) rest (log ++ [Recv r])
          else if is_single did_h did_l (data f)
          then (inr (slice (data f) 5
                       (5 + Z.to_nat (Z.land (byte_at (data f) 1) 0x0F))),
                mkBus (stamp r) rest (log ++ [Recv r]))
          else if is_first did_h did_l (data f)
          then
            let '(payload, b) :=
              collect p timeout (stamp r) (stamp r) (drop 6 (data f)) rest
                ((log ++ [Recv r]) ++ [Sent (TX_ID p) flow_control]) in
            (inr payload, b)
          else await p did did_h did_l timeout t0 (stamp r) rest (log ++ [Recv r])
      end
    else (inl (UdsTimeout did), mkBus now (r :: rest) log).
Proof.
  cbn [await]. destruct (now - t0 <? timeout); [|reflexivity].
  destruct (got r) as [f|]; [|reflexivity].
  unfold addressed, is_single, is_first.
  destruct (arbitration_id f =? RX_ID p); cbn [negb orb andb]; [|reflexivity].
  rewrite Nat.ltb_antisym.
  destruct (2 <=? length (data f))%nat; cbn [negb orb andb]; [|reflexivity].
  destruct (byte_at (data f) 0 =? EA_RSP p); reflexivity.
Qed.

(** One round of the inner loop. *)
Lemma collect_cons (tf now : Z) (payload : list Z) (r : Read)
    (rest : list Read) (log : list io) :
  collect p timeout tf now payload (r :: rest) log =
    if now - tf <? timeout then
      match got r with
      | None => collect p timeout tf (stamp r) payload rest (log ++ [Recv r])
      | Some f =>
          if negb (addressed p f)
          then collect p timeout tf (stamp r) payload rest (log ++ [Recv r])
          else if Z.land (byte_at (data f) 1) 0xF0 =? 0x20
          then collect p timeout (stamp r) (stamp r) (payload ++ drop 2 (data f))
                 rest (log ++ [Recv r])
          else (payload, mkBus (stamp r) rest (log ++ [Recv r]))
      end
    else (payload, mkBus now (r :: rest) log).
Proof.
  cbn [collect]. destruct (now - tf <? timeout); [|reflexivity].
  destruct (got r) as [f|]; [|reflexivity].
  unfold addressed.
  destruct (arbitration_id f =? RX_ID p); cbn [negb orb andb]; [|reflexivity].
  rewrite Nat.ltb_antisym.
  destruct (2 <=? length (data f))%nat; cbn [negb orb andb]; [|reflexivity].
  destruct (byte_at (data f) 0 =? EA_RSP p); reflexivity.
Qed.

(** The inner loop only reads: it uses up a prefix of the pending reads,
    logs them, sends nothing, and extends the payload. *)
Lemma collect_shape (pending : list Read) :
  forall tf now payload log,
  exists consumed more,
    pending = consumed ++ Transport.pending (snd (collect p timeout tf now payload pending log)) /\
    Transport.log (snd (collect p timeout tf now payload pending log))
      = log ++ map Recv consumed /\
    fst (collect p timeout tf now payload pending log) = payload ++ more.
Proof.
  induction pending as [|r rest IH]; intros tf now payload log.
  - exists [], []. cbn. rewrite !app_nil_r. auto.
  - rewrite collect_cons.
    destruct (now - tf <? timeout).
    2:{ exists [], []. cbn. rewrite !app_nil_r. auto. }
    assert (Hrec : forall tf' payload' more0,
      payload' = payload ++ more0 ->
      exists consumed more,
        r :: rest = consumed ++ Transport.pending
          (snd (collect p timeout tf' (stamp r) payload' rest (log ++ [Recv r]))) /\
        Transport.log (snd (collect p timeout tf' (stamp r) payload' rest (log ++ [Recv r])))
          = log ++ map Recv consumed /\
        fst (collect p timeout tf' (stamp r) payload' rest (log ++ [Recv r]))
          = payload ++ more).
    { intros tf' payload' more0 ->.
      destruct (IH tf' (stamp r) (payload ++ more0) (log ++ [Recv r]))
        as (consumed & more & Hp & Hl & Hf).
      exists (r :: consumed), (more0 ++ more). cbn [app map].
      rewrite Hl, Hf, <- !app_assoc. split; [f_equal; exact Hp|]. auto. }
    destruct (got r) as [f|].
    2:{ apply (Hrec tf payload []). rewrite app_nil_r. reflexivity. }
    destruct (negb (addressed p f)).
    { apply (Hrec tf payload []). rewrite app_nil_r. reflexivity. }
    destruct (Z.land (byte_at (data f) 1) 0xF0 =? 0x20).
    { apply (Hrec (stamp r) _ (drop 2 (data f))). reflexivity. }
    exists [r], []. cbn. rewrite app_nil_r. auto.
Qed.

(** The outer loop passes over reads that are skipped while time remains. *)
Lemma await_skip (pre rest : list Read) :
  forall t0 now log,
  now - t0 < timeout ->
  Forall (fun r => skipped p did_h did_l r = true /\ stamp r - t0 < timeout) pre ->
  await p did did_h did_l timeout t0 now (pre ++ rest) log
  = await p did did_h did_l timeout t0 (clock_after now pre) rest (log ++ map Recv pre).
Proof.
  induction pre as [|r pre IH]; intros t0 now log Hnow Hpre.
  - cbn. rewrite app_nil_r. reflexivity.
  - inversion Hpre as [|? ? [Hs Ht] Hpre']; subst.
    cbn [app]. rewrite await_cons.
    apply Z.ltb_lt in Hnow. rewrite Hnow.
    unfold skipped in Hs.
    assert (Hgo : await p did did_h did_l timeout t0 (stamp r) (pre ++ rest) (log ++ [Recv r])
                  = await p did did_h did_l timeout t0 (clock_after now (r :: pre)) rest
                      (log ++ map Recv (r :: pre))).
    { rewrite (IH t0 (stamp r) (log ++ [Recv r]) Ht Hpre').
      cbn [map clock_after foldl]. rewrite <- app_assoc. reflexivity. }
    destruct (got r) as [f|]; [|exact Hgo].
    destruct (addressed p f); cbn [negb andb] in *; [|exact Hgo].
    apply negb_true_iff, orb_false_iff in Hs. destruct Hs as [-> ->].
    exact Hgo.
Qed.

(** With nothing but skipped reads until the deadline has passed, or until
    the bus falls silent, the outer loop ends in [TimeoutError]. *)
Lemma await_timeout (pre post : list Read) :
  forall t0 now log,
  Forall (fun r => skipped p did_h did_l r = true) pre ->
  post = [] \/ timeout <= clock_after now pre - t0 ->
  fst (await p did did_h did_l timeout t0 now (pre ++ post) log) = inl (UdsTimeout did).
Proof.
  induction pre as [|r pre IH]; intros t0 now log H Hend.
  - destruct Hend as [-> | Hend]; [reflexivity|]. cbn in Hend.
    destruct post as [|r post]; [reflexivity|].
    rewrite app_nil_l, await_cons.
    destruct (Z.ltb_spec (now - t0) timeout); [lia|reflexivity].
  - inversion H as [|? ? Hs H']; subst.
    cbn [app]. rewrite await_cons. destruct (now - t0 <? timeout); [|reflexivity].
    unfold skipped in Hs.
    destruct (got r) as [f|]; [|apply IH; assumption].
    destruct (addressed p f); cbn [negb andb] in *; [|apply IH; assumption].
    apply negb_true_iff, orb_false_iff in Hs. destruct Hs as [-> ->].
    apply IH; assumption.
Qed.

(** With nothing but reads passed over until the deadline has passed, or
    until the bus falls silent, the inner loop returns the payload it was
    entered with. *)
Lemma collect_quiet (quiet rest : list Read) :
  forall tf now payload log,
  Forall (fun r => passed_over p r = true) quiet ->
  rest = [] \/ timeout <= clock_after now quiet - tf ->
  fst (collect p timeout tf now payload (quiet ++ rest) log) = payload.
Proof.
  induction quiet as [|r quiet IH]; intros tf now payload log H Hend.
  - destruct Hend as [-> | Hend]; [reflexivity|]. cbn in Hend.
    destruct rest as [|r rest]; [reflexivity|].
    rewrite app_nil_l, collect_cons.
    destruct (Z.ltb_spec (now - tf) timeout); [lia|reflexivity].
  - inversion H as [|? ? Hs H']; subst.
    cbn [app]. rewrite collect_cons. destruct (now - tf <? timeout); [|reflexivity].
    unfold passed_over in Hs.
    destruct (got r) as [f|]; [|apply IH; assumption].
    rewrite Hs. apply IH; assumption.
Qed.

(** What the loops return does not depend on the log they extend. *)
Lemma collect_log_irrelevant (pending : list Read) :
  forall tf now payload log1 log2,
  fst (collect p timeout tf now payload pending log1)
  = fst (collect p timeout tf now payload pending log2).
Proof.
  induction pending as [|r rest IH]; intros tf now payload log1 log2; [reflexivity|].
  rewrite !collect_cons. destruct (now - tf <? timeout); [|reflexivity].
  destruct (got r) as [f|]; [|apply IH].
  destruct (negb (addressed p f)); [apply IH|].
  destruct (Z.land (byte_at (data f) 1) 240 =? 32); [apply IH|reflexivity].
Qed.

Lemma await_log_irrelevant (pending : list Read) :
  forall t0 now log1 log2,
  fst (await p did did_h did_l timeout t0 now pending log1)
  = fst (await p did did_h did_l timeout t0 now pending log2).
Proof.
  induction pending as [|r rest IH]; intros t0 now log1 log2; [reflexivity|].
  rewrite !await_cons. destruct (now - t0 <? timeout); [|reflexivity].
  destruct (got r) as [f|]; [|apply IH].
  destruct (negb (addressed p f)); [apply IH|].
  destruct (is_single did_h did_l (data f)); [reflexivity|].
  destruct (is_first did_h did_l (data f)); [|apply IH].
  pose proof (collect_log_irrelevant rest (stamp r) (stamp r) (drop 6 (data f))
                ((log1 ++ [Recv r]) ++ [Sent (TX_ID p) flow_control])
                ((log2 ++ [Recv r]) ++ [Sent (TX_ID p) flow_control])) as Hc.
  destruct (collect _ _ _ _ _ _ ((log1 ++ _) ++ _)) as [pl1 b1].
  destruct (collect _ _ _ _ _ _ ((log2 ++ _) ++ _)) as [pl2 b2].
  cbn [fst] in *. congruence.
Qed.

End TriggerEngine.

(** ** [_uds_read_by_identifier] of the table page *)

Section TableEngine.

Import TableUds.

Lemma pad8_length (raw : list Z) : (8 <= length (pad8 raw))%nat.
Proof.
  unfold pad8. destruct (Nat.ltb_spec (length raw) 8); [|assumption].
  rewrite length_app, length_replicate. lia.
Qed.

Lemma pad8_length_8 (raw : list Z) :
  (length raw <= 8)%nat -> length (pad8 raw) = 8%nat.
Proof.
  intros H. unfold pad8. destruct (Nat.ltb_spec (length raw) 8); [|lia].
  rewrite length_app, length_replicate. lia.
Qed.

Lemma pad8_byte_at (raw : list Z) (i : nat) :
  (i < length raw)%nat -> byte_at (pad8 raw) i = byte_at raw i.
Proof.
  intros H. unfold pad8, byte_at.
  destruct (length raw <? 8)%nat; [|reflexivity].
  apply app_nth1, H.
Qed.

Lemma pad8_slice (raw : list Z) (i j : nat) :
  (j <= length raw)%nat -> slice (pad8 raw) i j = slice raw i j.
Proof.
  intros H. unfold pad8, slice.
  destruct (length raw <? 8)%nat; [|reflexivity].
  destruct (Nat.le_gt_cases i (length raw)) as [Hi | Hi].
  - rewrite drop_app_le by lia. rewrite take_app_le; [reflexivity|].
    rewrite length_drop. lia.
  - replace (j - i)%nat with 0%nat by lia. reflexivity.
Qed.

(** One round of [_recv_until]. *)
Lemma recv_loop_cons (rx_id end_ now : Z) (r : Read) (rest : list Read)
    (log : list io) :
  recv_loop rx_id end_ now (r :: rest) log =
    if now <? end_ then
      if passed_over rx_id r
      then recv_loop rx_id end_ (stamp r) rest (log ++ [Recv r])
      else
        match got r with
        | Some msg => (Some (pad8 (data msg)), mkBus (stamp r) rest (log ++ [Recv r]))
        | None => (None, mkBus (stamp r) rest (log ++ [Recv r]))
        end
    else (None, mkBus now (r :: rest) log).
Proof.
  cbn [recv_loop]. unfold passed_over.
  destruct (now <? end_); [|reflexivity].
  destruct (got r) as [msg|]; [|reflexivity].
  destruct (arbitration_id msg =? rx_id); reflexivity.
Qed.

(** [_recv_until] passes over other traffic while time remains. *)
Lemma recv_loop_skip (rx_id end_ : Z) (pre rest : list Read) :
  forall now log,
  now < end_ ->
  Forall (fun r => passed_over rx_id r = true /\ stamp r < end_) pre ->
  recv_loop rx_id end_ now (pre ++ rest) log
  = recv_loop rx_id end_ (clock_after now pre) rest (log ++ map Recv pre).
Proof.
  induction pre as [|r pre IH]; intros now log Hnow Hpre.
  - cbn. rewrite app_nil_r. reflexivity.
  - inversion Hpre as [|? ? [Hs Ht] Hpre']; subst.
    cbn [app]. rewrite recv_loop_cons.
    apply Z.ltb_lt in Hnow. rewrite Hnow, Hs.
    rewrite (IH (stamp r) (log ++ [Recv r]) Ht Hpre').
    cbn [map clock_after foldl]. rewrite <- app_assoc. reflexivity.
Qed.

(** [_recv_until] gives [None] when nothing but other traffic comes until
    the deadline has passed, or until the bus falls silent. *)
Lemma recv_loop_none (rx_id end_ : Z) (pre post : list Read) :
  forall now log,
  Forall (fun r => passed_over rx_id r = true) pre ->
  post = [] \/ end_ <= clock_after now pre ->
  fst (recv_loop rx_id end_ now (pre ++ post) log) = None.
Proof.
  induction pre as [|r pre IH]; intros now log H Hend.
  - destruct Hend as [-> | Hend]; [reflexivity|]. cbn in Hend.
    destruct post as [|r post]; [reflexivity|].
    rewrite app_nil_l, recv_loop_cons.
    destruct (Z.ltb_spec now end_); [lia|reflexivity].
  - inversion H as [|? ? Hs H']; subst.
    cbn [app]. rewrite recv_loop_cons, Hs. destruct (now <? end_); [|reflexivity].
    apply IH; assumption.
Qed.

(** [_recv_until] only reads: it uses up a prefix of the pending reads and
    logs them; a frame it returns is one of them, padded to 8 bytes, and
    at least one read was used up for it. *)
Lemma recv_loop_shape (rx_id end_ : Z) (pending : list Read) :
  forall now log,
  exists consumed,
    pending = consumed ++ Transport.pending (snd (recv_loop rx_id end_ now pending log)) /\
    Transport.log (snd (recv_loop rx_id end_ now pending log)) = log ++ map Recv consumed /\
    forall raw, fst (recv_loop rx_id end_ now pending log) = Some raw ->
      exists r f, In r consumed /\ got r = Some f /\ raw = pad8 (data f).
Proof.
  induction pending as [|r rest IH]; intros now log.
  - exists []. cbn. rewrite app_nil_r. repeat split; auto. discriminate.
  - rewrite recv_loop_cons. destruct (now <? end_).
    2:{ exists []. cbn. rewrite app_nil_r. repeat split; auto. discriminate. }
    destruct (passed_over rx_id r).
    + destruct (IH (stamp r) (log ++ [Recv r])) as (consumed & Hp & Hl & Hr).
      exists (r :: consumed). cbn [app map]. rewrite Hl, <- app_assoc.
      split; [f_equal; exact Hp|]. split; [reflexivity|].
      intros raw Hraw. destruct (Hr raw Hraw) as (r' & f & Hin & Hg & He).
      exists r', f. split; [right; exact Hin|]. auto.
    + exists [r]. destruct (got r) as [msg|] eqn:Hg; cbn.
      * repeat split; auto. intros raw [= <-]. exists r, msg. auto.
      * repeat split; auto. discriminate.
Qed.

Lemma recv_until_shape (b : Bus) (rx_id timeout_s : Z) :
  exists consumed,
    pending b = consumed ++ pending (snd (_recv_until b rx_id timeout_s)) /\
    log (snd (_recv_until b rx_id timeout_s)) = log b ++ map Recv consumed /\
    forall raw, fst (_recv_until b rx_id timeout_s) = Some raw ->
      exists r f, In r consumed /\ got r = Some f /\ raw = pad8 (data f).
Proof. apply recv_loop_shape. Qed.

(** The arrival of the first frame on [rx_id]. *)
Lemma recv_until_hit (b : Bus) (rx_id timeout_s : Z) (pre post : list Read)
    (r : Read) (f : Frame) :
  0 < timeout_s ->
  pending b = pre ++ r :: post ->
  Forall (fun r => passed_over rx_id r = true /\ stamp r < now b + timeout_s) pre ->
  got r = Some f -> arbitration_id f = rx_id ->
  _recv_until b rx_id timeout_s
  = (Some (pad8 (data f)), mkBus (stamp r) post (log b ++ map Recv pre ++ [Recv r])).
Proof.
  intros Ht Hp Hpre Hg Hid. unfold _recv_until. rewrite Hp.
  rewrite recv_loop_skip by (auto; lia).
  rewrite recv_loop_cons.
  assert (Hin : clock_after (now b) pre < now b + timeout_s).
  { apply clock_after_lt; [lia|].
    eapply Forall_impl; [exact Hpre|]. intros x [_ Hx]. exact Hx. }
  apply Z.ltb_lt in Hin. rewrite Hin.
  unfold passed_over. rewrite Hg, Hid, Z.eqb_refl. cbn [negb].
  rewrite <- app_assoc. reflexivity.
Qed.

(** One round of the [while True] loop. *)
Lemma cf_loop_eq (fuel : nat) (rx_id : Z) (payload : list Z) (b : Bus) :
  cf_loop fuel rx_id payload b =
    let '(cf, b) := _recv_until b rx_id 1000 in
    match cf with
    | None | Some [] => (payload, b)
    | Some cf =>
        if negb (byte_at cf 0 =? EA_RSP)
           || negb (Z.land (byte_at cf 1) 0xF0 =? 0x20)
        then (payload, b)
        else
          if (128 <? length (payload ++ drop 2 cf))%nat
          then (payload ++ drop 2 cf, b)
          else
            match fuel with
            | O => (payload ++ drop 2 cf, b)
            | S fuel' => cf_loop fuel' rx_id (payload ++ drop 2 cf) b
            end
    end.
Proof. destruct fuel; reflexivity. Qed.

(** The loop only reads, and only extends the payload. *)
Lemma cf_loop_shape (rx_id : Z) (fuel : nat) :
  forall payload b,
  exists consumed more,
    pending b = consumed ++ pending (snd (cf_loop fuel rx_id payload b)) /\
    log (snd (cf_loop fuel rx_id payload b)) = log b ++ map Recv consumed /\
    fst (cf_loop fuel rx_id payload b) = payload ++ more.
Proof.
  induction fuel as [|fuel IH]; intros payload b; rewrite cf_loop_eq;
    destruct (recv_until_shape b rx_id 1000) as (consumed & Hp & Hl & _);
    destruct (_recv_until b rx_id 1000) as [cf b'] eqn:E; cbn [fst snd] in *.
  all: assert (Hstop : forall more, exists consumed0 more0,
         pending b = consumed0 ++ pending (snd (payload ++ more, b')) /\
         log (snd (payload ++ more, b')) = log b ++ map Recv consumed0 /\
         fst (payload ++ more, b') = payload ++ more0)
       by (intros more; exists consumed, more; auto).
  all: assert (Hstop0 : exists consumed0 more0,
         pending b = consumed0 ++ pending (snd (payload, b')) /\
         log (snd (payload, b')) = log b ++ map Recv consumed0 /\
         fst (payload, b') = payload ++ more0)
       by (exists consumed, []; rewrite app_nil_r; auto).
  all: destruct cf as [[|c0 cf]|]; try exact Hstop0.
  all: destruct (negb (byte_at (c0 :: cf) 0 =? EA_RSP)
                 || negb (Z.land (byte_at (c0 :: cf) 1) 240 =? 32)); try exact Hstop0.
  all: destruct (128 <? length (payload ++ drop 2 (c0 :: cf)))%nat; try apply Hstop.
  destruct (IH (payload ++ drop 2 (c0 :: cf)) b') as (consumed' & more' & Hp' & Hl' & Hf').
  exists (consumed ++ consumed'), (drop 2 (c0 :: cf) ++ more').
  rewrite Hl', Hf', Hl, map_app, <- !app_assoc.
  split; [rewrite Hp at 1; rewrite Hp' at 1; reflexivity|]. auto.
Qed.

(** As many rounds as there are pending reads are enough: more fuel does not
    change the result, so the loop of the model never stops for lack of it. *)
Lemma cf_loop_fuel (rx_id : Z) (fuel1 : nat) :
  forall fuel2 payload b,
  (length (pending b) <= fuel1)%nat -> (length (pending b) <= fuel2)%nat ->
  cf_loop fuel1 rx_id payload b = cf_loop fuel2 rx_id payload b.
Proof.
  induction fuel1 as [|fuel1 IH]; intros fuel2 payload b H1 H2;
    rewrite (cf_loop_eq _ rx_id payload b), (cf_loop_eq fuel2 rx_id payload b);
    destruct (recv_until_shape b rx_id 1000) as (consumed & Hp & _ & Hr);
    destruct (_recv_until b rx_id 1000) as [cf b'] eqn:E; cbn [fst snd] in *.
  - destruct cf as [[|c0 cf]|]; try reflexivity.
    destruct (Hr _ eq_refl) as (r & f & Hin & _).
    rewrite Hp, length_app in H1. destruct consumed; [destruct Hin|cbn in H1; lia].
  - destruct cf as [[|c0 cf]|]; try reflexivity.
    destruct (Hr _ eq_refl) as (r & f & Hin & _).
    assert (Hlt : (length (pending b') < length (pending b))%nat).
    { rewrite Hp, length_app. destruct consumed; [destruct Hin|cbn; lia]. }
    destruct (negb (byte_at (c0 :: cf) 0 =? EA_RSP)
              || negb (Z.land (byte_at (c0 :: cf) 1) 240 =? 32)); [reflexivity|].
    destruct (128 <? length (payload ++ drop 2 (c0 :: cf)))%nat; [reflexivity|].
    destruct fuel2 as [|fuel2]; [lia|].
    apply IH; lia.
Qed.

(** Frames of the classic bus: at most 8 data bytes. *)
Lemma cf_loop_bound (rx_id : Z) (fuel : nat) :
  forall payload b,
  Forall (fun r => forall f, got r = Some f -> (length (data f) <= 8)%nat) (pending b) ->
  (length payload <= 128)%nat ->
  (length (fst (cf_loop fuel rx_id payload b)) <= 134)%nat.
Proof.
  induction fuel as [|fuel IH]; intros payload b Hw Hlen;
    rewrite cf_loop_eq;
    destruct (recv_until_shape b rx_id 1000) as (consumed & Hp & _ & Hr);
    destruct (_recv_until b rx_id 1000) as [cf b'] eqn:E; cbn [fst snd] in *.
  all: destruct cf as [[|c0 cf]|]; cbn [fst]; try lia.
  all: destruct (Hr _ eq_refl) as (r & f & Hin & Hg & Hraw).
  all: assert (H8 : length (c0 :: cf) = 8%nat)
      by (rewrite Hraw; apply pad8_length_8;
          rewrite Hp in Hw; apply Forall_app in Hw; destruct Hw as [Hw _];
          rewrite Forall_forall in Hw; apply (Hw r); [apply list_elem_of_In, Hin | exact Hg]).
  all: assert (Hnew : (length (payload ++ drop 2 (c0 :: cf)) <= 134)%nat)
      by (rewrite length_app, length_drop, H8; lia).
  all: destruct (negb (byte_at (c0 :: cf) 0 =? EA_RSP)
                 || negb (Z.land (byte_at (c0 :: cf) 1) 240 =? 32)); cbn [fst]; try lia.
  all: destruct (Nat.ltb_spec 128 (length (payload ++ drop 2 (c0 :: cf)))); cbn [fst]; try lia.
  apply IH; [|lia].
  rewrite Hp in Hw. apply Forall_app in Hw. tauto.
Qed.

End TableEngine.

(** ** The exchanges as a whole *)

Section Exchanges.

Import TriggerUds.

Variable p : Profile.
Variable did : Z.

Local Abbreviation request := [EA_REQ p; 0x03; 0x22; did_hi did; did_lo did; 0; 0; 0].
Local Abbreviation flow_control := [EA_REQ p; 0x30; 0x00; 0x00; 0; 0; 0; 0].

(** [uds_read_by_id] up to the first read that is not skipped. *)
Lemma trigger_reaches (timeout : Z) (b : Bus) (pre post : list Read) (r : Read) :
  0 < timeout ->
  pending b = pre ++ r :: post ->
  Forall (fun r => skipped p (did_hi did) (did_lo did) r = true
                   /\ stamp r - now b < timeout) pre ->
  uds_read_by_id b did p timeout
  = await p did (did_hi did) (did_lo did) timeout (now b) (clock_after (now b) pre)
      (r :: post) (log b ++ [Sent (TX_ID p) request] ++ map Recv pre)
  /\ clock_after (now b) pre - now b < timeout.
Proof.
  intros Ht Hp Hpre. unfold uds_read_by_id. cbn [send now pending log].
  rewrite Hp. fold (did_hi did) (did_lo did). split.
  - rewrite await_skip by (auto; lia). rewrite <- app_assoc. reflexivity.
  - enough (clock_after (now b) pre < now b + timeout) by lia.
    apply clock_after_lt; [lia|].
    eapply Forall_impl; [exact Hpre|]. intros x [_ Hx]. cbv beta. lia.
Qed.

(** The single frame, in [uds_read_by_id]. *)
Lemma trigger_single_frame (timeout : Z) (b : Bus) (pre post : list Read)
    (r : Read) (f : Frame) :
  0 < timeout ->
  pending b = pre ++ r :: post ->
  Forall (fun r => skipped p (did_hi did) (did_lo did) r = true
                   /\ stamp r - now b < timeout) pre ->
  got r = Some f -> addressed p f = true ->
  is_single (did_hi did) (did_lo did) (data f) = true ->
  uds_read_by_id b did p timeout
  = (inr (slice (data f) 5 (5 + Z.to_nat (Z.land (byte_at (data f) 1) 0x0F))),
     mkBus (stamp r) post
       (log b ++ [Sent (TX_ID p) request] ++ map Recv pre ++ [Recv r])).
Proof.
  intros Ht Hp Hpre Hg Ha Hs.
  destruct (trigger_reaches timeout b pre post r Ht Hp Hpre) as [-> Hc].
  rewrite await_cons. apply Z.ltb_lt in Hc. rewrite Hc, Hg, Ha, Hs. cbn [negb].
  rewrite <- !app_assoc. reflexivity.
Qed.

(** The first frame, in [uds_read_by_id]. *)
Lemma trigger_first_frame (timeout : Z) (b : Bus) (pre post : list Read)
    (r : Read) (f : Frame) :
  0 < timeout ->
  pending b = pre ++ r :: post ->
  Forall (fun r => skipped p (did_hi did) (did_lo did) r = true
                   /\ stamp r - now b < timeout) pre ->
  got r = Some f -> addressed p f = true ->
  is_first (did_hi did) (did_lo did) (data f) = true ->
  uds_read_by_id b did p timeout
  = (inr (fst (collect p timeout (stamp r) (stamp r) (drop 6 (data f)) post
                 (log b ++ [Sent (TX_ID p) request] ++ map Recv pre ++ [Recv r]
                    ++ [Sent (TX_ID p) flow_control]))),
     snd (collect p timeout (stamp r) (stamp r) (drop 6 (data f)) post
            (log b ++ [Sent (TX_ID p) request] ++ map Recv pre ++ [Recv r]
               ++ [Sent (TX_ID p) flow_control]))).
Proof.
  intros Ht Hp Hpre Hg Ha Hf.
  destruct (trigger_reaches timeout b pre post r Ht Hp Hpre) as [-> Hc].
  rewrite await_cons. apply Z.ltb_lt in Hc. rewrite Hc, Hg, Ha, Hf. cbn [negb].
  assert (Hs : is_single (did_hi did) (did_lo did) (data f) = false).
  { unfold is_single, is_first in *.
    destruct (Z.eqb_spec (Z.land (byte_at (data f) 1) 240) 16) as [->|]; [reflexivity|].
    discriminate Hf. }
  rewrite Hs. rewrite <- !app_assoc. cbn [app].
  destruct (collect _ _ _ _ _ _ _) as [payload b']. reflexivity.
Qed.

(** The table page's exchange, once the first frame on [rx_id] is in. *)
Lemma table_reaches (b : Bus) (pre post : list Read) (r : Read) (f : Frame) :
  pending b = pre ++ r :: post ->
  Forall (fun r => TableUds.passed_over (RX_ID p) r = true
                   /\ stamp r < now b + 1000) pre ->
  got r = Some f -> arbitration_id f = RX_ID p ->
  TableUds._recv_until (send b (TX_ID p) request) (RX_ID p) 1000
  = (Some (TableUds.pad8 (data f)),
     mkBus (stamp r) post (log b ++ [Sent (TX_ID p) request] ++ map Recv pre ++ [Recv r])).
Proof.
  intros Hp Hpre Hg Hid.
  rewrite (recv_until_hit (send b (TX_ID p) request) (RX_ID p) 1000 pre post r f);
    auto; [|lia].
  cbn [send log]. rewrite <- !app_assoc. reflexivity.
Qed.

(** [_uds_read_by_identifier] once [_recv_until] has returned a frame. *)
Lemma table_dispatch (b b1 : Bus) (raw : list Z) :
  TableUds._recv_until (send b (TX_ID p) request) (RX_ID p) 1000 = (Some raw, b1) ->
  raw <> [] ->
  TableUds._uds_read_by_identifier b (TX_ID p) (RX_ID p) (EA_REQ p) did =
    if negb (byte_at raw 0 =? TableUds.EA_RSP) then (inl TableUds.NoValidResponse, b1)
    else if Z.land (byte_at raw 1) 0xF0 =? 0x00 then
      if negb (byte_at raw 2 =? 0x62) || negb (byte_at raw 3 =? did_hi did)
         || negb (byte_at raw 4 =? did_lo did)
      then (inl TableUds.NegativeSF, b1)
      else (inr (slice raw 5 (5 + Z.to_nat (Z.land (byte_at raw 1) 0x0F))), b1)
    else if Z.land (byte_at raw 1) 0xF0 =? 0x10 then
      if negb (byte_at raw 3 =? 0x62) || negb (byte_at raw 4 =? did_hi did)
         || negb (byte_at raw 5 =? did_lo did)
      then (inl TableUds.NegativeFF, send b1 (TX_ID p) flow_control)
      else
        (inr (fst (TableUds.cf_loop (length (pending b1)) (RX_ID p) (drop 6 raw)
                     (send b1 (TX_ID p) flow_control))),
         snd (TableUds.cf_loop (length (pending b1)) (RX_ID p) (drop 6 raw)
                (send b1 (TX_ID p) flow_control)))
    else (inl TableUds.UnexpectedPCI, b1).
Proof.
  intros Hr Hne. unfold TableUds._uds_read_by_identifier.
  fold (did_hi did) (did_lo did). rewrite Hr.
  destruct raw as [|c0 raw]; [contradiction|].
  destruct (negb (byte_at (c0 :: raw) 0 =? TableUds.EA_RSP)); [reflexivity|].
  destruct (Z.land (byte_at (c0 :: raw) 1) 240 =? 0); [reflexivity|].
  destruct (Z.land (byte_at (c0 :: raw) 1) 240 =? 16); [|reflexivity].
  destruct (negb (byte_at (c0 :: raw) 3 =? 98) || negb (byte_at (c0 :: raw) 4 =? did_hi did)
            || negb (byte_at (c0 :: raw) 5 =? did_lo did)); [reflexivity|].
  cbn [send pending].
  destruct (TableUds.cf_loop _ _ _ _) as [payload b2]. reflexivity.
Qed.

Lemma pad8_nonempty (raw : list Z) : TableUds.pad8 raw <> [].
Proof.
  intros H. pose proof (pad8_length raw) as Hl. rewrite H in Hl. cbn in Hl. lia.
Qed.

End Exchanges.

(** ** Claims about the two read-data-by-identifier engines *)

Section UdsClaims.

Import TriggerUds.

(** C1, against the code: the payload is not always the next [L] bytes.
    The frame [F1 07 62 D6 31 AA BB CC] announces [L = 7] and either engine
    returns the 3 bytes it holds after byte 4; the 5-byte frame
    [F1 03 62 D6 31] announces [L = 3] and [uds_read_by_id] returns no byte
    while [_uds_read_by_identifier], which fills the frame up to 8 bytes,
    returns three zeros; and when a frame on [RX_ID] that does not start
    with the response address comes first, [uds_read_by_id] passes over it
    and returns the payload of the single frame behind it, while
    [_uds_read_by_identifier] has failed on the first. *)
Lemma uds_single_frame_not_exactly_L :
  Z.to_nat (Z.land (byte_at [0xF1; 0x07; 0x62; 0xD6; 0x31; 0xAA; 0xBB; 0xCC] 1) 0x0F)
  = 7%nat /\
  fst (uds_read_by_id
         (mkBus 0 [mkRead 5 (Some (mkFrame 0x0643 [0xF1; 0x07; 0x62; 0xD6; 0x31; 0xAA; 0xBB; 0xCC]))] [])
         0xD631 links 1000)
  = inr [0xAA; 0xBB; 0xCC] /\
  fst (TableUds._uds_read_by_identifier
         (mkBus 0 [mkRead 5 (Some (mkFrame 0x0643 [0xF1; 0x07; 0x62; 0xD6; 0x31; 0xAA; 0xBB; 0xCC]))] [])
         0x06F1 0x0643 0x43 0xD631)
  = inr [0xAA; 0xBB; 0xCC] /\
  fst (uds_read_by_id
         (mkBus 0 [mkRead 5 (Some (mkFrame 0x0643 [0xF1; 0x03; 0x62; 0xD6; 0x31]))] [])
         0xD631 links 1000)
  = inr [] /\
  fst (TableUds._uds_read_by_identifier
         (mkBus 0 [mkRead 5 (Some (mkFrame 0x0643 [0xF1; 0x03; 0x62; 0xD6; 0x31]))] [])
         0x06F1 0x0643 0x43 0xD631)
  = inr [0; 0; 0] /\
  fst (uds_read_by_id
         (mkBus 0 [mkRead 4 (Some (mkFrame 0x0643 [0xF0; 0x03; 0x62; 0xD6; 0x31; 1; 2; 3]));
                   mkRead 5 (Some (mkFrame 0x0643 [0xF1; 0x03; 0x62; 0xD6; 0x31; 0xAA; 0xBB; 0xCC]))] [])
         0xD631 links 1000)
  = inr [0xAA; 0xBB; 0xCC] /\
  fst (TableUds._uds_read_by_identifier
         (mkBus 0 [mkRead 4 (Some (mkFrame 0x0643 [0xF0; 0x03; 0x62; 0xD6; 0x31; 1; 2; 3]));
                   mkRead 5 (Some (mkFrame 0x0643 [0xF1; 0x03; 0x62; 0xD6; 0x31; 0xAA; 0xBB; 0xCC]))] [])
         0x06F1 0x0643 0x43 0xD631)
  = inl TableUds.NoValidResponse.
Proof. repeat split; reflexivity. Qed.

(** C1, amended.  A response frame on [RX_ID] of at least 5 bytes, with
    first byte the response address, high nibble 0 in the second byte and
    bytes 2..4 equal to [0x62, did_high, did_low], reached while the wait
    lasts, makes the engine return the bytes [5 .. 5+L) of the frame as far
    as the frame has them, [L] the low nibble of the second byte.
    [uds_read_by_id] reaches the frame past everything it passes over and
    returns [min L (len - 5)] bytes of it.  [_uds_read_by_identifier]
    reaches it only as the first frame received on [RX_ID], and reads it
    filled up with zeros to 8 bytes, so that it returns
    [min L (max len 8 - 5)] bytes.  When the frame holds [5 + L] bytes both
    return exactly the [L] bytes that follow byte 4. *)
Theorem uds_single_frame_payload (p : Profile) (did timeout : Z) (b : Bus)
    (pre post : list Read) (st : Z) (data : list Z) :
  pending b = pre ++ mkRead st (Some (mkFrame (RX_ID p) data)) :: post ->
  (5 <= length data)%nat ->
  Z.land (byte_at data 1) 0xF0 = 0x00 ->
  byte_at data 2 = 0x62 -> byte_at data 3 = did_hi did -> byte_at data 4 = did_lo did ->
  (0 < timeout -> byte_at data 0 = EA_RSP p ->
   Forall (fun r => skipped p (did_hi did) (did_lo did) r = true
                    /\ stamp r - now b < timeout) pre ->
   fst (uds_read_by_id b did p timeout)
   = inr (slice data 5 (5 + Z.to_nat (Z.land (byte_at data 1) 0x0F)))) /\
  (byte_at data 0 = TableUds.EA_RSP ->
   Forall (fun r => TableUds.passed_over (RX_ID p) r = true
                    /\ stamp r < now b + 1000) pre ->
   fst (TableUds._uds_read_by_identifier b (TX_ID p) (RX_ID p) (EA_REQ p) did)
   = inr (slice (TableUds.pad8 data) 5 (5 + Z.to_nat (Z.land (byte_at data 1) 0x0F)))) /\
  ((5 + Z.to_nat (Z.land (byte_at data 1) 0x0F) <= length data)%nat ->
   slice (TableUds.pad8 data) 5 (5 + Z.to_nat (Z.land (byte_at data 1) 0x0F))
   = slice data 5 (5 + Z.to_nat (Z.land (byte_at data 1) 0x0F)) /\
   length (slice data 5 (5 + Z.to_nat (Z.land (byte_at data 1) 0x0F)))
   = Z.to_nat (Z.land (byte_at data 1) 0x0F)) /\
  (length (slice data 5 (5 + Z.to_nat (Z.land (byte_at data 1) 0x0F)))
   = Nat.min (Z.to_nat (Z.land (byte_at data 1) 0x0F)) (length data - 5) /\
   length (slice (TableUds.pad8 data) 5 (5 + Z.to_nat (Z.land (byte_at data 1) 0x0F)))
   = Nat.min (Z.to_nat (Z.land (byte_at data 1) 0x0F)) (Nat.max (length data) 8 - 5)).
Proof.
  intros Hp Hlen Hpci H2 H3 H4. split; [|split; [|split]].
  - intros Ht H0 Hpre.
    rewrite (trigger_single_frame p did timeout b pre post
               (mkRead st (Some (mkFrame (RX_ID p) data))) (mkFrame (RX_ID p) data));
      auto.
    + unfold addressed. cbn [arbitration_id Transport.data].
      rewrite Z.eqb_refl, H0, Z.eqb_refl.
      destruct (Nat.leb_spec 2 (length data)); [reflexivity|lia].
    + unfold is_single. cbn [Transport.data].
      rewrite Hpci, H2, H3, H4, !Z.eqb_refl.
      destruct (Nat.leb_spec 5 (length data)); [reflexivity|lia].
  - intros H0 Hpre.
    rewrite (table_dispatch p did b _ _
               (table_reaches p did b pre post
                  (mkRead st (Some (mkFrame (RX_ID p) data))) (mkFrame (RX_ID p) data)
                  Hp Hpre eq_refl eq_refl) (pad8_nonempty _)).
    cbn [Transport.data].
    rewrite !pad8_byte_at by lia.
    rewrite H0, Hpci, H2, H3, H4, !Z.eqb_refl. reflexivity.
  - intros HL. split; [apply pad8_slice, HL|].
    unfold slice. rewrite length_take, length_drop. lia.
  - assert (Hpad : length (TableUds.pad8 data) = Nat.max (length data) 8).
    { unfold TableUds.pad8. destruct (Nat.ltb_spec (length data) 8).
      - rewrite length_app, length_replicate. lia.
      - lia. }
    unfold slice. rewrite !length_take, !length_drop, Hpad. lia.
Qed.

(** [uds_single_frame_payload] at the frame
    [F1 03 62 D6 31 AA BB CC] answering DID 0xD631 on the left profile. *)
Lemma uds_single_frame_payload_witness :
  fst (uds_read_by_id
         (mkBus 0 [mkRead 5 (Some (mkFrame 0x0643 [0xF1; 0x03; 0x62; 0xD6; 0x31; 0xAA; 0xBB; 0xCC]))] [])
         0xD631 links 1000)
  = inr [0xAA; 0xBB; 0xCC] /\
  fst (TableUds._uds_read_by_identifier
         (mkBus 0 [mkRead 5 (Some (mkFrame 0x0643 [0xF1; 0x03; 0x62; 0xD6; 0x31; 0xAA; 0xBB; 0xCC]))] [])
         0x06F1 0x0643 0x43 0xD631)
  = inr [0xAA; 0xBB; 0xCC].
Proof.
  pose proof (uds_single_frame_payload links 0xD631 1000
    (mkBus 0 [mkRead 5 (Some (mkFrame 0x0643 [0xF1; 0x03; 0x62; 0xD6; 0x31; 0xAA; 0xBB; 0xCC]))] [])
    [] [] 5 [0xF1; 0x03; 0x62; 0xD6; 0x31; 0xAA; 0xBB; 0xCC]
    eq_refl ltac:(cbn; lia) eq_refl eq_refl eq_refl eq_refl) as [H1 [H2 _]].
  split.
  - apply H1; [lia | reflexivity | constructor].
  - apply H2; [reflexivity | constructor].
Defined.

(** C2, against the code: on the left profile [uds_read_by_id] reads the
    negative response [F1 03 7F 22 31 ...] to DID 0xD631, goes on waiting,
    and returns the payload of the positive response that follows; with
    nothing following it ends in [TimeoutError].  No negative-response
    failure is reported. *)
Lemma uds_read_by_id_ignores_negative_response :
  fst (uds_read_by_id
         (mkBus 0 [mkRead 1 (Some (mkFrame 0x0643 [0xF1; 0x03; 0x7F; 0x22; 0x31; 0; 0; 0]));
                   mkRead 2 (Some (mkFrame 0x0643 [0xF1; 0x01; 0x62; 0xD6; 0x31; 0xAA; 0; 0]))] [])
         0xD631 links 1000)
  = inr [0xAA] /\
  uds_read_by_id
    (mkBus 0 [mkRead 1 (Some (mkFrame 0x0643 [0xF1; 0x03; 0x7F; 0x22; 0x31; 0; 0; 0]))] [])
    0xD631 links 1000
  = (inl (UdsTimeout 0xD631),
     mkBus 1 [] [Sent 0x06F1 [0x43; 0x03; 0x22; 0xD6; 0x31; 0; 0; 0];
                 Recv (mkRead 1 (Some (mkFrame 0x0643 [0xF1; 0x03; 0x7F; 0x22; 0x31; 0; 0; 0])))]).
Proof. split; reflexivity. Qed.

(** C2, amended.  A single frame on [RX_ID] with the response address whose
    bytes 2..4 are not [0x62, did_high, did_low]: in the table page's
    [_uds_read_by_identifier], where it is the first frame received on
    [RX_ID], the exchange fails at once with 'Negative Antwort (SF).' and
    reads nothing more; [uds_read_by_id] of the trigger finder passes over
    the frame and goes on exactly as if the read had been empty. *)
Theorem uds_negative_single_frame (p : Profile) (did timeout : Z) (b : Bus)
    (pre post : list Read) (st : Z) (data : list Z) :
  pending b = pre ++ mkRead st (Some (mkFrame (RX_ID p) data)) :: post ->
  (5 <= length data)%nat ->
  Z.land (byte_at data 1) 0xF0 = 0x00 ->
  ~ (byte_at data 2 = 0x62 /\ byte_at data 3 = did_hi did /\ byte_at data 4 = did_lo did) ->
  (byte_at data 0 = TableUds.EA_RSP ->
   Forall (fun r => TableUds.passed_over (RX_ID p) r = true
                    /\ stamp r < now b + 1000) pre ->
   TableUds._uds_read_by_identifier b (TX_ID p) (RX_ID p) (EA_REQ p) did
   = (inl TableUds.NegativeSF,
      mkBus st post
        (log b ++ [Sent (TX_ID p) [EA_REQ p; 0x03; 0x22; did_hi did; did_lo did; 0; 0; 0]]
               ++ map Recv pre ++ [Recv (mkRead st (Some (mkFrame (RX_ID p) data)))]))) /\
  (0 < timeout -> byte_at data 0 = EA_RSP p ->
   Forall (fun r => skipped p (did_hi did) (did_lo did) r = true
                    /\ stamp r - now b < timeout) pre ->
   skipped p (did_hi did) (did_lo did) (mkRead st (Some (mkFrame (RX_ID p) data))) = true /\
   fst (uds_read_by_id b did p timeout)
   = fst (uds_read_by_id (mkBus (now b) (pre ++ mkRead st None :: post) (log b))
            did p timeout)).
Proof.
  intros Hp Hlen Hpci Hbad.
  assert (Hmis : (byte_at data 2 =? 0x62) && (byte_at data 3 =? did_hi did)
                 && (byte_at data 4 =? did_lo did) = false).
  { apply not_true_is_false. intros H.
    apply andb_prop in H as [H H4]. apply andb_prop in H as [H2 H3].
    apply Hbad. rewrite <- !Z.eqb_eq. auto. }
  split.
  - intros H0 Hpre.
    rewrite (table_dispatch p did b _ _
               (table_reaches p did b pre post
                  (mkRead st (Some (mkFrame (RX_ID p) data))) (mkFrame (RX_ID p) data)
                  Hp Hpre eq_refl eq_refl) (pad8_nonempty _)).
    cbn [Transport.data]. rewrite !pad8_byte_at by lia.
    rewrite H0, Hpci, !Z.eqb_refl. cbn [negb].
    rewrite <- !negb_andb, Hmis. reflexivity.
  - intros Ht H0 Hpre.
    assert (Ha : addressed p (mkFrame (RX_ID p) data) = true).
    { unfold addressed. cbn [arbitration_id Transport.data].
      rewrite Z.eqb_refl, H0, Z.eqb_refl.
      destruct (Nat.leb_spec 2 (length data)); [reflexivity|lia]. }
    assert (Hs : is_single (did_hi did) (did_lo did) data = false).
    { unfold is_single. rewrite Hpci, Z.eqb_refl.
      destruct (5 <=? length data)%nat; cbn [andb]; [|reflexivity].
      rewrite <- !andb_assoc in Hmis |- *. exact Hmis. }
    assert (Hf : is_first (did_hi did) (did_lo did) data = false).
    { unfold is_first. rewrite Hpci. reflexivity. }
    split.
    + unfold skipped. cbn [got Transport.data]. rewrite Ha, Hs, Hf. reflexivity.
    + destruct (trigger_reaches p did timeout b pre post _ Ht Hp Hpre) as [-> Hc].
      destruct (trigger_reaches p did timeout
                  (mkBus (now b) (pre ++ mkRead st None :: post) (log b))
                  pre post (mkRead st None) Ht eq_refl Hpre) as [-> _].
      cbn [now log]. rewrite !await_cons.
      apply Z.ltb_lt in Hc. rewrite Hc. cbn [got stamp Transport.data].
      rewrite Ha, Hs, Hf. cbn [negb]. apply await_log_irrelevant.
Qed.

(** [uds_negative_single_frame] at the negative response [F1 03 7F 22 31]
    received first on the left profile. *)
Lemma uds_negative_single_frame_witness :
  TableUds._uds_read_by_identifier
    (mkBus 0 [mkRead 1 (Some (mkFrame 0x0643 [0xF1; 0x03; 0x7F; 0x22; 0x31; 0; 0; 0]));
              mkRead 2 (Some (mkFrame 0x0643 [0xF1; 0x01; 0x62; 0xD6; 0x31; 0xAA; 0; 0]))] [])
    0x06F1 0x0643 0x43 0xD631
  = (inl TableUds.NegativeSF,
     mkBus 1 [mkRead 2 (Some (mkFrame 0x0643 [0xF1; 0x01; 0x62; 0xD6; 0x31; 0xAA; 0; 0]))]
       [Sent 0x06F1 [0x43; 0x03; 0x22; 0xD6; 0x31; 0; 0; 0];
        Recv (mkRead 1 (Some (mkFrame 0x0643 [0xF1; 0x03; 0x7F; 0x22; 0x31; 0; 0; 0])))]).
Proof.
  apply (proj1 (uds_negative_single_frame links 0xD631 1000
    (mkBus 0 [mkRead 1 (Some (mkFrame 0x0643 [0xF1; 0x03; 0x7F; 0x22; 0x31; 0; 0; 0]));
              mkRead 2 (Some (mkFrame 0x0643 [0xF1; 0x01; 0x62; 0xD6; 0x31; 0xAA; 0; 0]))] [])
    [] [mkRead 2 (Some (mkFrame 0x0643 [0xF1; 0x01; 0x62; 0xD6; 0x31; 0xAA; 0; 0]))]
    1 [0xF1; 0x03; 0x7F; 0x22; 0x31; 0; 0; 0]
    eq_refl ltac:(cbn; lia) eq_refl ltac:(intros [H _]; discriminate H))).
  - reflexivity.
  - constructor.
Defined.

(** C3.  When the first frame of a multi-frame response to the identifier is
    received (everything read before it passed over), either engine returns
    a payload; what it did on the bus is: the request, the reads up to and
    including the first frame, then the flow control
    [EA_REQ, 0x30, 0, 0, 0, 0, 0, 0] to [TX_ID], then only reads.  So the
    flow control is sent exactly once, and before any read that follows the
    first frame. *)
Theorem uds_flow_control_once (p : Profile) (did timeout : Z) (b : Bus)
    (pre post : list Read) (st : Z) (data : list Z) :
  pending b = pre ++ mkRead st (Some (mkFrame (RX_ID p) data)) :: post ->
  (6 <= length data)%nat ->
  Z.land (byte_at data 1) 0xF0 = 0x10 ->
  byte_at data 3 = 0x62 -> byte_at data 4 = did_hi did -> byte_at data 5 = did_lo did ->
  (0 < timeout -> byte_at data 0 = EA_RSP p ->
   Forall (fun r => skipped p (did_hi did) (did_lo did) r = true
                    /\ stamp r - now b < timeout) pre ->
   exists consumed rest payload b',
     uds_read_by_id b did p timeout = (inr payload, b') /\
     post = consumed ++ rest /\ pending b' = rest /\
     log b' = multi_frame_log (log b) (TX_ID p)
                [EA_REQ p; 0x03; 0x22; did_hi did; did_lo did; 0; 0; 0]
                [EA_REQ p; 0x30; 0x00; 0x00; 0; 0; 0; 0]
                pre (mkRead st (Some (mkFrame (RX_ID p) data))) consumed /\
     sends (log b') = sends (log b)
       ++ [(TX_ID p, [EA_REQ p; 0x03; 0x22; did_hi did; did_lo did; 0; 0; 0]);
           (TX_ID p, [EA_REQ p; 0x30; 0x00; 0x00; 0; 0; 0; 0])]) /\
  (byte_at data 0 = TableUds.EA_RSP ->
   Forall (fun r => TableUds.passed_over (RX_ID p) r = true
                    /\ stamp r < now b + 1000) pre ->
   exists consumed rest payload b',
     TableUds._uds_read_by_identifier b (TX_ID p) (RX_ID p) (EA_REQ p) did
       = (inr payload, b') /\
     post = consumed ++ rest /\ pending b' = rest /\
     log b' = multi_frame_log (log b) (TX_ID p)
                [EA_REQ p; 0x03; 0x22; did_hi did; did_lo did; 0; 0; 0]
                [EA_REQ p; 0x30; 0x00; 0x00; 0; 0; 0; 0]
                pre (mkRead st (Some (mkFrame (RX_ID p) data))) consumed /\
     sends (log b') = sends (log b)
       ++ [(TX_ID p, [EA_REQ p; 0x03; 0x22; did_hi did; did_lo did; 0; 0; 0]);
           (TX_ID p, [EA_REQ p; 0x30; 0x00; 0x00; 0; 0; 0; 0])]).
Proof.
  intros Hp Hlen Hpci H3 H4 H5. split.
  - intros Ht H0 Hpre.
    rewrite (trigger_first_frame p did timeout b pre post
               (mkRead st (Some (mkFrame (RX_ID p) data))) (mkFrame (RX_ID p) data));
      auto.
    + cbn [stamp Transport.data].
      match goal with |- context [collect ?p ?t ?tf ?n ?pl ?pd ?lg] =>
        destruct (collect_shape p t pd tf n pl lg) as (consumed & more & Hc & Hl & _);
        set (res := collect p t tf n pl pd lg) in *
      end.
      exists consumed, (pending (snd res)), (fst res), (snd res).
      assert (Hlog : log (snd res) = multi_frame_log (log b) (TX_ID p)
                [EA_REQ p; 0x03; 0x22; did_hi did; did_lo did; 0; 0; 0]
                [EA_REQ p; 0x30; 0x00; 0x00; 0; 0; 0; 0]
                pre (mkRead st (Some (mkFrame (RX_ID p) data))) consumed).
      { rewrite Hl. unfold multi_frame_log. rewrite <- !app_assoc. reflexivity. }
      repeat split; auto.
      rewrite Hlog. apply sends_multi_frame_log.
    + unfold addressed. cbn [arbitration_id Transport.data].
      rewrite Z.eqb_refl, H0, Z.eqb_refl.
      destruct (Nat.leb_spec 2 (length data)); [reflexivity|lia].
    + unfold is_first. cbn [Transport.data].
      rewrite Hpci, H3, H4, H5, !Z.eqb_refl.
      destruct (Nat.leb_spec 6 (length data)); [reflexivity|lia].
  - intros H0 Hpre.
    rewrite (table_dispatch p did b _ _
               (table_reaches p did b pre post
                  (mkRead st (Some (mkFrame (RX_ID p) data))) (mkFrame (RX_ID p) data)
                  Hp Hpre eq_refl eq_refl) (pad8_nonempty _)).
    cbn [Transport.data]. rewrite !pad8_byte_at by lia.
    rewrite H0, Hpci, H3, H4, H5, !Z.eqb_refl. cbn [negb orb Z.eqb].
    cbn [pending].
    match goal with |- context [TableUds.cf_loop ?fu ?rx ?pl ?bb] =>
      destruct (cf_loop_shape rx fu pl bb) as (consumed & more & Hc & Hl & _);
      set (res := TableUds.cf_loop fu rx pl bb) in *
    end.
    cbn [send pending log] in Hc, Hl.
    exists consumed, (pending (snd res)), (fst res), (snd res).
    assert (Hlog : log (snd res) = multi_frame_log (log b) (TX_ID p)
              [EA_REQ p; 0x03; 0x22; did_hi did; did_lo did; 0; 0; 0]
              [EA_REQ p; 0x30; 0x00; 0x00; 0; 0; 0; 0]
              pre (mkRead st (Some (mkFrame (RX_ID p) data))) consumed).
    { rewrite Hl. unfold multi_frame_log. rewrite <- !app_assoc. reflexivity. }
    repeat split; auto.
    rewrite Hlog. apply sends_multi_frame_log.
Qed.

(** [uds_flow_control_once] at a first frame followed by one consecutive
    frame, on the left profile. *)
Lemma uds_flow_control_once_witness :
  sends (log (snd (uds_read_by_id (mkBus 0 (flood 1) []) 0xD631 links 1000)))
  = [(0x06F1, [0x43; 0x03; 0x22; 0xD6; 0x31; 0; 0; 0]);
     (0x06F1, [0x43; 0x30; 0x00; 0x00; 0; 0; 0; 0])] /\
  sends (log (snd (TableUds._uds_read_by_identifier (mkBus 0 (flood 1) [])
                     0x06F1 0x0643 0x43 0xD631)))
  = [(0x06F1, [0x43; 0x03; 0x22; 0xD6; 0x31; 0; 0; 0]);
     (0x06F1, [0x43; 0x30; 0x00; 0x00; 0; 0; 0; 0])].
Proof.
  destruct (uds_flow_control_once links 0xD631 1000 (mkBus 0 (flood 1) [])
              [] [consecutive_frame] 0 [0xF1; 0x10; 0xB9; 0x62; 0xD6; 0x31; 0x01; 0x02]
              eq_refl ltac:(cbn; lia) eq_refl eq_refl eq_refl eq_refl) as [H1 H2].
  split.
  - destruct (H1 ltac:(lia) eq_refl ltac:(constructor))
      as (consumed & rest & payload & b' & E & _ & _ & _ & S).
    rewrite E. exact S.
  - destruct (H2 eq_refl ltac:(constructor))
      as (consumed & rest & payload & b' & E & _ & _ & _ & S).
    pose proof (f_equal (fun x => sends (log (snd x))) E) as E'.
    cbn [snd] in E'. rewrite S in E'. exact E'.
Defined.


(** X26.  The table page's loop stops once the payload is longer than 128 bytes:
    with frames of at most 8 data bytes, what [_uds_read_by_identifier]
    returns has at most 128 + 6 bytes. *)
Lemma table_payload_bound (b : Bus) (tx_id rx_id ea_req did : Z) (payload : list Z) :
  Forall (fun r => forall f, got r = Some f -> (length (data f) <= 8)%nat) (pending b) ->
  fst (TableUds._uds_read_by_identifier b tx_id rx_id ea_req did) = inr payload ->
  (length payload <= 134)%nat.
Proof.
  intros Hw.
  pose (p := mkProfile tx_id rx_id ea_req 0).
  destruct (recv_until_shape
              (send b tx_id [ea_req; 0x03; 0x22; did_hi did; did_lo did; 0; 0; 0])
              rx_id 1000) as (consumed & Hp & _ & Hr).
  destruct (TableUds._recv_until _ rx_id 1000) as [[raw|] b1] eqn:E; cbn [fst snd] in *.
  2:{ unfold TableUds._uds_read_by_identifier. fold (did_hi did) (did_lo did).
      rewrite E. discriminate. }
  destruct (Hr raw eq_refl) as (r & f & Hin & Hg & Hraw).
  cbn [send pending] in Hp.
  assert (H8 : length raw = 8%nat).
  { rewrite Hraw. apply pad8_length_8.
    rewrite Hp in Hw. apply Forall_app in Hw as [Hw _].
    rewrite Forall_forall in Hw. apply (Hw r); [apply list_elem_of_In, Hin | exact Hg]. }
  change (TableUds._uds_read_by_identifier b tx_id rx_id ea_req did)
    with (TableUds._uds_read_by_identifier b (TX_ID p) (RX_ID p) (EA_REQ p) did).
  rewrite (table_dispatch p did b b1 raw E) by (intros ->; discriminate H8).

  destruct (negb (byte_at raw 0 =? TableUds.EA_RSP)); [discriminate|].
  destruct (Z.land (byte_at raw 1) 240 =? 0).
  { destruct (_ || _); [discriminate|]. intros [= <-].
    unfold slice. rewrite length_take, length_drop. lia. }
  destruct (Z.land (byte_at raw 1) 240 =? 16); [|discriminate].
  destruct (_ || _); [discriminate|]. intros [= <-].
  apply cf_loop_bound.
  - cbn [send pending]. rewrite Hp in Hw. apply Forall_app in Hw. tauto.
  - rewrite length_drop. lia.
Qed.



(** C5, against the code: a first frame after which the bus stays silent.
    The continuation wait times out and both engines return the chunk of
    the first frame; neither reports a timeout. *)
Lemma uds_continuation_timeout_returns_payload :
  fst (uds_read_by_id (mkBus 0 [first_frame_D631] []) 0xD631 links 1000)
  = inr [0x01; 0x02] /\
  fst (TableUds._uds_read_by_identifier (mkBus 0 [first_frame_D631] [])
         0x06F1 0x0643 0x43 0xD631)
  = inr [0x01; 0x02] /\
  fst (uds_read_by_id
         (mkBus 0 [first_frame_D631; mkRead 500 None; mkRead 1000 None; consecutive_frame] [])
         0xD631 links 1000)
  = inr [0x01; 0x02] /\
  fst (TableUds._uds_read_by_identifier
         (mkBus 0 [first_frame_D631; mkRead 500 None; mkRead 1000 None; consecutive_frame] [])
         0x06F1 0x0643 0x43 0xD631)
  = inr [0x01; 0x02].
Proof. repeat split; reflexivity. Qed.

(** C5, amended.  The initial wait: when everything read until the deadline
    has passed (or until the bus falls silent) is passed over, the call
    fails, [uds_read_by_id] with [TimeoutError] and
    [_uds_read_by_identifier] with 'Keine gueltige UDS Antwort.'.  The
    continuation wait: once the first frame of the response is in, the call
    returns a payload that starts with that frame's bytes 6 onward,
    whatever follows; when nothing for the exchange comes until that wait
    has timed out, the payload returned is that chunk. *)
Theorem uds_timeouts (p : Profile) (did timeout : Z) (b : Bus) :
  (forall pre post,
     pending b = pre ++ post ->
     Forall (fun r => skipped p (did_hi did) (did_lo did) r = true) pre ->
     post = [] \/ timeout <= clock_after (now b) pre - now b ->
     fst (uds_read_by_id b did p timeout) = inl (UdsTimeout did)) /\
  (forall pre post,
     pending b = pre ++ post ->
     Forall (fun r => TableUds.passed_over (RX_ID p) r = true) pre ->
     post = [] \/ now b + 1000 <= clock_after (now b) pre ->
     fst (TableUds._uds_read_by_identifier b (TX_ID p) (RX_ID p) (EA_REQ p) did)
     = inl TableUds.NoValidResponse) /\
  (forall pre post st data,
     pending b = pre ++ mkRead st (Some (mkFrame (RX_ID p) data)) :: post ->
     (6 <= length data)%nat ->
     Z.land (byte_at data 1) 0xF0 = 0x10 ->
     byte_at data 3 = 0x62 -> byte_at data 4 = did_hi did -> byte_at data 5 = did_lo did ->
     (0 < timeout -> byte_at data 0 = EA_RSP p ->
      Forall (fun r => skipped p (did_hi did) (did_lo did) r = true
                       /\ stamp r - now b < timeout) pre ->
      (exists more, fst (uds_read_by_id b did p timeout) = inr (drop 6 data ++ more)) /\
      (forall quiet rest,
         post = quiet ++ rest ->
         Forall (fun r => passed_over p r = true) quiet ->
         rest = [] \/ timeout <= clock_after st quiet - st ->
         fst (uds_read_by_id b did p timeout) = inr (drop 6 data))) /\
     (byte_at data 0 = TableUds.EA_RSP ->
      Forall (fun r => TableUds.passed_over (RX_ID p) r = true
                       /\ stamp r < now b + 1000) pre ->
      (exists more,
         fst (TableUds._uds_read_by_identifier b (TX_ID p) (RX_ID p) (EA_REQ p) did)
         = inr (drop 6 (TableUds.pad8 data) ++ more)) /\
      (forall quiet rest,
         post = quiet ++ rest ->
         Forall (fun r => TableUds.passed_over (RX_ID p) r = true) quiet ->
         rest = [] \/ st + 1000 <= clock_after st quiet ->
         fst (TableUds._uds_read_by_identifier b (TX_ID p) (RX_ID p) (EA_REQ p) did)
         = inr (drop 6 (TableUds.pad8 data))))).
Proof.
  split; [|split].
  - intros pre post Hp Hpre Hend. unfold uds_read_by_id.
    cbn [send now pending log]. rewrite Hp. fold (did_hi did) (did_lo did).
    apply await_timeout; assumption.
  - intros pre post Hp Hpre Hend. unfold TableUds._uds_read_by_identifier.
    pose proof (recv_loop_none (RX_ID p) (now b + 1000) pre post (now b)
                  (log b ++ [Sent (TX_ID p)
                     [EA_REQ p; 0x03; 0x22; did_hi did; did_lo did; 0; 0; 0]])
                  Hpre Hend) as Hn.
    unfold TableUds._recv_until. cbn [send now pending log].
    rewrite Hp. fold (did_hi did) (did_lo did).
    destruct (TableUds.recv_loop _ _ _ _ _) as [first b1].
    cbn [fst] in Hn. rewrite Hn. reflexivity.
  - intros pre post st data Hp Hlen Hpci H3 H4 H5. split.
    + intros Ht H0 Hpre.
      assert (Ha : addressed p (mkFrame (RX_ID p) data) = true).
      { unfold addressed. cbn [arbitration_id Transport.data].
        rewrite Z.eqb_refl, H0, Z.eqb_refl.
        destruct (Nat.leb_spec 2 (length data)); [reflexivity|lia]. }
      assert (Hf : is_first (did_hi did) (did_lo did) data = true).
      { unfold is_first. rewrite Hpci, H3, H4, H5, !Z.eqb_refl.
        destruct (Nat.leb_spec 6 (length data)); [reflexivity|lia]. }
      rewrite (trigger_first_frame p did timeout b pre post
                 (mkRead st (Some (mkFrame (RX_ID p) data))) (mkFrame (RX_ID p) data));
        auto.
      cbn [fst stamp Transport.data]. split.
      * match goal with |- context [collect ?p ?t ?tf ?n ?pl ?pd ?lg] =>
          destruct (collect_shape p t pd tf n pl lg) as (consumed & more & _ & _ & Hm)
        end.
        exists more. f_equal. exact Hm.
      * intros quiet rest -> Hq Hend. f_equal.
        apply collect_quiet; assumption.
    + intros H0 Hpre.
      rewrite (table_dispatch p did b _ _
                 (table_reaches p did b pre post
                    (mkRead st (Some (mkFrame (RX_ID p) data))) (mkFrame (RX_ID p) data)
                    Hp Hpre eq_refl eq_refl) (pad8_nonempty _)).
      cbn [Transport.data]. rewrite !pad8_byte_at by lia.
      rewrite H0, Hpci, H3, H4, H5, !Z.eqb_refl. cbn [negb orb Z.eqb fst pending].
      split.
      * match goal with |- context [TableUds.cf_loop ?fu ?rx ?pl ?bb] =>
          destruct (cf_loop_shape rx fu pl bb) as (consumed & more & _ & _ & Hm)
        end.
        exists more. f_equal. exact Hm.
      * intros quiet rest -> Hq Hend. f_equal.
        rewrite cf_loop_eq. unfold TableUds._recv_until.
        cbn [send now pending log].
        match goal with |- context [TableUds.recv_loop ?rx ?e ?n ?pd ?lg] =>
          pose proof (recv_loop_none rx e quiet rest n lg Hq Hend) as Hn;
          destruct (TableUds.recv_loop rx e n pd lg) as [cf b2]
        end.
        cbn [fst] in Hn. rewrite Hn. reflexivity.
Qed.

(** [uds_timeouts] on the left profile: a silent bus, and a first frame
    followed by one empty read and silence. *)
Lemma uds_timeouts_witness :
  fst (uds_read_by_id (mkBus 0 [] []) 0xD631 links 1000) = inl (UdsTimeout 0xD631) /\
  fst (TableUds._uds_read_by_identifier (mkBus 0 [] []) 0x06F1 0x0643 0x43 0xD631)
  = inl TableUds.NoValidResponse /\
  fst (uds_read_by_id (mkBus 0 [first_frame_D631; mkRead 10 None] []) 0xD631 links 1000)
  = inr [0x01; 0x02].
Proof.
  split; [|split].
  - apply (proj1 (uds_timeouts links 0xD631 1000 (mkBus 0 [] [])) [] [] eq_refl);
      [constructor | left; reflexivity].
  - apply (proj1 (proj2 (uds_timeouts links 0xD631 1000 (mkBus 0 [] []))) [] [] eq_refl);
      [constructor | left; reflexivity].
  - refine (proj2 (proj1 (proj2 (proj2 (uds_timeouts links 0xD631 1000
              (mkBus 0 [first_frame_D631; mkRead 10 None] [])))
              [] [mkRead 10 None] 0 [0xF1; 0x10; 0xB9; 0x62; 0xD6; 0x31; 0x01; 0x02]
              eq_refl ltac:(cbn; lia) eq_refl eq_refl eq_refl eq_refl)
              ltac:(lia) eq_refl ltac:(constructor))
              [mkRead 10 None] [] eq_refl _ _).
    + repeat constructor.
    + left. reflexivity.
Defined.

End UdsClaims.

(** ** The [CanBit] detector *)

Section CanBitLoop.

Import Detector.

Variables c byt m v l0 : Z.

Local Abbreviation d0 := (mkCanBit c byt m v l0).

Lemma frames_of_reads_cons (r : Read) (rs : list Read) :
  frames_of (map Recv (r :: rs))
  = match got r with Some f => [f] | None => [] end ++ frames_of (map Recv rs).
Proof. unfold frames_of. cbn. destruct (got r); reflexivity. Qed.

Lemma saw_nonzero_app_l (d : CanBit) (l1 l2 : list Frame) :
  saw_nonzero d l1 -> saw_nonzero d (l1 ++ l2).
Proof.
  intros (f & x & Hin & Hm & Hx). exists f, x. rewrite in_app_iff. auto.
Qed.

(** The loop keeps: a non-zero [_last] comes from a frame seen with a
    non-zero masked byte; and it answers [True] only on a frame with masked
    byte 0 that follows such a frame. *)
Lemma read_loop_inv (pending : list Read) :
  forall t0 now last log seen,
  (last <> 0 -> saw_nonzero d0 seen) ->
  exists consumed,
    Transport.log (snd (read_loop d0 0 t0 now last pending log))
      = log ++ map Recv consumed /\
    (snd (fst (read_loop d0 0 t0 now last pending log)) <> 0 ->
       saw_nonzero d0 (seen ++ frames_of (map Recv consumed))) /\
    (fst (fst (read_loop d0 0 t0 now last pending log)) = inr true ->
       exists before ftrig,
         seen ++ frames_of (map Recv consumed) = before ++ [ftrig] /\
         masked_byte d0 ftrig = Some 0 /\ saw_nonzero d0 before).
Proof.
  induction pending as [|r rest IH]; intros t0 now last log seen Hinv.
  - exists []. cbn. rewrite !app_nil_r. repeat split; auto. discriminate.
  - cbn [read_loop].
    destruct (now - t0 <? 200).
    2:{ exists []. cbn. rewrite !app_nil_r. repeat split; auto. discriminate. }
    assert (Hrec : forall last',
      (last' <> 0 ->
         saw_nonzero d0 (seen ++ match got r with Some f => [f] | None => [] end)) ->
      exists consumed,
        Transport.log (snd (read_loop d0 0 t0 (stamp r) last' rest (log ++ [Recv r])))
          = log ++ map Recv consumed /\
        (snd (fst (read_loop d0 0 t0 (stamp r) last' rest (log ++ [Recv r]))) <> 0 ->
           saw_nonzero d0 (seen ++ frames_of (map Recv consumed))) /\
        (fst (fst (read_loop d0 0 t0 (stamp r) last' rest (log ++ [Recv r]))) = inr true ->
           exists before ftrig,
             seen ++ frames_of (map Recv consumed) = before ++ [ftrig] /\
             masked_byte d0 ftrig = Some 0 /\ saw_nonzero d0 before)).
    { intros last' Hl.
      destruct (IH t0 (stamp r) last' (log ++ [Recv r]) _ Hl) as (consumed & H1 & H2 & H3).
      exists (r :: consumed). rewrite frames_of_reads_cons, app_assoc.
      cbn [map]. rewrite H1, <- app_assoc. auto. }
    destruct (got r) as [f|] eqn:Hg.
    2:{ apply Hrec. rewrite app_nil_r. exact Hinv. }
    assert (Hone : frames_of (map Recv [r]) = [f]).
    { rewrite frames_of_reads_cons, Hg. reflexivity. }
    fold (relevant d0 f).
    destruct (relevant d0 f) eqn:Hrel.
    2:{ apply Hrec. intros Hl. apply saw_nonzero_app_l, Hinv, Hl. }
    cbn [Detector.byte Detector.mask].
    destruct (py_index (data f) byt) as [x|] eqn:Hx.
    2:{ exists [r]. cbn [fst snd Transport.log]. rewrite Hone.
        repeat split; auto; [|discriminate].
        intros Hl. apply saw_nonzero_app_l, Hinv, Hl. }
    assert (Hmb : masked_byte d0 f = Some (Z.land x m)).
    { unfold masked_byte. rewrite Hrel. cbn [Detector.byte Detector.mask].
      rewrite Hx. reflexivity. }
    destruct (Z.eqb_spec (Z.land x m) 0) as [Hz | Hnz].
    + exists [r]. cbn [fst snd Transport.log]. rewrite Hone.
      repeat split; auto; [congruence|].
      intros [= Hl]. apply negb_true_iff, Z.eqb_neq in Hl.
      exists seen, f. rewrite Hmb, Hz. auto.
    + apply Hrec. intros _. exists f, (Z.land x m).
      rewrite in_app_iff. cbn. auto.
Qed.

(** The loop passes over reads without a relevant frame while time remains. *)
Lemma read_loop_skip (pre rest : list Read) :
  forall tv t0 now last log,
  now - t0 < 200 ->
  Forall (fun r => (forall f, got r = Some f -> relevant d0 f = false)
                   /\ stamp r - t0 < 200) pre ->
  read_loop d0 tv t0 now last (pre ++ rest) log
  = read_loop d0 tv t0 (clock_after now pre) last rest (log ++ map Recv pre).
Proof.
  induction pre as [|r pre IH]; intros tv t0 now last log Hnow Hpre.
  - cbn. rewrite app_nil_r. reflexivity.
  - inversion Hpre as [|? ? [Hs Ht] Hpre']; subst.
    cbn [app read_loop]. apply Z.ltb_lt in Hnow. rewrite Hnow.
    assert (Hgo : read_loop d0 tv t0 (stamp r) last (pre ++ rest) (log ++ [Recv r])
                  = read_loop d0 tv t0 (clock_after now (r :: pre)) last rest
                      (log ++ map Recv (r :: pre))).
    { rewrite (IH tv t0 (stamp r) last (log ++ [Recv r]) Ht Hpre').
      cbn [map clock_after foldl]. rewrite <- app_assoc. reflexivity. }
    destruct (got r) as [f|]; [|exact Hgo].
    specialize (Hs f eq_refl). unfold relevant in Hs.
    cbn [Detector.cid Detector.byte] in Hs |- *. rewrite Hs. exact Hgo.


Qed.

End CanBitLoop.

Section CanBitCalls.

Import Detector.

Variables c byt m v : Z.
Hypothesis target0 : Z.land v m = 0.

(** One call of [read_state]. *)
Lemma read_state_inv (last : Z) (b : Bus) (seen : list Frame) :
  (last <> 0 -> saw_nonzero (mkCanBit c byt m v 0) seen) ->
  exists last',
    snd (fst (read_state (mkCanBit c byt m v last) b)) = mkCanBit c byt m v last' /\
    (last' <> 0 ->
       saw_nonzero (mkCanBit c byt m v 0)
         (seen ++ examined b (snd (read_state (mkCanBit c byt m v last) b)))) /\
    (fst (fst (read_state (mkCanBit c byt m v last) b)) = inr true ->
       exists before ftrig,
         seen ++ examined b (snd (read_state (mkCanBit c byt m v last) b))
           = before ++ [ftrig] /\
         masked_byte (mkCanBit c byt m v 0) ftrig = Some 0 /\
         saw_nonzero (mkCanBit c byt m v 0) before).
Proof.
  intros Hinv. unfold read_state. cbn [value mask _last cid byte].
  rewrite target0.
  destruct (read_loop_inv c byt m v last (pending b) (now b) (now b) last (log b) seen Hinv)
    as (consumed & Hl & H2 & H3).
  destruct (read_loop _ 0 (now b) (now b) last (pending b) (log b))
    as [[res last'] b'] eqn:E.
  cbn [fst snd] in *.
  assert (Hex : examined b b' = frames_of (map Recv consumed)).
  { unfold examined. rewrite Hl, drop_app_length. reflexivity. }
  exists last'. rewrite Hex. auto.
Qed.

(** Successive calls: an answer [True] comes on a frame with masked byte 0
    that follows, among the frames examined since [seen], a frame with a
    non-zero masked byte. *)
Lemma read_states_inv (buses : list Bus) :
  forall last seen k tr,
  (last <> 0 -> saw_nonzero (mkCanBit c byt m v 0) seen) ->
  read_states (mkCanBit c byt m v last) buses !! k = Some (inr true, tr) ->
  exists before ftrig,
    seen ++ concat (map snd (take (S k) (read_states (mkCanBit c byt m v last) buses)))
      = before ++ [ftrig] /\
    masked_byte (mkCanBit c byt m v 0) ftrig = Some 0 /\
    saw_nonzero (mkCanBit c byt m v 0) before.
Proof.
  induction buses as [|b rest IH]; intros last seen k tr Hinv Hk; [discriminate|].
  cbn [read_states] in *.
  destruct (read_state_inv last b seen Hinv) as (last' & Hd & H2 & H3).
  destruct (read_state (mkCanBit c byt m v last) b) as [[res d'] b'] eqn:E.
  cbn [fst snd] in *. subst d'.
  destruct k as [|k].
  - cbn in Hk. injection Hk as -> <-.
    cbn [take map concat snd]. rewrite app_nil_r. apply H3. reflexivity.
  - cbn [lookup list_lookup] in Hk.
    destruct (IH last' (seen ++ examined b b') k tr H2 Hk)
      as (before & ftrig & Heq & Hm & Hs).
    exists before, ftrig. cbn [take map concat snd].
    rewrite app_assoc. auto.
Qed.

End CanBitCalls.

Section CanBitClaim.

Import Detector.

(** C10.  [CanBit] starts with [_last = 0], and [reset] puts it back to 0.
    With [value & mask = 0]: when the first frame the detector looks at
    after that has the target value in its masked byte, [read_state]
    answers [False]; and over any run of calls, an answer [True] comes on a
    frame with masked byte 0 that has, among the frames examined before
    it, one whose masked byte is not zero. *)
Theorem canbit_first_match_is_no_edge (d : CanBit) :
  _last (init (cid d) (byte d) (mask d) (value d)) = 0 /\
  _last (reset d) = 0 /\
  reset (init (cid d) (byte d) (mask d) (value d)) = init (cid d) (byte d) (mask d) (value d) /\
  (Z.land (value d) (mask d) = 0 ->
   (forall b pre r rest f,
      pending b = pre ++ r :: rest ->
      Forall (fun r => (forall f, got r = Some f -> relevant d f = false)
                       /\ stamp r - now b < 200) pre ->
      got r = Some f ->
      masked_byte d f = Some (Z.land (value d) (mask d)) ->
      fst (fst (read_state (reset d) b)) = inr false) /\
   (forall buses k tr,
      read_states (reset d) buses !! k = Some (inr true, tr) ->
      exists before ftrig,
        concat (map snd (take (S k) (read_states (reset d) buses))) = before ++ [ftrig] /\
        masked_byte d ftrig = Some 0 /\
        saw_nonzero d before)).
Proof.
  destruct d as [c byt m v last]. cbn [cid byte mask value].
  split; [reflexivity|]. split; [reflexivity|]. split; [reflexivity|].
  intros Ht. split.
  - intros b pre r rest f Hp Hpre Hg Hm.
    unfold read_state, reset. cbn [cid byte mask value _last].
    rewrite Hp, Ht in *.
    rewrite (read_loop_skip c byt m v 0 pre (r :: rest)); [|lia|exact Hpre].
    cbn [read_loop].
    assert (Hc : clock_after (now b) pre - now b < 200).
    { enough (clock_after (now b) pre < now b + 200) by lia.
      apply clock_after_lt; [lia|].
      eapply Forall_impl; [exact Hpre|]. intros x [_ Hx]. cbv beta. lia. }
    apply Z.ltb_lt in Hc. rewrite Hc, Hg.
    unfold masked_byte in Hm. fold (relevant (mkCanBit c byt m v 0) f).
    change (relevant (mkCanBit c byt m v 0) f)
      with (relevant (mkCanBit c byt m v last) f).
    destruct (relevant (mkCanBit c byt m v last) f); [|discriminate Hm].
    cbn [byte mask] in *.
    destruct (py_index (data f) byt) as [x|]; [|discriminate Hm].
    injection Hm as Hm. rewrite Hm. reflexivity.
  - intros buses k tr Hk.
    destruct (read_states_inv c byt m v Ht buses 0 [] k tr ltac:(congruence) Hk)
      as (before & ftrig & Heq & Hm & Hs).
    exists before, ftrig. auto.
Qed.

(** The edge does come once a non-zero masked byte has been seen: in one
    call, or over two calls. *)
Example canbit_edge_after_nonzero :
  read_states (reset (init 0x123 0 0x01 0x00))
    [mkBus 0 [mkRead 1 (Some (mkFrame 0x123 [0x01])); mkRead 2 (Some (mkFrame 0x123 [0x00]))] []]
  = [(inr true, [mkFrame 0x123 [0x01]; mkFrame 0x123 [0x00]])] /\
  read_states (reset (init 0x123 0 0x01 0x00))
    [mkBus 0 [mkRead 1 (Some (mkFrame 0x123 [0x01]))] [];
     mkBus 300 [mkRead 301 (Some (mkFrame 0x123 [0x00]))] []]
  = [(inr false, [mkFrame 0x123 [0x01]]); (inr true, [mkFrame 0x123 [0x00]])] /\
  read_states (reset (init 0x123 (-1) 0x01 0x00))
    [mkBus 0 [mkRead 1 (Some (mkFrame 0x123 []))] []]
  = [(inl TupleIndexOutOfRange, [mkFrame 0x123 []])] /\

  fst (fst (read_state (init 0x123 (-2) 0x01 0x00)
              (mkBus 0 [mkRead 1 (Some (mkFrame 0x123 [0x07]))] [])))
  = inl TupleIndexOutOfRange.
Proof. repeat split; reflexivity. Qed.

(** [canbit_first_match_is_no_edge] for the detector of bit 0 of byte 0 of
    id 0x123 going to 0: the first frame seen carries 0. *)
Lemma canbit_first_match_is_no_edge_witness :
  fst (fst (read_state (reset (init 0x123 0 0x01 0x00))
              (mkBus 0 [mkRead 1 (Some (mkFrame 0x456 [0xFF]));
                        mkRead 2 (Some (mkFrame 0x123 [0xFE; 0x01]))] [])))
  = inr false.
Proof.
  apply (proj1 (proj2 (proj2 (proj2 (canbit_first_match_is_no_edge (init 0x123 0 0x01 0x00))))
                  eq_refl)
           (mkBus 0 [mkRead 1 (Some (mkFrame 0x456 [0xFF]));
                     mkRead 2 (Some (mkFrame 0x123 [0xFE; 0x01]))] [])
           [mkRead 1 (Some (mkFrame 0x456 [0xFF]))]
           (mkRead 2 (Some (mkFrame 0x123 [0xFE; 0x01]))) []
           (mkFrame 0x123 [0xFE; 0x01]) eq_refl).
  - constructor; [|constructor]. split; [|cbn; lia].
    intros f [= <-]. reflexivity.
  - reflexivity.
  - reflexivity.
Defined.

End CanBitClaim.

(** ** The correlation counters *)

Section Counting.

Import Correlate.

Lemma count_incr_eq {K} `{Countable K} (k : K) (c : gmap K Z) :
  count (incr k c) k = count c k + 1.
Proof. unfold count, incr. rewrite lookup_insert_eq. reflexivity. Qed.

Lemma count_incr_ne {K} `{Countable K} (k k' : K) (c : gmap K Z) :
  k <> k' -> count (incr k c) k' = count c k'.
Proof. intros Hne. unfold count, incr. rewrite lookup_insert_ne by exact Hne. reflexivity. Qed.

(** A loop whose every round adds [delta x k] to the count of [k] adds
    their sum. *)
Lemma foldl_count {A K} `{Countable K} (step : gmap K Z -> A -> gmap K Z)
    (delta : A -> K -> Z) :
  (forall c x k, count (step c x) k = count c k + delta x k) ->
  forall l c k,
    count (foldl step c l) k = count c k + foldr Z.add 0 (map (fun x => delta x k) l).
Proof.
  intros Hstep l. induction l as [|x l IH]; intros c k; cbn.
  - lia.
  - rewrite IH, Hstep. lia.
Qed.

Lemma incr_bit_count (a a' : Z) (i i' b b' : nat) (c : gmap (Z * nat * nat) Z) :
  count (incr (a, i, b) c) (a', i', b')
  = count c (a', i', b') + Z.b2z ((a' =? a) && (i' =? i)%nat && (b' =? b)%nat).
Proof.
  destruct (Z.eqb_spec a' a) as [->|Ha]; cbn [andb].
  2:{ rewrite count_incr_ne by congruence. cbn. lia. }
  destruct (Nat.eqb_spec i' i) as [->|Hi]; cbn [andb].
  2:{ rewrite count_incr_ne by congruence. cbn. lia. }
  destruct (Nat.eqb_spec b' b) as [->|Hb]; cbn [andb].
  2:{ rewrite count_incr_ne by congruence. cbn. lia. }
  rewrite count_incr_eq. reflexivity.
Qed.

(** [for bit in range(8)]: bit [b'] of byte [idx] of [cid] gains one hit
    when it rises, nothing else changes. *)
Lemma bits_loop_count (cid : Z) (idx : nat) (p d : Z) (bh : gmap (Z * nat * nat) Z)
    (c' : Z) (i' b' : nat) :
  count (bits_loop cid idx p d bh) (c', i', b')
  = count bh (c', i', b')
    + Z.b2z ((c' =? cid) && (i' =? idx)%nat && (b' <? 8)%nat && bit_rises p d b').
Proof.
  unfold bits_loop.
  rewrite (foldl_count
             (fun bh bit =>
                if (Z.land p (Z.shiftl 1 (Z.of_nat bit)) =? 0)
                   && negb (Z.land d (Z.shiftl 1 (Z.of_nat bit)) =? 0)
                then incr (cid, idx, bit) bh else bh)
             (fun bit k =>
                Z.b2z ((k.1.1 =? cid) && (k.1.2 =? idx)%nat && (k.2 =? bit)%nat
                       && bit_rises p d bit))).
  2:{ intros c x [[a i] b]. cbn [fst snd]. fold (bit_rises p d x).
      destruct (bit_rises p d x).

      - rewrite incr_bit_count, andb_true_r. reflexivity.
      - rewrite andb_false_r. cbn. lia. }
  f_equal. cbn [fst snd seq map foldr].
  destruct (c' =? cid); cbn [andb Z.b2z]; [|lia].
  destruct (i' =? idx)%nat; cbn [andb Z.b2z]; [|lia].
  do 8 (destruct b' as [|b']; [cbn; repeat (destruct (bit_rises p d _)); cbn; lia|]).
  cbn. lia.
Qed.

(** A bit cannot rise between equal bytes. *)
Lemma bit_rises_xor_zero (p d : Z) (bit : nat) :
  Z.lxor p d = 0 -> bit_rises p d bit = false.
Proof.
  intros H. apply Z.lxor_eq in H. subst d. unfold bit_rises.
  destruct (Z.land p _ =? 0); reflexivity.
Qed.

(** [for idx, byte in enumerate(xor)], from index [s] on. *)
Lemma bytes_fold_count (cid : Z) (prev data_frame : list Z) (c' : Z) (i' b' : nat)
    (xs : list Z) :
  forall s bh,
  (forall j x, xs !! j = Some x ->
     x = Z.lxor (byte_at prev (s + j)) (byte_at data_frame (s + j))) ->
  count (foldl (fun bh '(idx, byte) =>
                  if byte =? 0 then bh
                  else bits_loop cid idx (byte_at prev idx) (byte_at data_frame idx) bh)
               bh (zip (seq s (length xs)) xs)) (c', i', b')
  = count bh (c', i', b')
    + Z.b2z ((c' =? cid) && ((s <=? i')%nat && (i' <? s + length xs)%nat)
             && (b' <? 8)%nat
             && bit_rises (byte_at prev i') (byte_at data_frame i') b').
Proof.
  induction xs as [|x xs IH]; intros s bh Hxs.
  - cbn [length seq zip zip_with foldl].
    replace ((s <=? i')%nat && (i' <? s + 0)%nat) with false.
    + rewrite andb_false_r. cbn. lia.
    + destruct (Nat.leb_spec s i'), (Nat.ltb_spec i' (s + 0)); cbn; auto; lia.
  - cbn [length seq zip zip_with foldl].
    rewrite IH.
    2:{ intros j y Hj. replace (S s + j)%nat with (s + S j)%nat by lia.
        apply Hxs. exact Hj. }
    assert (Hx : x = Z.lxor (byte_at prev s) (byte_at data_frame s)).
    { replace s with (s + 0)%nat at 1 2 by lia. apply Hxs. reflexivity. }
    assert (Hstep :
      count (if x =? 0 then bh
             else bits_loop cid s (byte_at prev s) (byte_at data_frame s) bh) (c', i', b')
      = count bh (c', i', b')
        + Z.b2z ((c' =? cid) && (i' =? s)%nat && (b' <? 8)%nat
                 && bit_rises (byte_at prev s) (byte_at data_frame s) b')).
    { destruct (Z.eqb_spec x 0) as [Hz|Hz].
      - rewrite bit_rises_xor_zero by congruence.
        rewrite !andb_false_r. cbn. lia.
      - apply bits_loop_count. }
    rewrite Hstep.
    destruct (c' =? cid); cbn [andb Z.b2z]; [|lia].
    destruct (Nat.eqb_spec i' s) as [->|Hne]; cbn [andb].
    + replace ((S s <=? s)%nat) with false
        by (symmetry; apply Nat.leb_gt; lia).
      replace ((s <=? s)%nat) with true by (symmetry; apply Nat.leb_le; lia).
      replace ((s <? s + S (length xs))%nat) with true
        by (symmetry; apply Nat.ltb_lt; lia).
      cbn [andb Z.b2z]. lia.
    + replace ((S s <=? i')%nat) with ((s <=? i')%nat)
        by (destruct (Nat.leb_spec s i'), (Nat.leb_spec (S s) i'); auto; lia).
      replace ((i' <? S s + length xs)%nat) with ((i' <? s + S (length xs))%nat)
        by (f_equal; lia).
      cbn [andb Z.b2z]. lia.
Qed.

(** [bytes_loop]: the bits of [cid] that rise from [prev] to the frame gain
    one hit each. *)
Lemma bytes_loop_count (cid : Z) (prev data_frame : list Z)
    (bh : gmap (Z * nat * nat) Z) (c' : Z) (i' b' : nat) :
  length prev = length data_frame ->
  count (bytes_loop cid prev data_frame bh) (c', i', b')
  = count bh (c', i', b')
    + Z.b2z ((c' =? cid) && (i' <? length prev)%nat && (b' <? 8)%nat
             && bit_rises (byte_at prev i') (byte_at data_frame i') b').
Proof.
  intros Hlen. unfold bytes_loop.
  rewrite (bytes_fold_count cid prev data_frame c' i' b').
  - rewrite length_zip_with, <- Hlen, Nat.min_id. reflexivity.
  - intros j x Hj. cbn [Nat.add].
    apply lookup_zip_with_Some in Hj as (a & b & -> & Ha & Hb).
    unfold byte_at. rewrite !nth_lookup, Ha, Hb. reflexivity.
Qed.

End Counting.

Section RisingEdge.

Import Correlate.

Lemma filter_andb {A} (f g : A -> bool) (l : list A) :
  List.filter (fun x => f x && g x) l = List.filter g (List.filter f l).
Proof.
  induction l as [|x l IH]; [reflexivity|]. cbn.
  destruct (f x); cbn; [destruct (g x)|]; rewrite IH; reflexivity.
Qed.

(** [before] holds, for every id, the data last seen before [t]. *)
Lemma before_of_lookup (ring : list Entry) (t cid : Z) :
  before_of ring t !! cid = last_seen_before ring t cid.
Proof.
  unfold before_of, last_seen_before.
  enough (Hgen : forall acc : gmap Z (list Z),
    foldl (fun before e =>
             if ts e <? t then <[can_id e := payload e]> before else before) acc ring !! cid
    = match last (List.filter (fun e => (can_id e =? cid) && (ts e <? t)) ring) with
      | Some e => Some (payload e)
      | None => acc !! cid
      end).
  { rewrite Hgen, lookup_empty. destruct (last _); reflexivity. }
  induction ring as [|e ring IH]; intros acc; [reflexivity|].
  cbn [foldl List.filter]. rewrite IH.
  destruct (Z.eqb_spec (can_id e) cid) as [Heq|Hne]; cbn [andb].
  - destruct (ts e <? t).
    + rewrite last_cons. destruct (last _); [reflexivity|].
      rewrite Heq, lookup_insert_eq. reflexivity.
    + reflexivity.
  - destruct (ts e <? t); [|reflexivity].
    destruct (last _); [reflexivity|]. apply lookup_insert_ne, Hne.
Qed.

Lemma rise_count_cons (before : gmap Z (list Z)) (e : Entry) (win : list Entry)
    (k : Z * nat * nat) :
  rise_count before (e :: win) k
  = rise_count before win k
    + match before !! k.1.1 with
      | Some prev => Z.b2z ((can_id e =? k.1.1) && rises prev k.1.2 k.2 e)
      | None => 0
      end.
Proof.
  unfold rise_count. destruct (before !! k.1.1) as [prev|]; [|reflexivity].
  cbn [List.filter]. destruct ((can_id e =? k.1.1) && rises prev k.1.2 k.2 e); cbn [length Z.b2z]; lia.
Qed.

(** [for ... in in_win]: the ids seen, and one hit per frame and rising bit. *)
Lemma frames_fold (before : gmap Z (list Z)) (win : list Entry) :
  forall seen bh,
  fst (foldl (frame_step before) (seen, bh) win) = list_to_set (map can_id win) ∪ seen /\
  forall k, count (snd (foldl (frame_step before) (seen, bh) win)) k
            = count bh k + rise_count before win k.
Proof.
  induction win as [|e win IH]; intros seen bh.
  - cbn. split; [set_solver|]. intros k. unfold rise_count.
    destruct (before !! k.1.1); cbn; lia.
  - cbn [foldl map]. unfold frame_step at 2 4.
    assert (Hset : forall bh', 
      fst (foldl (frame_step before) ({[can_id e]} ∪ seen, bh') win)
      = list_to_set (can_id e :: map can_id win) ∪ seen).
    { intros bh'. rewrite (proj1 (IH _ bh')). set_solver. }
    assert (Hcnt : forall bh',
      (forall k, count bh' k = count bh k
         + match before !! k.1.1 with
           | Some prev => Z.b2z ((can_id e =? k.1.1) && rises prev k.1.2 k.2 e)
           | None => 0
           end) ->
      forall k, count (snd (foldl (frame_step before) ({[can_id e]} ∪ seen, bh') win)) k
                = count bh k + rise_count before (e :: win) k).
    { intros bh' Hb k. rewrite (proj2 (IH _ bh')), Hb, rise_count_cons. lia. }
    destruct (before !! can_id e) as [prev|] eqn:Hprev.
    2:{ split; [apply Hset|]. apply Hcnt. intros k.
        destruct (Z.eqb_spec (can_id e) k.1.1) as [Heq|Hne].
        - rewrite <- Heq, Hprev. lia.
        - destruct (before !! k.1.1); cbn; lia. }
    destruct (Nat.eqb_spec (length prev) (length (payload e))) as [Hlen|Hlen]; cbn [negb].
    2:{ split; [apply Hset|]. apply Hcnt. intros k.
        destruct (Z.eqb_spec (can_id e) k.1.1) as [Heq|Hne].
        - rewrite <- Heq, Hprev. unfold rises.
          apply Nat.eqb_neq in Hlen. rewrite Hlen. cbn. lia.
        - destruct (before !! k.1.1); cbn; lia. }
    split; [apply Hset|]. apply Hcnt. intros [[c' i'] b']. cbn [fst snd].
    rewrite bytes_loop_count by exact Hlen.
    rewrite (Z.eqb_sym c' (can_id e)).
    destruct (Z.eqb_spec (can_id e) c') as [Heq|Hne]; cbn [andb].
    + rewrite <- Heq, Hprev. unfold rises.
      apply Nat.eqb_eq in Hlen. rewrite Hlen. reflexivity.
    + destruct (before !! c'); cbn; lia.
Qed.

(** [for can_id in seen_ids: id_hits[can_id] += 1] *)
Lemma foldr_incr_count (l : list Z) (c : gmap Z Z) (k : Z) :
  NoDup l ->
  count (foldr incr c l) k = count c k + Z.b2z (bool_decide (k ∈ l)).
Proof.
  induction 1 as [|x l Hx Hnd IH]; cbn [foldr].
  - rewrite bool_decide_eq_false_2 by set_solver. cbn. lia.
  - destruct (decide (x = k)) as [->|Hne].
    + rewrite count_incr_eq, IH.
      rewrite (bool_decide_eq_false_2 (k ∈ l)) by exact Hx.
      rewrite bool_decide_eq_true_2 by set_solver. cbn. lia.
    + rewrite count_incr_ne by exact Hne. rewrite IH.
      destruct (decide (k ∈ l)) as [Hin|Hin].
      * rewrite !bool_decide_eq_true_2 by set_solver. reflexivity.
      * rewrite !bool_decide_eq_false_2 by set_solver. reflexivity.
Qed.

Lemma set_fold_incr_count (X : gset Z) (c : gmap Z Z) (k : Z) :
  count (set_fold incr c X) k = count c k + Z.b2z (bool_decide (k ∈ X)).
Proof.
  unfold set_fold. cbn [compose]. rewrite foldr_incr_count by apply NoDup_elements.
  do 2 f_equal. apply bool_decide_ext. apply elem_of_elements.
Qed.

(** The counters after an event. *)
Lemma on_rising_edge_counts (ring : list Entry) (t_event : Z) (c : Counters) :
  (forall k,
     count (bit_hits (on_rising_edge ring t_event c)) k
     = count (bit_hits c) k
       + rise_count (before_of ring (t_event - PRE_WIN))
           (in_win ring (t_event - PRE_WIN) (t_event + POST_WIN)) k) /\
  (forall cid,
     count (id_hits (on_rising_edge ring t_event c)) cid
     = count (id_hits c) cid
       + Z.b2z (bool_decide
                  (cid ∈ map can_id (in_win ring (t_event - PRE_WIN) (t_event + POST_WIN))))).
Proof.
  unfold on_rising_edge, frames_loop.
  destruct (frames_fold (before_of ring (t_event - PRE_WIN))
              (in_win ring (t_event - PRE_WIN) (t_event + POST_WIN)) ∅ (bit_hits c))
    as [Hs Hc].
  destruct (foldl _ _ _) as [seen bh]. cbn [fst snd bit_hits id_hits] in *.
  split; [exact Hc|].
  intros cid. rewrite set_fold_incr_count. do 2 f_equal.
  apply bool_decide_ext. rewrite Hs. set_solver.
Qed.

(** The rounds of the loop touch the counters on a rising edge only. *)
Lemma iteration_hits (rd : option Entry) (state : bool) (t_event : Z) (r : Runner) :
  hits (iteration rd state t_event r)
  = if state && negb (last_state r)
    then on_rising_edge (ring (iteration rd state t_event r)) t_event (hits r)
    else hits r.
Proof. reflexivity. Qed.

(** From [00] to [01] only bit 0 rises. *)
Lemma only_bit_zero_rises (bit : nat) :
  bit <> 0%nat -> (bit <? 8)%nat && bit_rises 0 1 bit = false.
Proof.
  intros Hne.
  do 8 (destruct bit as [|bit]; [first [congruence | reflexivity]|]).
  reflexivity.
Qed.

(** C6, against the code: the id 0x100 was last seen as [00] before the
    pre-window and has two frames [01] inside the window of the event at
    500 ms.  Each frame is compared with the same before-snapshot, so the
    entry (0x100, 0, 0) gains 2, not 1; the id-hit counter gains 1. *)
Lemma two_frames_two_bit_hits :
  last_seen_before
    [mkEntry 0 0x100 1 [0x00]; mkEntry 400 0x100 1 [0x01]; mkEntry 450 0x100 1 [0x01]]
    (500 - PRE_WIN) 0x100 = Some [0x00] /\
  In (mkEntry 400 0x100 1 [0x01])
     (in_win [mkEntry 0 0x100 1 [0x00]; mkEntry 400 0x100 1 [0x01]; mkEntry 450 0x100 1 [0x01]]
        (500 - PRE_WIN) (500 + POST_WIN)) /\
  count (bit_hits (on_rising_edge
           [mkEntry 0 0x100 1 [0x00]; mkEntry 400 0x100 1 [0x01]; mkEntry 450 0x100 1 [0x01]]
           500 (mkCounters ∅ ∅))) (0x100, 0%nat, 0%nat)
  = count (bit_hits (mkCounters ∅ ∅)) (0x100, 0%nat, 0%nat) + 2 /\
  count (id_hits (on_rising_edge
           [mkEntry 0 0x100 1 [0x00]; mkEntry 400 0x100 1 [0x01]; mkEntry 450 0x100 1 [0x01]]
           500 (mkCounters ∅ ∅))) 0x100
  = count (id_hits (mkCounters ∅ ∅)) 0x100 + 1.
Proof.
  split; [reflexivity|]. split; [left; reflexivity|].
  split; vm_compute; reflexivity.
Qed.

(** C6, amended.  On a rising edge at [t_event], with the before-snapshot
    of an id its data last seen before [t_event - 300] and the window
    [[t_event - 300, t_event + 50]]: every bit-hit entry [(id, byte, bit)]
    gains one per in-window frame of the id that has the length of the
    snapshot and that bit set where the snapshot has it clear; so for an
    id last seen as [00] whose only frame in the window is [01], the
    entry [(id, 0, 0)] gains exactly 1 and no other entry of the id
    changes; the id-hit counter gains exactly 1 for every id with a frame
    in the window, however many, and stays for every other id; and a
    round of the loop changes the counters on a rising edge only. *)
Theorem rising_edge_hits (ring : list Entry) (t_event : Z) (c : Counters) :
  (forall cid idx bit,
     count (bit_hits (on_rising_edge ring t_event c)) (cid, idx, bit)
     = count (bit_hits c) (cid, idx, bit)
       + match last_seen_before ring (t_event - PRE_WIN) cid with
         | None => 0
         | Some prev =>
             Z.of_nat (length (List.filter (rises prev idx bit)
                         (frames_with_id cid
                            (in_win ring (t_event - PRE_WIN) (t_event + POST_WIN)))))
         end) /\
  (forall cid e,
     last_seen_before ring (t_event - PRE_WIN) cid = Some [0x00] ->
     frames_with_id cid (in_win ring (t_event - PRE_WIN) (t_event + POST_WIN)) = [e] ->
     payload e = [0x01] ->
     count (bit_hits (on_rising_edge ring t_event c)) (cid, 0%nat, 0%nat)
     = count (bit_hits c) (cid, 0%nat, 0%nat) + 1 /\
     forall idx bit, (idx, bit) <> (0%nat, 0%nat) ->
       count (bit_hits (on_rising_edge ring t_event c)) (cid, idx, bit)
       = count (bit_hits c) (cid, idx, bit)) /\
  (forall cid,
     In cid (map can_id (in_win ring (t_event - PRE_WIN) (t_event + POST_WIN))) ->
     count (id_hits (on_rising_edge ring t_event c)) cid = count (id_hits c) cid + 1) /\
  (forall cid,
     ~ In cid (map can_id (in_win ring (t_event - PRE_WIN) (t_event + POST_WIN))) ->
     count (id_hits (on_rising_edge ring t_event c)) cid = count (id_hits c) cid) /\
  (forall rd state r,
     hits (iteration rd state t_event r)
     = if state && negb (last_state r)
       then on_rising_edge (Correlate.ring (iteration rd state t_event r)) t_event (hits r)
       else hits r).
Proof.
  destruct (on_rising_edge_counts ring t_event c) as [Hbit Hid].
  assert (Hgen : forall cid idx bit,
     count (bit_hits (on_rising_edge ring t_event c)) (cid, idx, bit)
     = count (bit_hits c) (cid, idx, bit)
       + match last_seen_before ring (t_event - PRE_WIN) cid with
         | None => 0
         | Some prev =>
             Z.of_nat (length (List.filter (rises prev idx bit)
                         (frames_with_id cid
                            (in_win ring (t_event - PRE_WIN) (t_event + POST_WIN)))))
         end).
  { intros cid idx bit. rewrite Hbit. unfold rise_count. cbn [fst snd].
    rewrite before_of_lookup.
    destruct (last_seen_before _ _ _); [|reflexivity].
    unfold frames_with_id. rewrite filter_andb. reflexivity. }
  split; [exact Hgen|]. split; [|split; [|split]].
  - intros cid e Hprev Hwin He. split.
    + rewrite Hgen, Hprev, Hwin. cbn [List.filter]. unfold rises.
      rewrite He. reflexivity.
    + intros idx bit Hne. rewrite Hgen, Hprev, Hwin. cbn [List.filter].
      unfold rises. rewrite He. cbn [length Nat.eqb andb byte_at nth].
      destruct idx as [|idx].
      * rewrite <- andb_assoc, only_bit_zero_rises by congruence. cbn. lia.
      * cbn. lia.
  - intros cid Hin. rewrite Hid, bool_decide_eq_true_2; [reflexivity|].
    apply list_elem_of_In, Hin.
  - intros cid Hin. rewrite Hid, bool_decide_eq_false_2; [cbn; lia|].
    intros H. apply Hin, list_elem_of_In, H.
  - intros rd state r. apply iteration_hits.
Qed.

(** [rising_edge_hits] at a ring in which 0x100 goes from [00] to [01]
    once while 0x200 appears three times in the window. *)
Lemma rising_edge_hits_witness :
  count (bit_hits (on_rising_edge
           [mkEntry 0 0x100 1 [0x00]; mkEntry 10 0x200 1 [0x05];
            mkEntry 400 0x200 1 [0x05]; mkEntry 410 0x100 1 [0x01];
            mkEntry 420 0x200 1 [0x05]; mkEntry 430 0x200 1 [0x05]]
           500 (mkCounters ∅ ∅))) (0x100, 0%nat, 0%nat)
  = count (bit_hits (mkCounters ∅ ∅)) (0x100, 0%nat, 0%nat) + 1 /\
  count (id_hits (on_rising_edge
           [mkEntry 0 0x100 1 [0x00]; mkEntry 10 0x200 1 [0x05];
            mkEntry 400 0x200 1 [0x05]; mkEntry 410 0x100 1 [0x01];
            mkEntry 420 0x200 1 [0x05]; mkEntry 430 0x200 1 [0x05]]
           500 (mkCounters ∅ ∅))) 0x200
  = count (id_hits (mkCounters ∅ ∅)) 0x200 + 1.
Proof.
  pose proof (rising_edge_hits
           [mkEntry 0 0x100 1 [0x00]; mkEntry 10 0x200 1 [0x05];
            mkEntry 400 0x200 1 [0x05]; mkEntry 410 0x100 1 [0x01];
            mkEntry 420 0x200 1 [0x05]; mkEntry 430 0x200 1 [0x05]]
           500 (mkCounters ∅ ∅)) as (_ & Hone & Hid & _).
  split.
  - apply (proj1 (Hone 0x100 (mkEntry 410 0x100 1 [0x01]) eq_refl eq_refl eq_refl)).

  - apply (Hid 0x200). left. reflexivity.

Defined.

End RisingEdge.

(* ===================================================================== *)
(** * Part III: further properties of the code                            *)
(* ===================================================================== *)

Section HexText.

Import Codec PyFmt CanUtils.

Lemma format_02X_checked :
  forallb (fun i => two_digits_of (Z.of_nat i) (format_02X (Z.of_nat i))) (seq 0 256) = true.
Proof. vm_compute. reflexivity. Qed.

Lemma format_02X_digits (b : Z) :
  0 <= b < 256 ->
  exists h l,
    format_02X b = String h (String l EmptyString) /\
    Py.is_blank h = false /\
    Py.hex_digit h = Some (b / 16) /\ Py.hex_digit l = Some (b mod 16).
Proof.
  intros Hb.
  pose proof format_02X_checked as Hall.
  rewrite forallb_forall in Hall.
  specialize (Hall (Z.to_nat b)).
  rewrite Z2Nat.id in Hall by lia.
  assert (Hin : In (Z.to_nat b) (seq 0 256)) by (apply in_seq; lia).
  specialize (Hall Hin).
  unfold two_digits_of in Hall.
  destruct (format_02X b) as [|h [|l [|? ?]]]; try discriminate.
  apply andb_prop in Hall as [Hall _].
  apply andb_prop in Hall as [Hall Hl].
  apply andb_prop in Hall as [Hh Hd].
  exists h, l. repeat split.
  - now apply negb_true_iff.
  - now apply bool_decide_eq_true in Hd.
  - now apply bool_decide_eq_true in Hl.
Qed.

Lemma fromhex_two (h l : ascii) (hi lo : Z) (r : string) :
  Py.is_blank h = false -> Py.hex_digit h = Some hi -> Py.hex_digit l = Some lo ->
  fromhex (String h (String l r)) = (cons (16 * hi + lo)) <$> fromhex r.
Proof.
  intros Hb Hh Hl. cbn [fromhex]. rewrite Hb, Hh, Hl.
  now destruct (fromhex r).
Qed.

Lemma hex_digit_range (c : ascii) (d : Z) : Py.hex_digit c = Some d -> 0 <= d < 16.
Proof.
  destruct c as [[] [] [] [] [] [] [] []]; vm_compute; intros H;
    try discriminate H; injection H as <-; split; congruence || reflexivity.
Qed.

Lemma string_length_ind (P : string -> Prop) :
  (forall s, (forall r, (String.length r < String.length s)%nat -> P r) -> P s) ->
  forall s, P s.
Proof.
  intros H s. remember (String.length s) as n eqn:Hn. revert s Hn.
  induction n as [n IH] using lt_wf_ind. intros s ->.
  apply H. intros r Hr. now apply (IH (String.length r)).
Qed.

Lemma fromhex_range (s : string) :
  forall bs, fromhex s = Some bs -> Forall (fun b => 0 <= b < 256) bs.
Proof.
  induction s as [s IH] using string_length_ind.
  destruct s as [|c r]; intros bs; cbn [fromhex].
  - intros [= <-]. constructor.
  - destruct (Py.is_blank c).
    + apply IH. cbn. lia.
    + destruct (Py.hex_digit c) as [h|] eqn:Hh; [|discriminate].
      destruct r as [|c2 r2]; [discriminate|].
      destruct (Py.hex_digit c2) as [l|] eqn:Hl; [|discriminate].
      destruct (fromhex r2) as [bs'|] eqn:Hr; [|discriminate].
      intros [= <-]. constructor.
      * apply hex_digit_range in Hh, Hl. lia.
      * apply (IH r2); [cbn; lia | exact Hr].
Qed.

Lemma fromhex_chars (s : string) :
  forall bs, fromhex s = Some bs ->
  Forall (fun c => Py.is_blank c = true \/ is_hex c = true) (list_ascii_of_string s).
Proof.
  induction s as [s IH] using string_length_ind.
  destruct s as [|c r]; intros bs; cbn [fromhex list_ascii_of_string].
  - intros _. constructor.
  - destruct (Py.is_blank c) eqn:Hb.
    + intros H. constructor; [now left|]. apply (IH r) with bs; [cbn; lia | exact H].
    + unfold is_hex.
      destruct (Py.hex_digit c) as [h|] eqn:Hh; [|discriminate].
      destruct r as [|c2 r2]; [discriminate|].
      destruct (Py.hex_digit c2) as [l|] eqn:Hl; [|discriminate].
      destruct (fromhex r2) as [bs'|] eqn:Hr; [|discriminate].
      intros _. constructor; [right; now rewrite Hh|].
      cbn [list_ascii_of_string]. constructor; [right; now rewrite Hl|].
      apply (IH r2) with bs'; [cbn; lia | exact Hr].
Qed.

(** X1.  A byte of 0..255 written with the format [02X] (what [fmt_bytes]
    prints for it, and what the test pages put into a wildcard field) is
    two characters; [int(s, 16)] and [bytes.fromhex] read the byte back from
    them, and [normalize_hex_byte] returns the text unchanged. *)
Theorem format_02X_round_trip (b : Z) :
  0 <= b < 256 ->
  String.length (format_02X b) = 2%nat /\
  Py.int16 (format_02X b) = Some b /\
  fromhex (format_02X b) = Some [b] /\
  normalize_hex_byte (format_02X b) = inr (Some (format_02X b)).
Proof.
  intros Hb.
  assert (Hall :
    forallb (fun i =>
      let s := format_02X (Z.of_nat i) in
      (String.length s =? 2)%nat
      && bool_decide (Py.int16 s = Some (Z.of_nat i))
      && bool_decide (fromhex s = Some [Z.of_nat i])
      && match normalize_hex_byte s with
         | inr (Some t) => String.eqb t s
         | _ => false
         end) (seq 0 256) = true)
    by (vm_compute; reflexivity).
  rewrite forallb_forall in Hall.
  specialize (Hall (Z.to_nat b)).
  rewrite Z2Nat.id in Hall by lia.
  assert (Hin : In (Z.to_nat b) (seq 0 256)) by (apply in_seq; lia).
  specialize (Hall Hin). cbv zeta in Hall.
  apply andb_prop in Hall as [Hall H4].
  apply andb_prop in Hall as [Hall H3].
  apply andb_prop in Hall as [H1 H2].
  apply Nat.eqb_eq in H1.
  apply bool_decide_eq_true in H2, H3.
  repeat split; try assumption.
  destruct (normalize_hex_byte (format_02X b)) as [|[t|]]; try discriminate.
  apply String.eqb_eq in H4. now subst.
Qed.

Lemma format_02X_round_trip_witness :
  0 <= 0xA5 < 256 /\
  format_02X 0xA5 = "A5"%string /\
  Py.int16 (format_02X 0xA5) = Some 0xA5 /\
  fromhex (format_02X 0xA5) = Some [0xA5] /\
  normalize_hex_byte (format_02X 0xA5) = inr (Some (format_02X 0xA5)).
Proof.
  split; [lia|]. split; [reflexivity|].
  apply (format_02X_round_trip 0xA5). lia.
Defined.

Lemma fmt_bytes_cons (b : Z) (bs : list Z) :
  bs <> [] ->
  fmt_bytes (b :: bs)
  = String.append (format_02X b) (String " "%char (fmt_bytes bs)).
Proof.
  intros Hne. unfold fmt_bytes. destruct bs as [|b' bs]; [congruence|].
  reflexivity.
Qed.

(** X2.  [bytes.fromhex] reads back what [fmt_bytes] prints: for bytes of
    0..255 the text [fmt_bytes] gives parses to the same bytes, so
    [make_msg] with an id [int] accepts and that text builds the frame with
    exactly these data bytes. *)
Theorem fromhex_fmt_bytes (bs : list Z) :
  Forall (fun b => 0 <= b < 256) bs ->
  fromhex (fmt_bytes bs) = Some bs /\
  forall can_id_hex arb_id,
    Py.int16 can_id_hex = Some arb_id ->
    make_msg can_id_hex (fmt_bytes bs) = inr (mkFrame arb_id bs).
Proof.
  intros Hall.
  assert (Hfrom : fromhex (fmt_bytes bs) = Some bs).
  { induction Hall as [|b bs Hb Hall IH]; [reflexivity|].
    destruct (format_02X_digits b Hb) as (h & l & Hf & Hblank & Hh & Hl).
    destruct bs as [|b' bs'].
    - unfold fmt_bytes. cbn [map join]. rewrite Hf.
      rewrite (fromhex_two h l _ _ _ Hblank Hh Hl). cbn.
      f_equal. f_equal. pose proof (Z.div_mod b 16). lia.
    - rewrite fmt_bytes_cons by discriminate. rewrite Hf.
      change (String.append (String h (String l EmptyString)) ?r) with (String h (String l r)).
      rewrite (fromhex_two h l _ _ _ Hblank Hh Hl).
      change (fromhex (String " " (fmt_bytes (b' :: bs')))) with (fromhex (fmt_bytes (b' :: bs'))).
      rewrite IH. cbn. f_equal. f_equal. pose proof (Z.div_mod b 16). lia. }
  split; [exact Hfrom|].
  intros can_id_hex arb_id Hid. unfold make_msg. now rewrite Hid, Hfrom.
Qed.

Lemma fromhex_fmt_bytes_witness :
  Forall (fun b => 0 <= b < 256) [0x29; 0x02; 0x10; 0x03] /\
  fmt_bytes [0x29; 0x02; 0x10; 0x03] = "29 02 10 03"%string /\
  fromhex (fmt_bytes [0x29; 0x02; 0x10; 0x03]) = Some [0x29; 0x02; 0x10; 0x03].
Proof.
  assert (H : Forall (fun b => 0 <= b < 256) [0x29; 0x02; 0x10; 0x03])
    by (repeat constructor; lia).
  split; [exact H|]. split; [reflexivity|].
  exact (proj1 (fromhex_fmt_bytes _ H)).
Defined.

End HexText.

Section Product.

Import PyFmt.

Context {A : Type}.

Lemma product_length (pools : list (list A)) :
  length (product pools) = foldr (fun pool n => (length pool * n)%nat) 1%nat pools.
Proof.
  induction pools as [|pool rest IH]; [reflexivity|].
  cbn [product foldr]. rewrite <- IH. clear IH.
  induction pool as [|x pool IHp]; [reflexivity|].
  cbn [flat_map length]. rewrite length_app, length_map, IHp. cbn [Nat.mul]. lia.
Qed.

Lemma product_In (pools : list (list A)) (x : list A) :
  In x (product pools) <-> Forall2 (fun a pool => In a pool) x pools.
Proof.
  revert x. induction pools as [|pool rest IH]; intros x; cbn [product].
  - split.
    + intros [<-|[]]. constructor.
    + intros H. inversion H. now left.
  - rewrite in_flat_map. split.
    + intros (a & Ha & Hx). apply in_map_iff in Hx as (y & <- & Hy).
      constructor; [exact Ha | now apply IH].
    + intros H. inversion H as [|a pool' y rest' Ha Hy]; subst.
      exists a. split; [exact Ha|]. apply in_map_iff. exists y.
      split; [reflexivity | now apply IH].
Qed.

Lemma product_NoDup (pools : list (list A)) :
  Forall NoDup pools -> NoDup (product pools).
Proof.
  induction 1 as [|pool rest Hp _ IH]; cbn [product].
  - apply NoDup_singleton.
  - induction Hp as [|a pool Ha Hp IHp]; cbn [flat_map]; [constructor|].
    apply NoDup_app. split; [|split].
    + apply NoDup_fmap_2; [|exact IH]. intros ? ? [= ->]. reflexivity.
    + intros x Hx Hx'. apply list_elem_of_In in Hx, Hx'.
      apply in_map_iff in Hx as (y & <- & _).
      apply in_flat_map in Hx' as (a' & Ha' & Hy).
      apply in_map_iff in Hy as (y' & [= <- <-] & _).
      apply Ha. now apply list_elem_of_In.
    + exact IHp.
Qed.

Lemma product_snoc (pools : list (list A)) (pool : list A) :
  product (pools ++ [pool])
  = flat_map (fun c => map (fun x => c ++ [x]) pool) (product pools).
Proof.
  induction pools as [|p rest IH]; cbn [product app].
  - cbn [flat_map]. rewrite app_nil_r.
    induction pool as [|x pool IHp]; [reflexivity|].
    cbn [flat_map map app] in *. now rewrite IHp.
  - rewrite IH. clear IH.
    induction p as [|a p IHp]; [reflexivity|].
    cbn [flat_map]. rewrite flat_map_app, <- IHp. f_equal.
    generalize (product rest). intros l.
    induction l as [|c l IHl]; [reflexivity|].
    cbn [map flat_map]. rewrite map_app, IHl. f_equal.
    now rewrite map_map.
Qed.

End Product.

Lemma Forall2_rev {A B} (P : A -> B -> Prop) (l : list A) (k : list B) :
  Forall2 P l k -> Forall2 P (rev l) (rev k).
Proof.
  induction 1 as [|x y l k Hxy _ IH]; [constructor|].
  cbn [rev]. apply Forall2_app; [exact IH | now constructor].
Qed.

Section Combinations.

Import Codec PyFmt CanUtils TestPage.

Lemma hex_choices_length : length hex_choices = 256%nat.
Proof. reflexivity. Qed.

Lemma hex_choices_NoDup : NoDup hex_choices.
Proof.
  apply (bool_decide_eq_true_1 (NoDup hex_choices)). vm_compute. reflexivity.
Qed.

Lemma choices_NoDup (tokens : list (option string)) : Forall NoDup (choices tokens).
Proof.
  unfold choices. apply Forall_fmap, Forall_forall. intros [t|] _; cbn.
  - apply NoDup_singleton.
  - apply hex_choices_NoDup.
Qed.

Lemma choices_length (tokens : list (option string)) :
  Z.of_nat (foldr (fun pool n => (length pool * n)%nat) 1%nat (choices tokens))
  = 256 ^ Z.of_nat (wildcards tokens).
Proof.
  unfold wildcards.
  induction tokens as [|[t|] tokens IH]; cbn [choices map foldr List.filter length].
  - reflexivity.
  - fold (choices tokens). rewrite <- IH. lia.
  - fold (choices tokens). rewrite hex_choices_length.
    rewrite (Nat2Z.inj_succ (length (List.filter _ tokens))), Z.pow_succ_r by lia.
    rewrite Nat2Z.inj_mul, IH. lia.
Qed.

Lemma rev_pools_length (pools : list (list string)) :
  foldr (fun pool n => (length pool * n)%nat) 1%nat (rev pools)
  = foldr (fun pool n => (length pool * n)%nat) 1%nat pools.
Proof.
  induction pools as [|p rest IH]; [reflexivity|].
  cbn [rev foldr]. rewrite <- IH. clear IH.
  induction (rev rest) as [|q l IHl]; cbn [app foldr]; [lia|].
  rewrite IHl. lia.
Qed.

Lemma fits_product (tokens : list (option string)) (combo : list string) :
  fits tokens combo <-> Forall2 (fun a pool => In a pool) combo (choices tokens).
Proof.
  unfold fits, choices. revert combo.
  induction tokens as [|t tokens IH]; intros combo; cbn [map].
  - split; intros H; inversion H; constructor.
  - split; intros H; inversion H; subst; constructor; try (now apply IH).
    + destruct t; [now left | assumption].
    + destruct t; [|assumption].
      match goal with H : In _ [_] |- _ => destruct H as [<-|[]] end. reflexivity.
Qed.

Lemma tokens_total (fields : list string) (tokens : list (option string)) (total : Z) :
  tokens_from_boxes fields = inr (tokens, total) ->
  total = 256 ^ Z.of_nat (wildcards tokens) /\ length tokens = length fields.
Proof.
  unfold tokens_from_boxes. intros H.
  destruct (fields_valid_or_first_invalid fields)
    as [[ts Hts] | (pre & v & post & e & -> & Hpre & Hv)].
  - rewrite (tokens_loop_ok _ _ _ _ Hts) in H. cbn [app] in H.
    injection H as <- <-. split; [lia|].
    symmetry. eapply Forall2_length, Hts.
  - rewrite (tokens_loop_fail _ _ _ _ _ _ Hpre Hv) in H. discriminate.
Qed.

(** X3.  When [tokens_from_boxes] accepts the fields, the number of
    combinations [on_send] goes through, in bmw.py and in test.py alike, is
    the [total] it returned (the number the question before a large run is
    asked for), and every combination has one text per field. *)
Theorem combos_count (fields : list string) (tokens : list (option string))
    (total : Z) :
  tokens_from_boxes fields = inr (tokens, total) ->
  Z.of_nat (length (combos tokens)) = total /\
  Z.of_nat (length (combo_iter tokens)) = total /\
  Forall (fun combo => length combo = length fields) (combos tokens).
Proof.
  intros H. apply tokens_total in H as [-> Hlen].
  unfold combos, combo_iter. rewrite length_map, !product_length.
  rewrite rev_pools_length, choices_length. repeat split.
  apply Forall_forall. intros combo Hin.
  apply list_elem_of_In, product_In, Forall2_length in Hin.
  unfold choices in Hin. rewrite length_map in Hin. lia.
Qed.

Lemma combos_count_witness :
  tokens_from_boxes ["29"; "?"; "10"; ""; "0"; "0"; "0"; "0"]%string
  = inr ([Some "29"; None; Some "10"; None; Some "00"; Some "00"; Some "00"; Some "00"]%string,
         65536) /\
  Z.of_nat (length (combos
     [Some "29"; None; Some "10"; None; Some "00"; Some "00"; Some "00"; Some "00"]%string))
  = 65536.
Proof.
  assert (H : tokens_from_boxes ["29"; "?"; "10"; ""; "0"; "0"; "0"; "0"]%string
    = inr ([Some "29"; None; Some "10"; None; Some "00"; Some "00"; Some "00"; Some "00"]%string,
           65536)) by reflexivity.
  split; [exact H|].
  exact (proj1 (combos_count _ _ _ H)).
Defined.

Lemma combos_In (tokens : list (option string)) (combo : list string) :
  In combo (combos tokens) <-> fits tokens combo.
Proof. unfold combos. now rewrite product_In, fits_product. Qed.

Lemma combo_iter_In (tokens : list (option string)) (combo : list string) :
  In combo (combo_iter tokens) <-> fits tokens combo.
Proof.
  unfold combo_iter. rewrite in_map_iff, fits_product. split.
  - intros (c & <- & Hc). apply product_In in Hc.
    apply Forall2_rev in Hc. now rewrite rev_involutive in Hc.
  - intros Hc. exists (rev combo). split; [apply rev_involutive|].
    apply product_In. now apply Forall2_rev.
Qed.

(** X4.  The two pages send the same combinations: a list is one of them
    exactly when it keeps every fixed token and has the text of some byte
    of 0..255 at every wildcard; and neither page sends a combination
    twice. *)
Theorem combos_fit (tokens : list (option string)) :
  (forall combo, In combo (combos tokens) <-> fits tokens combo) /\
  (forall combo, In combo (combo_iter tokens) <-> fits tokens combo) /\
  NoDup (combos tokens) /\ NoDup (combo_iter tokens) /\
  (forall x, In x hex_choices <-> exists b, 0 <= b < 256 /\ x = format_02X b).
Proof.
  repeat split; try (apply combos_In); try (apply combo_iter_In).
  - apply product_NoDup, choices_NoDup.
  - unfold combo_iter. apply NoDup_fmap_2.
    + intros x y Hxy. now rewrite <- (rev_involutive x), Hxy, rev_involutive.
    + apply product_NoDup, Forall_rev, choices_NoDup.
  - unfold hex_choices. rewrite in_map_iff. intros (i & <- & Hi).
    apply in_seq in Hi. exists (Z.of_nat i). split; [lia | reflexivity].
  - intros (b & Hb & ->). unfold hex_choices. apply in_map_iff.
    exists (Z.to_nat b). split; [now rewrite Z2Nat.id by lia | apply in_seq; lia].
Qed.

(** X5.  The order of the combinations.  In bmw.py the first field is the
    slowest: for each of its values in turn, all combinations of the other
    fields are sent.  In test.py the first field is the fastest: for each
    combination of the other fields in turn, it runs through its values. *)
Theorem combo_order (t : option string) (tokens : list (option string)) :
  let pool := match t with None => hex_choices | Some t => [t] end in
  combos (t :: tokens) = flat_map (fun x => map (cons x) (combos tokens)) pool /\
  combo_iter (t :: tokens)
  = flat_map (fun combo => map (fun x => x :: combo) pool) (combo_iter tokens).
Proof.
  intros pool. split; [reflexivity|].
  unfold combo_iter. cbn [choices map rev]. fold (choices tokens).
  rewrite product_snoc. fold pool.
  generalize (product (rev (choices tokens))). intros l.
  induction l as [|c l IH]; [reflexivity|].
  cbn [map flat_map]. rewrite map_app, IH. f_equal.
  rewrite map_map. apply map_ext. intros x.
  now rewrite rev_app_distr.
Qed.

End Combinations.

Section FrameData.

Import Codec PyFmt CanUtils TestPage.

Lemma join_empty_cons (x : string) (l : list string) :
  join "" (x :: l) = String.append x (join "" l).
Proof.
  destruct l as [|y l]; cbn [join].
  - induction x as [|c x IH]; [reflexivity|].
    change (String c x = String c (String.append x EmptyString)). now f_equal.
  - reflexivity.
Qed.

Lemma hex_not_blank (c : ascii) : is_hex c = true -> Py.is_blank c = false.
Proof.
  destruct c as [[] [] [] [] [] [] [] []]; vm_compute; congruence.
Qed.

Lemma int16_two_hex (a b : ascii) (h l : Z) :
  Py.hex_digit a = Some h -> Py.hex_digit b = Some l ->
  Py.int16 (String a (String b EmptyString)) = Some (16 * h + l).
Proof.
  intros Ha Hb.
  pose proof (by_all_pairs
    (fun a b =>
       match Py.hex_digit a, Py.hex_digit b with
       | Some h, Some l =>
           bool_decide (Py.int16 (String a (String b EmptyString)) = Some (16 * h + l))
       | _, _ => true
       end)) as H.
  specialize (H ltac:(vm_compute; reflexivity) a b). cbv beta in H.
  rewrite Ha, Hb in H. now apply bool_decide_eq_true in H.
Qed.

(** A text of two hex digits, as a fixed token or a generated one. *)
Lemma hex_choices_hex2 (x : string) : In x hex_choices -> is_hex2 x = true.
Proof.
  unfold hex_choices. rewrite in_map_iff. intros (i & <- & Hi). apply in_seq in Hi.
  destruct (format_02X_digits (Z.of_nat i)) as (h & l & -> & _ & Hh & Hl); [lia|].
  cbn. now rewrite Hh, Hl.
Qed.

Lemma fromhex_hex2 (x : string) (r : string) :
  is_hex2 x = true ->
  exists b, Py.int16 x = Some b /\
            fromhex (String.append x r) = (cons b) <$> fromhex r.
Proof.
  destruct x as [|a [|b [|? ?]]]; try discriminate. cbn [is_hex2].
  destruct (Py.hex_digit a) as [h|] eqn:Ha; [|discriminate].
  destruct (Py.hex_digit b) as [l|] eqn:Hb; [|discriminate]. intros _.
  exists (16 * h + l). split; [now apply int16_two_hex|].
  change (String.append (String a (String b EmptyString)) r) with (String a (String b r)).
  apply fromhex_two; try assumption.
  apply hex_not_blank. unfold is_hex. now rewrite Ha.
Qed.

Lemma frame_data_hex2 (combo : list string) :
  Forall (fun x => is_hex2 x = true) combo ->
  exists bs, frame_data combo = Some bs /\
             Forall2 (fun x b => Py.int16 x = Some b) combo bs.
Proof.
  unfold frame_data.
  induction 1 as [|x combo Hx _ (bs & Hbs & Hall)].
  - exists []. split; [reflexivity | constructor].
  - destruct (fromhex_hex2 x (join "" combo) Hx) as (b & Hb & Hf).
    exists (b :: bs). rewrite join_empty_cons, Hf, Hbs.
    split; [reflexivity | now constructor].
Qed.

(** X6.  When every fixed token is two hex digits, each combination of
    either page is turned by [bytes.fromhex] of its joined texts into a
    frame of one byte per field, each byte of 0..255 and equal to the hex
    value of its text. *)
Theorem hex_tokens_send_bytes (tokens : list (option string)) (combo : list string) :
  Forall (fun t => match t with Some s => is_hex2 s = true | None => True end) tokens ->
  In combo (combos tokens) \/ In combo (combo_iter tokens) ->
  exists bs,
    frame_data combo = Some bs /\
    length bs = length tokens /\
    Forall2 (fun x b => Py.int16 x = Some b) combo bs /\
    Forall (fun b => 0 <= b < 256) bs.
Proof.
  intros Htok Hin.
  assert (Hfit : fits tokens combo).
  { destruct Hin as [Hin|Hin]; [now apply combos_In | now apply combo_iter_In]. }
  assert (Hhex : Forall (fun x => is_hex2 x = true) combo).
  { unfold fits in Hfit. clear Hin.
    induction Hfit as [|t x ts xs Htx _ IH]; [constructor|].
    inversion Htok as [|? ? Ht Hts]; subst. constructor; [|now apply IH].
    destruct t as [s|]; [now subst | now apply hex_choices_hex2]. }
  destruct (frame_data_hex2 combo Hhex) as (bs & Hbs & Hall).
  exists bs. repeat split; try assumption.
  - apply Forall2_length in Hall. apply Forall2_length in Hfit. lia.
  - now apply (fromhex_range _ _ Hbs).
Qed.

Lemma hex_tokens_send_bytes_witness :
  In ["29"; "A7"; "10"]%string (combos [Some "29"; None; Some "10"]%string) /\
  frame_data ["29"; "A7"; "10"]%string = Some [0x29; 0xA7; 0x10] /\
  exists bs,
    frame_data ["29"; "A7"; "10"]%string = Some bs /\
    length bs = length [Some "29"; None; Some "10"]%string /\
    Forall2 (fun x b => Py.int16 x = Some b) ["29"; "A7"; "10"]%string bs /\
    Forall (fun b => 0 <= b < 256) bs.
Proof.
  assert (Hin : In ["29"; "A7"; "10"]%string (combos [Some "29"; None; Some "10"]%string)).
  { apply combos_In.
    constructor; [reflexivity|]. constructor.
    - apply in_map_iff. exists 167%nat. split; [reflexivity | apply in_seq; lia].
    - constructor; [reflexivity | constructor]. }
  split; [exact Hin|]. split; [reflexivity|].
  apply (hex_tokens_send_bytes [Some "29"; None; Some "10"]%string).
  - repeat constructor.
  - left. exact Hin.
Defined.

End FrameData.

Section SignedField.

Import Codec PyFmt CanUtils TestPage.

Lemma chars_append (a b : string) :
  list_ascii_of_string (String.append a b)
  = list_ascii_of_string a ++ list_ascii_of_string b.
Proof.
  induction a as [|c a IH]; [reflexivity|].
  change (String.append (String c a) b) with (String c (String.append a b)).
  cbn [list_ascii_of_string app]. now f_equal.
Qed.

Lemma join_chars (x : string) (combo : list string) (c : ascii) :
  In x combo -> In c (list_ascii_of_string x) ->
  In c (list_ascii_of_string (join "" combo)).
Proof.
  induction combo as [|y combo IH]; [intros []|].
  intros [->|Hin] Hc; rewrite join_empty_cons, chars_append; apply in_or_app.
  - now left.
  - right. now apply IH.
Qed.

Lemma fits_fixed (tokens : list (option string)) (combo : list string) (t : string) :
  fits tokens combo -> In (Some t) tokens -> In t combo.
Proof.
  unfold fits. induction 1 as [|u x ts xs Hux _ IH]; [intros []|].
  intros [->|Hin]; [left; now subst | right; now apply IH].
Qed.

Lemma tokens_normalized (fields : list string) (tokens : list (option string))
    (total : Z) :
  tokens_from_boxes fields = inr (tokens, total) ->
  Forall2 (fun v t => normalize_hex_byte v = inr t) fields tokens.
Proof.
  unfold tokens_from_boxes. intros H.
  destruct (fields_valid_or_first_invalid fields)
    as [[ts Hts] | (pre & v & post & e & -> & Hpre & Hv)].
  - rewrite (tokens_loop_ok _ _ _ _ Hts) in H. cbn [app] in H.
    now injection H as <- <-.
  - rewrite (tokens_loop_fail _ _ _ _ _ _ Hpre Hv) in H. discriminate.
Qed.

Lemma signed_normalized (sg d : ascii) :
  is_sign sg = true -> is_hex d = true ->
  normalize_hex_byte (String sg (String d EmptyString))
  = inr (Some (String sg (String (Py.upper_char d) EmptyString))).
Proof.
  intros Hs Hd.
  pose proof (by_all_pairs
    (fun a b =>
       if is_sign a && is_hex b then
         match normalize_hex_byte (String a (String b EmptyString)) with
         | inr (Some t) => String.eqb t (String a (String (Py.upper_char b) EmptyString))
         | _ => false
         end
       else true)) as H.
  specialize (H ltac:(vm_compute; reflexivity) sg d). cbv beta in H.
  rewrite Hs, Hd in H. cbn [andb] in H.
  destruct (normalize_hex_byte (String sg (String d EmptyString))) as [|[t|]];
    try discriminate.
  apply String.eqb_eq in H. now subst.
Qed.

Lemma sign_no_hex (sg : ascii) :
  is_sign sg = true -> Py.is_blank sg = false /\ is_hex sg = false.
Proof.
  unfold is_sign. intros H. apply orb_prop in H as [H|H];
    apply Ascii.eqb_eq in H; subst; split; reflexivity.
Qed.

(** X7.  A field holding a sign and one hex digit (+5, -a) is accepted by
    [tokens_from_boxes], yet no frame can be built from it: for every
    combination of either page [bytes.fromhex] rejects the joined texts, so
    the page ends with the error dialog before anything is sent. *)
Theorem signed_field_never_sent (fields : list string)
    (tokens : list (option string)) (total : Z) (sg d : ascii)
    (combo : list string) :
  tokens_from_boxes fields = inr (tokens, total) ->
  In (String sg (String d EmptyString)) fields ->
  is_sign sg = true -> is_hex d = true ->
  In combo (combos tokens) \/ In combo (combo_iter tokens) ->
  frame_data combo = None.
Proof.
  intros Htok Hfield Hs Hd Hin.
  apply tokens_normalized in Htok.
  assert (Ht : In (Some (String sg (String (Py.upper_char d) EmptyString))) tokens).
  { clear Hin. induction Htok as [|v t vs ts Hvt _ IH]; [destruct Hfield|].
    destruct Hfield as [->|Hfield]; [left | right; now apply IH].
    rewrite (signed_normalized sg d Hs Hd) in Hvt. now injection Hvt as <-. }
  assert (Hfit : fits tokens combo).
  { destruct Hin as [Hin|Hin]; [now apply combos_In | now apply combo_iter_In]. }
  pose proof (fits_fixed _ _ _ Hfit Ht) as Hx.
  unfold frame_data.
  destruct (fromhex (join "" combo)) as [bs|] eqn:Hfrom; [|reflexivity].
  exfalso.
  pose proof (fromhex_chars _ _ Hfrom) as Hchars.
  rewrite Forall_forall in Hchars.
  specialize (Hchars sg).
  destruct (sign_no_hex sg Hs) as [Hb Hh].
  destruct Hchars as [Hc|Hc]; [|congruence|congruence].
  apply list_elem_of_In. eapply join_chars; [exact Hx|]. now left.
Qed.

Lemma signed_field_never_sent_witness :
  tokens_from_boxes ["29"; "+5"; "00"; "00"; "00"; "00"; "00"; "00"]%string
  = inr ([Some "29"; Some "+5"; Some "00"; Some "00"; Some "00"; Some "00";
          Some "00"; Some "00"]%string, 1) /\
  frame_data ["29"; "+5"; "00"; "00"; "00"; "00"; "00"; "00"]%string = None.
Proof.
  assert (H : tokens_from_boxes ["29"; "+5"; "00"; "00"; "00"; "00"; "00"; "00"]%string
    = inr ([Some "29"; Some "+5"; Some "00"; Some "00"; Some "00"; Some "00";
            Some "00"; Some "00"]%string, 1)) by reflexivity.
  split; [exact H|].
  apply (signed_field_never_sent _ _ _ "+"%char "5"%char _ H).
  - right. left. reflexivity.
  - reflexivity.
  - reflexivity.
  - left. left. reflexivity.
Defined.

End SignedField.

Section Bursts.

Import TestPage.

Context {A : Type}.

Lemma burst_loop_inv (max_parallel : nat) (combos : list A) :
  forall burst sent,
  (0 < max_parallel)%nat ->
  (length burst < max_parallel)%nat ->
  Forall (fun b => length b = max_parallel) sent ->
  let '(burst', sent') := burst_loop max_parallel combos burst sent in
  concat sent' ++ burst' = concat sent ++ burst ++ combos /\
  (length burst' < max_parallel)%nat /\
  Forall (fun b => length b = max_parallel) sent'.
Proof.
  induction combos as [|c rest IH]; intros burst sent Hmp Hb Hs; cbn [burst_loop].
  - rewrite app_nil_r. auto.
  - destruct (length (burst ++ [c]) <? max_parallel)%nat eqn:Hlt.
    + apply Nat.ltb_lt in Hlt.
      specialize (IH (burst ++ [c]) sent Hmp Hlt Hs).
      destruct (burst_loop max_parallel rest (burst ++ [c]) sent) as [b' s'].
      destruct IH as (IH1 & IH2 & IH3). rewrite IH1, <- app_assoc. auto.
    + apply Nat.ltb_ge in Hlt. rewrite length_app in Hlt. cbn [length] in Hlt.
      assert (Hfull : length (burst ++ [c]) = max_parallel)
        by (rewrite length_app; cbn [length]; lia).
      specialize (IH [] (sent ++ [burst ++ [c]]) Hmp).
      destruct (burst_loop max_parallel rest [] (sent ++ [burst ++ [c]])) as [b' s'].
      destruct IH as (IH1 & IH2 & IH3).
      * cbn [length]. lia.
      * apply Forall_app. split; [exact Hs | now constructor].
      * rewrite IH1, concat_app. cbn [concat app]. rewrite app_nil_r, <- !app_assoc. auto.
Qed.

(** X8.  test.py sends the combinations in bursts of [max_parallel] (which
    the page forces to be at least 1): put one after the other, the bursts
    are the combinations in their order; no burst is empty or longer than
    [max_parallel], and every burst but the last is full. *)
Theorem bursts_cover (max_parallel : nat) (combos : list A) :
  (0 < max_parallel)%nat ->
  concat (bursts max_parallel combos) = combos /\
  Forall (fun b => (0 < length b <= max_parallel)%nat) (bursts max_parallel combos) /\
  forall i b, bursts max_parallel combos !! i = Some b ->
              (S i < length (bursts max_parallel combos))%nat ->
              length b = max_parallel.
Proof.
  intros Hmp. unfold bursts.
  pose proof (burst_loop_inv max_parallel combos [] [] Hmp) as H.
  destruct (burst_loop max_parallel combos [] []) as [burst sent].
  destruct H as (H1 & H2 & H3); [cbn; lia | constructor |].
  cbn [concat app] in H1.
  assert (Hsent : Forall (fun b => (0 < length b <= max_parallel)%nat) sent).
  { eapply Forall_impl; [exact H3|]. cbn. intros b ->. lia. }
  destruct burst as [|c burst].
  - rewrite app_nil_r in H1. split; [exact H1|]. split; [exact Hsent|].
    intros i b Hi _. rewrite Forall_forall in H3. apply H3.
    eapply list_elem_of_lookup_2, Hi.
  - split; [|split].
    + rewrite concat_app. cbn [concat]. now rewrite app_nil_r.
    + apply Forall_app. split; [exact Hsent|]. constructor; [|constructor].
      cbn [length] in *. lia.
    + intros i b Hi Hlen. rewrite length_app in Hlen. cbn [length] in Hlen.
      rewrite lookup_app_l in Hi by lia.
      rewrite Forall_forall in H3. apply H3. eapply list_elem_of_lookup_2, Hi.
Qed.

End Bursts.

Lemma bursts_cover_witness :
  (0 < 2)%nat /\
  TestPage.bursts 2 [1; 2; 3; 4; 5] = [[1; 2]; [3; 4]; [5]] /\
  concat (TestPage.bursts 2 [1; 2; 3; 4; 5]) = [1; 2; 3; 4; 5].
Proof.
  split; [lia|]. split; [reflexivity|].
  apply (bursts_cover 2 [1; 2; 3; 4; 5]). lia.
Defined.

Section SendSequence.

Import PyFmt CanUtils Sequences.






End SendSequence.

Lemma insert_step {A} (arr : list A) (s n : nat) (x : A) (mid : list A) :
  (s < length arr)%nat ->
  take (S s) (<[s := x]> arr) ++ mid ++ drop (S s + n) (<[s := x]> arr)
  = take s arr ++ x :: mid ++ drop (s + S n) arr.
Proof.
  intros Hs.
  rewrite (take_S_r _ s x) by (now apply list_lookup_insert_eq).
  rewrite take_insert_ge by lia.
  rewrite drop_insert_lt by lia.
  replace (S s + n)%nat with (s + S n)%nat by lia.
  now rewrite <- app_assoc.
Qed.

Section MkMsg.

Import Pcan.

Lemma foldl_insert_run {A B} (f : B -> A) (l : list B) :
  forall s arr,
  (s + length l <= length arr)%nat ->
  foldl (fun arr '(i, b) => <[i := f b]> arr) arr (zip (seq s (length l)) l)
  = take s arr ++ map f l ++ drop (s + length l) arr.
Proof.
  induction l as [|b l IH]; intros s arr Hlen; cbn [length seq zip zip_with foldl map].
  - rewrite Nat.add_0_r. cbn [app]. now rewrite take_drop.
  - cbn [length] in Hlen.
    change (zip_with pair (seq (S s) (length l)) l) with (zip (seq (S s) (length l)) l).
    rewrite IH by (rewrite length_insert; lia).
    apply insert_step. lia.
Qed.

(** X11.  [_mk_msg] always builds a message of length 8.  Its id is the
    given id reduced modulo 2^32 by the [c_uint] field, so an id of
    0..2^32-1 is kept and any other is not; its data are the first 8 of the
    given bytes, each reduced modulo 256 by the [c_ubyte] array, followed
    by zeros when fewer than 8 were given; eight bytes of 0..255 are kept
    as they are. *)
Theorem mk_msg_data (arbid : Z) (data8 : list Z) :
  ID (_mk_msg arbid data8) = arbid mod 2 ^ 32 /\
  (ID (_mk_msg arbid data8) = arbid <-> 0 <= arbid < 2 ^ 32) /\
  LEN (_mk_msg arbid data8) = 8 /\
  DATA (_mk_msg arbid data8)
  = take 8 (map (fun b => b mod 256) data8 ++ replicate 8 0) /\
  length (DATA (_mk_msg arbid data8)) = 8%nat /\
  (length data8 = 8%nat -> Forall (fun b => 0 <= b < 256) data8 ->
   DATA (_mk_msg arbid data8) = data8).
Proof.
  assert (Hd : DATA (_mk_msg arbid data8)
               = take 8 (map (fun b => b mod 256) data8 ++ replicate 8 0)).
  { unfold _mk_msg. cbn [DATA].
    rewrite (foldl_insert_run (fun b => b mod 256) (take 8 data8) 0 (replicate 8 0))
      by (rewrite length_take, length_replicate; lia).
    change (take 0 (replicate 8 0)) with (@nil Z). cbn [app].
    rewrite drop_replicate, length_take.
    destruct (decide (length data8 <= 8)%nat) as [Hle|Hgt].
    - replace (Nat.min 8 (length data8)) with (length data8) by lia.
      rewrite (take_ge data8) by lia.
      rewrite take_app_ge by (rewrite length_map; lia).
      rewrite length_map, take_replicate. do 2 f_equal. lia.
    - replace (Nat.min 8 (length data8)) with 8%nat by lia.
      cbn [Nat.add Nat.sub replicate]. rewrite app_nil_r.
      rewrite take_app_le by (rewrite length_map; lia).
      exact (fmap_take (fun b => b mod 256) 8 data8). }
  assert (Hid : ID (_mk_msg arbid data8) = arbid <-> 0 <= arbid < 2 ^ 32).
  { unfold _mk_msg. cbn [ID]. split.
    - intros H. rewrite <- H. apply Z.mod_pos_bound. reflexivity.
    - intros H. apply Z.mod_small. exact H. }
  split; [reflexivity|]. split; [exact Hid|]. split; [reflexivity|].
  split; [exact Hd|]. split.
  - rewrite Hd, length_take, length_app, length_map, length_replicate. lia.
  - intros Hlen Hall. rewrite Hd.
    rewrite take_app_le by (rewrite length_map; lia).
    rewrite take_ge by (rewrite length_map; lia).
    clear Hd Hlen Hid. induction Hall as [|b l Hb _ IH]; [reflexivity|].
    cbn [map]. rewrite IH, Z.mod_small by lia. reflexivity.
Qed.

End MkMsg.

Section ApplyValues.

Import TablePage.

Lemma apply_first_loop (values : list string) :
  forall n s k vars count,
  (s + n <= length vars)%nat ->
  foldl (fun '(vars, _) '(count, (var, val)) => (<[var := val]> vars, count))
        (vars, count)
        (zip (seq k (length (zip (seq s n) values))) (zip (seq s n) values))
  = (take s vars ++ take n values ++ drop (s + Nat.min n (length values)) vars,
     if (Nat.min n (length values) =? 0)%nat then count
     else (k + Nat.min n (length values) - 1)%nat).
Proof.
  induction values as [|v values IH]; intros n s k vars count Hlen.
  - rewrite zip_with_nil_r. cbn [length seq zip zip_with foldl].
    rewrite Nat.min_0_r, Nat.add_0_r, take_nil. cbn [app Nat.eqb].
    now rewrite take_drop.
  - destruct n as [|n].
    + cbn [seq zip zip_with length foldl take app Nat.min Nat.eqb].
      now rewrite Nat.add_0_r, take_drop.
    + cbn [seq zip zip_with length foldl].
      change (zip_with pair (seq (S s) n) values) with (zip (seq (S s) n) values).
      change (zip_with pair (seq (S k) (length (zip (seq (S s) n) values)))
                (zip (seq (S s) n) values))
        with (zip (seq (S k) (length (zip (seq (S s) n) values)))
                (zip (seq (S s) n) values)).
      rewrite IH by (rewrite length_insert; lia).
      cbn [take length Nat.min Nat.eqb]. f_equal.
      * cbn [app]. apply insert_step. lia.
      * destruct (Nat.min n (length values)); cbn [Nat.eqb]; lia.
Qed.

Lemma apply_second_loop (n : nat) :
  forall s (vars : list string),
  (s + n <= length vars)%nat ->
  foldl (fun vars var => <[var := "-"%string]> vars) vars (seq s n)
  = take s vars ++ replicate n "-"%string ++ drop (s + n) vars.
Proof.
  induction n as [|n IH]; intros s vars Hlen; cbn [seq foldl replicate].
  - rewrite Nat.add_0_r. cbn [app]. now rewrite take_drop.
  - rewrite IH by (rewrite length_insert; lia).
    cbn [app]. apply (insert_step vars s n "-"%string (replicate n "-"%string)). lia.
Qed.

Lemma apply_values_parts (vars values : list string) :
  _apply_values vars values
  = take (length vars) values ++ replicate (length vars - length values) "-"%string /\
  length (_apply_values vars values) = length vars.
Proof.
  assert (H : _apply_values vars values
    = take (length vars) values ++ replicate (length vars - length values) "-"%string).
  { unfold _apply_values.
    rewrite (apply_first_loop values (length vars) 0 1 vars 0) by lia.
    cbn [Nat.add]. change (take 0 vars) with (@nil string). cbn [app].
    set (m := Nat.min (length vars) (length values)).
    assert (Hc : (if (m =? 0)%nat then 0%nat else (S m - 1)%nat) = m)
      by (destruct m; cbn [Nat.eqb]; lia).
    assert (Hl : length (take (length vars) values ++ drop m vars) = length vars)
      by (rewrite length_app, length_take, length_drop; fold m; lia).
    rewrite Hc, Hl, drop_seq. cbn [Nat.add].
    rewrite apply_second_loop by (rewrite Hl; lia).
    rewrite take_app_length' by (rewrite length_take; fold m; lia).
    rewrite drop_ge by (rewrite Hl; lia).
    rewrite app_nil_r. f_equal. f_equal. lia. }
  split; [exact H|].
  rewrite H, length_app, length_take, length_replicate. lia.
Qed.

(** X12.  [_apply_values] sets every variable of the table and no other:
    variable [i] gets value [i] when there is one and a dash otherwise;
    values beyond the last variable are dropped. *)
Theorem apply_values_spec (vars values : list string) :
  _apply_values vars values
  = take (length vars) values ++ replicate (length vars - length values) "-"%string /\
  length (_apply_values vars values) = length vars /\
  forall i, (i < length vars)%nat ->
    _apply_values vars values !! i = Some (default "-"%string (values !! i)).
Proof.
  destruct (apply_values_parts vars values) as [H Hlen].
  split; [exact H|]. split; [exact Hlen|].
  intros i Hi. rewrite H.
  destruct (decide (i < length values)%nat) as [Hlt|Hge].
  - rewrite lookup_app_l by (rewrite length_take; lia).
    rewrite lookup_take_lt by lia.
    destruct (values !! i) eqn:E; [reflexivity|].
    apply lookup_ge_None in E. lia.
  - rewrite lookup_app_r by (rewrite length_take; lia).
    rewrite (proj2 (lookup_ge_None values i)) by lia.
    rewrite length_take. cbn [default]. apply lookup_replicate_2. lia.
Qed.

End ApplyValues.

Section LedAnyOn.

Import UdsDetectors.

Lemma range_by_2_In (n i : nat) :
  In i (range_by_2 n) <-> (Nat.even i = true /\ i < n)%nat.
Proof.
  unfold range_by_2. rewrite in_map_iff. split.
  - intros (k & <- & Hk). apply in_seq in Hk.
    split; [now rewrite Nat.even_mul|].
    pose proof (Nat.div2_odd (n + 1)) as Ho.
    destruct (Nat.odd (n + 1)); cbn [Nat.b2n] in Ho; lia.
  - intros [He Hi]. apply Nat.even_spec in He as [k ->].
    exists k. split; [reflexivity|]. apply in_seq.
    pose proof (Nat.div2_odd (n + 1)) as Ho.
    destruct (Nat.odd (n + 1)); cbn [Nat.b2n] in Ho; lia.
Qed.

Lemma led_loop_true (payload : list Z) (idxs : list nat) :
  led_loop payload idxs = true <->
  exists i, In i idxs /\
    (((i + 1 < length payload)%nat /\ 0 < byte_at payload (i + 1))
     \/ 5 <= byte_at payload i).
Proof.
  induction idxs as [|i rest IH]; cbn [led_loop].
  - split; [discriminate | intros (? & [] & _)].
  - destruct ((0 <? (if (i + 1 <? length payload)%nat then byte_at payload (i + 1) else 0))
              || (50 <=? byte_at payload i * 10)) eqn:Hc.
    + split; [intros _ | reflexivity].
      exists i. split; [now left|].
      apply orb_prop in Hc as [Hc|Hc].
      * left. destruct (i + 1 <? length payload)%nat eqn:Hl; [|discriminate].
        apply Nat.ltb_lt in Hl. apply Z.ltb_lt in Hc. auto.
      * right. apply Z.leb_le in Hc. lia.
    + apply orb_false_elim in Hc as [Hc1 Hc2].
      apply Z.leb_gt in Hc2.
      rewrite IH. split.
      * intros (j & Hj & H). exists j. split; [now right | exact H].
      * intros (j & [<-|Hj] & H); [|exists j; auto].
        exfalso. destruct H as [[Hl Hp]|H]; [|lia].
        apply Nat.ltb_lt in Hl. rewrite Hl in Hc1. apply Z.ltb_ge in Hc1. lia.
Qed.

(** X13.  [LEDAnyOn.read_state] reads the payload as pairs (current, duty
    cycle): after a successful read it answers [True] exactly when, among
    the first 20 bytes, a byte at an even position is 5 or more (50 mA) or a
    byte at an odd position is more than 0; an empty payload gives [False]. *)
Theorem led_any_on_spec (payload : list Z) :
  led_any_on payload = true <->
  exists j, (j < Nat.min (length payload) 20)%nat /\
    ((Nat.even j = true /\ 5 <= byte_at payload j)
     \/ (Nat.odd j = true /\ 0 < byte_at payload j)).
Proof.
  unfold led_any_on. rewrite led_loop_true. split.
  - intros (i & Hi & H). apply range_by_2_In in Hi as [He Hi].
    destruct H as [[Hl Hp]|H].
    + exists (i + 1)%nat. split.
      * apply Nat.even_spec in He as [k ->]. lia.
      * right. split; [|exact Hp].
        rewrite Nat.odd_add, <- Nat.negb_even, He. reflexivity.
    + exists i. split; [exact Hi | left; auto].
  - intros (j & Hj & [[He H]|[Ho H]]).
    + exists j. split; [apply range_by_2_In; auto | right; exact H].
    + destruct j as [|i]; [discriminate|].
      exists i. split.
      * apply range_by_2_In. split; [|lia].
        rewrite Nat.odd_succ in Ho. exact Ho.
      * left. replace (i + 1)%nat with (S i) by lia. split; [lia | exact H].
Qed.

End LedAnyOn.

Section MoveDetectors.

Import UdsDetectors.

Variable F : Type.
Variable tenth : Z -> F.
Variable moved : F -> F -> F -> bool.

Lemma ahl_run_baseline (payloads : list (list Z)) :
  forall d i,
  ahl_run F tenth moved d payloads !! i = Some true ->
  prev F d = None ->
  exists j payload, (j < i)%nat /\ payloads !! j = Some payload /\
                    (2 <= length payload)%nat.
Proof.
  induction payloads as [|payload rest IH]; intros d i; cbn [ahl_run]; [discriminate|].
  unfold ahl_step.
  destruct (length payload <? 2)%nat eqn:Hlen.
  - destruct i as [|i]; [discriminate|]. cbn [lookup list_lookup]. intros Hi Hp.
    destruct (IH d i Hi Hp) as (j & p & Hj & Hl & Hlen').
    exists (S j), p. split; [lia | auto].
  - apply Nat.ltb_ge in Hlen. intros Hi Hp. rewrite Hp in Hi.
    destruct i as [|i]; [discriminate|].
    exists 0%nat, payload. split; [lia | auto].
Qed.

Lemma lwr_run_baseline (payloads : list (list Z)) :
  forall d i,
  lwr_run F tenth moved d payloads !! i = Some true ->
  prev F d = None ->
  exists j payload, (j < i)%nat /\ payloads !! j = Some payload /\ payload <> [].
Proof.
  induction payloads as [|payload rest IH]; intros d i; cbn [lwr_run]; [discriminate|].
  unfold lwr_step.
  destruct payload as [|x payload].
  - destruct i as [|i]; [discriminate|]. cbn [lookup list_lookup]. intros Hi Hp.
    destruct (IH d i Hi Hp) as (j & p & Hj & Hl & Hlen').
    exists (S j), p. split; [lia | auto].
  - intros Hi Hp. rewrite Hp in Hi.
    destruct i as [|i]; [discriminate|].
    exists 0%nat, (x :: payload). split; [lia | auto].
Qed.

(** X14.  [AHLMove] and [LWRMove] never report on the first usable payload
    after [reset]: an answer [True] is always preceded by an earlier payload
    long enough to set the baseline (2 bytes for AHL, 1 for LWR), whatever
    the threshold; and a [TimeoutError] of the read leaves the detector as
    it was. *)
Theorem move_needs_baseline (d : Move F) (payloads : list (list Z)) (i : nat) :
  (ahl_run F tenth moved (move_reset F d) payloads !! i = Some true ->
   exists j payload, (j < i)%nat /\ payloads !! j = Some payload /\
                     (2 <= length payload)%nat) /\
  (lwr_run F tenth moved (move_reset F d) payloads !! i = Some true ->
   exists j payload, (j < i)%nat /\ payloads !! j = Some payload /\ payload <> []) /\
  (forall b p e b',
     TriggerUds.uds_read_by_id b 0xD663 p 1000 = (inl e, b') ->
     AHLMove_read_state F tenth moved d b p = (inl e, d, b')) /\
  (forall b p e b',
     TriggerUds.uds_read_by_id b 0xD63B p 1000 = (inl e, b') ->
     LWRMove_read_state F tenth moved d b p = (inl e, d, b')).
Proof.
  repeat split.
  - intros H. now apply (ahl_run_baseline payloads (move_reset F d) i).
  - intros H. now apply (lwr_run_baseline payloads (move_reset F d) i).
  - intros b p e b' H. unfold AHLMove_read_state. now rewrite H.
  - intros b p e b' H. unfold LWRMove_read_state. now rewrite H.
Qed.

End MoveDetectors.

Lemma move_needs_baseline_witness :
  UdsDetectors.ahl_run Z (fun raw => raw) (fun val prev delta => delta <=? Z.abs (val - prev))
    (UdsDetectors.move_reset Z (UdsDetectors.mkMove Z (Some 7) 10))
    [[0x01]; [0x00; 0x64]; [0x00; 0x64]; [0x00; 0x96]]
  = [false; false; false; true] /\
  exists j payload, (j < 3)%nat /\
    [[0x01]; [0x00; 0x64]; [0x00; 0x64]; [0x00; 0x96]] !! j = Some payload /\
    (2 <= length payload)%nat.
Proof.
  split; [reflexivity|].
  apply (proj1 (move_needs_baseline Z (fun raw => raw)
                  (fun val prev delta => delta <=? Z.abs (val - prev))
                  (UdsDetectors.mkMove Z (Some 7) 10)
                  [[0x01]; [0x00; 0x64]; [0x00; 0x64]; [0x00; 0x96]] 3)).
  reflexivity.
Defined.

Section CanBitEdges.

Import Detector.

Lemma relevant_masked (d : CanBit) (f : Frame) (x : Z) :
  masked_byte d f = Some x ->
  (arbitration_id f =? cid d) && (byte d <? Z.of_nat (length (data f))) = true /\
  exists y, py_index (data f) (byte d) = Some y /\ x = Z.land y (mask d).
Proof.
  unfold masked_byte, relevant.
  destruct ((arbitration_id f =? cid d) && (byte d <? Z.of_nat (length (data f))));
    [|discriminate].
  destruct (py_index (data f) (byte d)) as [y|]; [|discriminate].
  cbn. intros [= <-]. eauto.
Qed.

Lemma read_loop_hold (d : CanBit) (tv t0 : Z) (pending : list Read) :
  forall now log,
  Forall (fun r => forall f, got r = Some f -> relevant d f = true ->
                             masked_byte d f = Some tv) pending ->
  (read_loop d tv t0 now tv pending log).1 = (inr false, tv).
Proof.
  induction pending as [|r rest IH]; intros now log Hall; cbn [read_loop].
  - reflexivity.
  - inversion Hall as [|? ? Hr Hrest]; subst.
    destruct (now - t0 <? 200); [|reflexivity].
    destruct (got r) as [f|] eqn:Hg; [|now apply IH].
    specialize (Hr f eq_refl). unfold relevant in Hr.
    destruct ((arbitration_id f =? cid d) && (byte d <? Z.of_nat (length (data f))))
      eqn:Hrel; [|now apply IH].
    specialize (Hr eq_refl).
    apply relevant_masked in Hr as (_ & y & Hy & ->).
    rewrite Hy, Z.eqb_refl. reflexivity.
Qed.

Lemma read_loop_idle (d : CanBit) (tv t0 : Z) (pending : list Read) :
  forall now last log,
  Forall (fun r => forall f, got r = Some f -> relevant d f = false) pending ->
  (read_loop d tv t0 now last pending log).1 = (inr false, last).
Proof.
  induction pending as [|r rest IH]; intros now last log Hall; cbn [read_loop].
  - reflexivity.
  - inversion Hall as [|? ? Hr Hrest]; subst.
    destruct (now - t0 <? 200); [|reflexivity].
    destruct (got r) as [f|] eqn:Hg; [|now apply IH].
    specialize (Hr f eq_refl). unfold relevant in Hr. rewrite Hr. now apply IH.
Qed.

Lemma read_state_parts (d : CanBit) (b : Bus) :
  (read_state d b).1.1
  = (read_loop d (Z.land (value d) (mask d)) (now b) (now b) (_last d)
       (pending b) (log b)).1.1 /\
  (read_state d b).1.2
  = mkCanBit (cid d) (byte d) (mask d) (value d)
      (read_loop d (Z.land (value d) (mask d)) (now b) (now b) (_last d)
         (pending b) (log b)).1.2.
Proof.
  unfold read_state.
  destruct (read_loop d (Z.land (value d) (mask d)) (now b) (now b) (_last d)
              (pending b) (log b)) as [[res last] b'].
  split; reflexivity.
Qed.

(** X15.  [CanBit.read_state] reports no second edge while the watched bits
    stay at the target: if [_last] is the target and every frame of the
    watched id that is long enough shows the target, the answer is [False]
    and the detector is unchanged. *)
Theorem canbit_hold_no_retrigger (d : CanBit) (b : Bus) :
  _last d = Z.land (value d) (mask d) ->
  Forall (fun r => forall f, got r = Some f -> relevant d f = true ->
                             masked_byte d f = Some (Z.land (value d) (mask d)))
         (pending b) ->
  (read_state d b).1.1 = inr false /\ (read_state d b).1.2 = d.
Proof.
  intros Hlast Hall.
  destruct (read_state_parts d b) as [H1 H2]. rewrite H1, H2, Hlast.
  rewrite (read_loop_hold d _ (now b) (pending b) (now b) (log b) Hall).
  cbn [fst snd]. split; [reflexivity|]. destruct d; cbn in *; congruence.
Qed.

Lemma canbit_hold_no_retrigger_witness :
  (read_state (mkCanBit 0x123 0 0x01 0x01 0x01)
     (mkBus 0 [mkRead 1 (Some (mkFrame 0x123 [0x01]));
               mkRead 2 (Some (mkFrame 0x456 [0x00]));
               mkRead 3 (Some (mkFrame 0x123 [0xFF]))] [])).1.1 = inr false /\
  (read_state (mkCanBit 0x123 0 0x01 0x01 0x01)
     (mkBus 0 [mkRead 1 (Some (mkFrame 0x123 [0x01]));
               mkRead 2 (Some (mkFrame 0x456 [0x00]));
               mkRead 3 (Some (mkFrame 0x123 [0xFF]))] [])).1.2
  = mkCanBit 0x123 0 0x01 0x01 0x01.
Proof.
  apply (canbit_hold_no_retrigger (mkCanBit 0x123 0 0x01 0x01 0x01)).
  - reflexivity.
  - repeat constructor; cbn; intros f [= <-]; vm_compute; congruence.
Defined.

(** X16.  Frames of other ids, frames too short for the byte index, and
    empty reads never change [CanBit]: if the bus offers nothing else, the
    answer is [False] and [_last] keeps its value. *)
Theorem canbit_idle (d : CanBit) (b : Bus) :
  Forall (fun r => forall f, got r = Some f -> relevant d f = false) (pending b) ->
  (read_state d b).1.1 = inr false /\ (read_state d b).1.2 = d.
Proof.
  intros Hall.
  destruct (read_state_parts d b) as [H1 H2]. rewrite H1, H2.
  rewrite (read_loop_idle d _ (now b) (pending b) (now b) (_last d) (log b) Hall).
  cbn [fst snd]. split; [reflexivity|]. now destruct d.
Qed.

Lemma canbit_idle_witness :
  (read_state (mkCanBit 0x123 2 0x01 0x01 0x07)
     (mkBus 0 [mkRead 1 None; mkRead 2 (Some (mkFrame 0x456 [1; 1; 1]));
               mkRead 3 (Some (mkFrame 0x123 [1; 1]))] [])).1.1 = inr false /\
  (read_state (mkCanBit 0x123 2 0x01 0x01 0x07)
     (mkBus 0 [mkRead 1 None; mkRead 2 (Some (mkFrame 0x456 [1; 1; 1]));
               mkRead 3 (Some (mkFrame 0x123 [1; 1]))] [])).1.2
  = mkCanBit 0x123 2 0x01 0x01 0x07.
Proof.
  apply (canbit_idle (mkCanBit 0x123 2 0x01 0x01 0x07)).
  repeat constructor; cbn; intros f H; try discriminate H; injection H as <-;
    reflexivity.
Defined.

(** X17.  With a target [value & mask] that is not zero, the first frame of
    the watched id seen after [reset] that shows the target is reported as
    a rising edge although no other value was seen before it, because
    [reset] puts [_last] to 0; [_last] is the target afterwards. *)
Theorem canbit_nonzero_target_first_match (d : CanBit) (b : Bus)
    (pre : list Read) (r : Read) (rest : list Read) (f : Frame) :
  Z.land (value d) (mask d) <> 0 ->
  pending b = pre ++ r :: rest ->
  Forall (fun r => (forall f, got r = Some f -> relevant d f = false)
                   /\ stamp r - now b < 200) pre ->
  got r = Some f ->
  masked_byte d f = Some (Z.land (value d) (mask d)) ->
  (read_state (reset d) b).1.1 = inr true /\
  _last ((read_state (reset d) b).1.2) = Z.land (value d) (mask d).
Proof.
  intros Htv Hp Hpre Hg Hm.
  destruct (read_state_parts (reset d) b) as [H1 H2]. rewrite H1, H2.
  change (reset d) with (mkCanBit (cid d) (byte d) (mask d) (value d) 0).
  cbn [cid byte mask value _last]. rewrite Hp.
  pose proof (read_loop_skip (cid d) (byte d) (mask d) (value d) 0 pre (r :: rest)
                (Z.land (value d) (mask d)) (now b) (now b) 0 (log b)) as Hskip.
  rewrite Hskip; [|lia|].
  - cbn [read_loop].
    assert (Hc : (clock_after (now b) pre - now b <? 200) = true).
    { apply Z.ltb_lt.
      assert (clock_after (now b) pre < now b + 200); [|lia].
      apply clock_after_lt; [lia|].
      eapply Forall_impl; [exact Hpre|]. cbn. intros ? [_ ?]. lia. }
    rewrite Hc, Hg.
    apply relevant_masked in Hm as (Hrel & y & Hy & Hx).
    cbn [cid byte mask]. rewrite Hrel, Hy, <- Hx, Z.eqb_refl.
    cbn [fst snd]. split; [|reflexivity].
    f_equal. apply negb_true_iff, Z.eqb_neq. congruence.
  - eapply Forall_impl; [exact Hpre|]. cbn. intros r0 [Hr0 Ht]. split; [|exact Ht].
    intros f0 Hf0. specialize (Hr0 f0 Hf0). exact Hr0.
Qed.

Lemma canbit_nonzero_target_first_match_witness :
  (read_state (reset (init 0x123 0 0x01 0x01))
     (mkBus 0 [mkRead 1 (Some (mkFrame 0x456 [0x00]));
               mkRead 2 (Some (mkFrame 0x123 [0x01]))] [])).1.1 = inr true /\
  _last ((read_state (reset (init 0x123 0 0x01 0x01))
     (mkBus 0 [mkRead 1 (Some (mkFrame 0x456 [0x00]));
               mkRead 2 (Some (mkFrame 0x123 [0x01]))] [])).1.2)
  = Z.land (value (init 0x123 0 0x01 0x01)) (mask (init 0x123 0 0x01 0x01)).
Proof.
  apply (canbit_nonzero_target_first_match (init 0x123 0 0x01 0x01)
           (mkBus 0 [mkRead 1 (Some (mkFrame 0x456 [0x00]));
                     mkRead 2 (Some (mkFrame 0x123 [0x01]))] [])
           [mkRead 1 (Some (mkFrame 0x456 [0x00]))]
           (mkRead 2 (Some (mkFrame 0x123 [0x01]))) []
           (mkFrame 0x123 [0x01])).
  - vm_compute. discriminate.
  - reflexivity.
  - constructor; [|constructor].
    split; [intros f [= <-]; reflexivity | cbn; lia].
  - reflexivity.
  - reflexivity.
Defined.

(** X18.  A negative byte index passes the test [self.byte < dlc] for every
    frame of the watched id and counts from the end of the data; when the
    frame is shorter than that, [data[self.byte]] raises [IndexError]: the
    call ends with it, the frame consumed and [_last] unchanged. *)
Theorem canbit_negative_index (d : CanBit) (b : Bus) (r : Read)
    (rest : list Read) (f : Frame) :
  byte d < 0 ->
  pending b = r :: rest ->
  got r = Some f ->
  arbitration_id f = cid d ->
  relevant d f = true /\
  (- Z.of_nat (length (data f)) <= byte d ->
   masked_byte d f
   = Some (Z.land (byte_at (data f) (Z.to_nat (Z.of_nat (length (data f)) + byte d)))
                  (mask d))) /\
  (byte d < - Z.of_nat (length (data f)) ->
   read_state d b
   = (inl TupleIndexOutOfRange, d, mkBus (stamp r) rest (log b ++ [Recv r]))).
Proof.
  intros Hneg Hp Hg Hid.
  assert (Hrel : relevant d f = true).
  { unfold relevant. rewrite Hid, Z.eqb_refl. cbn [andb]. apply Z.ltb_lt. lia. }
  split; [exact Hrel|]. split.
  - intros Hin. unfold masked_byte. rewrite Hrel. unfold py_index.
    destruct (0 <=? byte d) eqn:H0; [apply Z.leb_le in H0; lia|].
    destruct (- Z.of_nat (length (data f)) <=? byte d) eqn:H1;
      [|apply Z.leb_gt in H1; lia].
    destruct (data f !! Z.to_nat (Z.of_nat (length (data f)) + byte d)) as [x|] eqn:Hx.
    + cbn. unfold byte_at. now rewrite (nth_lookup_Some _ _ 0 _ Hx).
    + apply lookup_ge_None in Hx. lia.
  - intros Hout. unfold read_state. rewrite Hp. cbn [read_loop].
    replace (now b - now b) with 0 by lia. change (0 <? 200) with true. cbv iota.
    rewrite Hg. unfold relevant in Hrel. rewrite Hrel. unfold py_index.
    destruct (0 <=? byte d) eqn:H0; [apply Z.leb_le in H0; lia|].
    destruct (- Z.of_nat (length (data f)) <=? byte d) eqn:H1;
      [apply Z.leb_le in H1; lia|].
    now destruct d.
Qed.

Lemma canbit_negative_index_witness :
  masked_byte (init 0x123 (-1) 0x0F 0x01) (mkFrame 0x123 [0xAA; 0xBB; 0xC5]) = Some 0x05 /\
  read_state (init 0x123 (-3) 0x0F 0x01)
    (mkBus 0 [mkRead 1 (Some (mkFrame 0x123 [0xAA; 0xBB]))] [])
  = (inl TupleIndexOutOfRange, init 0x123 (-3) 0x0F 0x01,
     mkBus 1 [] [Recv (mkRead 1 (Some (mkFrame 0x123 [0xAA; 0xBB])))]).
Proof.
  split; [reflexivity|].
  apply (canbit_negative_index (init 0x123 (-3) 0x0F 0x01)
           (mkBus 0 [mkRead 1 (Some (mkFrame 0x123 [0xAA; 0xBB]))] [])
           (mkRead 1 (Some (mkFrame 0x123 [0xAA; 0xBB]))) []
           (mkFrame 0x123 [0xAA; 0xBB]));
    try reflexivity; cbn; lia.
Defined.

End CanBitEdges.

Section Ring.

Import Correlate Run.

Lemma evict_ordered (l : list Entry) (t_cut : Z) :
  ordered l -> evict l t_cut = List.filter (fun e => t_cut <=? ts e) l.
Proof.
  unfold ordered. induction 1 as [|a l Hl IH Ha]; [reflexivity|].
  cbn [evict List.filter].
  destruct (ts a <? t_cut) eqn:Hlt.
  - apply Z.ltb_lt in Hlt.
    replace (t_cut <=? ts a) with false by (symmetry; apply Z.leb_gt; lia).
    exact IH.
  - apply Z.ltb_ge in Hlt.
    replace (t_cut <=? ts a) with true by (symmetry; apply Z.leb_le; lia).
    f_equal. symmetry. apply forallb_filter_id, forallb_forall.
    intros e He. apply Z.leb_le.
    rewrite Forall_forall in Ha. specialize (Ha e (proj2 (list_elem_of_In _ _) He)). lia.
Qed.

Lemma ordered_filter (f : Entry -> bool) (l : list Entry) :
  ordered l -> ordered (List.filter f l).
Proof.
  unfold ordered. induction 1 as [|a l Hl IH Ha]; [constructor|].
  cbn [List.filter]. destruct (f a); [|exact IH].
  constructor; [exact IH|].
  rewrite Forall_forall in Ha |- *. intros e He. apply Ha.
  apply list_elem_of_In. apply list_elem_of_In in He.
  now apply filter_In in He as [He _].
Qed.

Lemma ordered_filter_app (f : Entry -> bool) (l1 l2 : list Entry) :
  ordered (l1 ++ l2) -> ordered (List.filter f l1 ++ l2).
Proof.
  unfold ordered. rewrite !StronglySorted_app. intros (H12 & H1 & H2).
  split; [|split; [now apply ordered_filter | exact H2]].
  intros x1 x2 Hx1 Hx2. apply H12; [|exact Hx2].
  apply list_elem_of_In. apply list_elem_of_In in Hx1.
  now apply filter_In in Hx1 as [Hx1 _].
Qed.

Lemma filter_filter_cut (c c' : Z) (l : list Entry) :
  c <= c' ->
  List.filter (fun e => c' <=? ts e) (List.filter (fun e => c <=? ts e) l)
  = List.filter (fun e => c' <=? ts e) l.
Proof.
  intros Hc. induction l as [|a l IH]; [reflexivity|].
  cbn [List.filter].
  destruct (c <=? ts a) eqn:H1; cbn [List.filter].
  - now rewrite IH.
  - apply Z.leb_gt in H1.
    replace (c' <=? ts a) with false by (symmetry; apply Z.leb_gt; lia).
    exact IH.
Qed.

Lemma run_ring (rounds : list Round) :
  forall r,
  ordered (ring r ++ pushed rounds) ->
  ring (run rounds r)
  = match last (pushed rounds) with
    | None => ring r
    | Some e =>
        List.filter (fun x => ts e - RING_SECONDS <=? ts x) (ring r ++ pushed rounds)
    end.
Proof.
  induction rounds as [|[[rd state] t_event] rest IH]; intros r Hord; [reflexivity|].
  cbn [run]. destruct rd as [e|].
  - change (pushed ((Some e, state, t_event) :: rest)) with (e :: pushed rest) in *.
    set (r1 := iteration (Some e) state t_event r).
    assert (Hr1 : ring r1
                  = List.filter (fun x => ts e - RING_SECONDS <=? ts x) (ring r ++ [e])).
    { subst r1. cbn [iteration ring]. apply evict_ordered.
      replace (ring r ++ e :: pushed rest) with ((ring r ++ [e]) ++ pushed rest) in Hord
        by now rewrite <- app_assoc.
      unfold ordered in *. now apply StronglySorted_app_1_l in Hord. }
    assert (Hord1 : ordered (ring r1 ++ pushed rest)).
    { rewrite Hr1. apply ordered_filter_app. now rewrite <- app_assoc. }
    rewrite (IH r1 Hord1).
    change (e :: pushed rest) with ([e] ++ pushed rest).
    rewrite last_app. cbn [last].
    destruct (last (pushed rest)) as [e'|] eqn:Hlast.
    + assert (Hle : ts e <= ts e').
      { apply last_Some in Hlast as [l' Hl']. rewrite Hl' in Hord.
        unfold ordered in Hord.
        apply (StronglySorted_app_1_elem_of (fun a b : Entry => ts a <= ts b)
                 (ring r ++ [e]) (l' ++ [e']) e e').
        - now rewrite <- app_assoc.
        - apply elem_of_app. right. apply list_elem_of_singleton. reflexivity.
        - apply elem_of_app. right. apply list_elem_of_singleton. reflexivity. }
      rewrite Hr1, List.filter_app, filter_filter_cut by lia.
      rewrite (app_assoc (ring r) [e]), !List.filter_app. reflexivity.
    + apply last_None in Hlast. rewrite Hlast, app_nil_r. exact Hr1.
  - change (pushed ((None, state, t_event) :: rest)) with (pushed rest) in *.
    apply (IH (iteration None state t_event r)). exact Hord.
Qed.

(** X19.  With time stamps that do not decrease, the ring buffer of [_run]
    holds, after a round that read a frame, exactly the frames whose stamp
    is at most 5 seconds older than that of the newest frame: nothing
    younger is dropped, nothing older is kept, the newest frame is last and
    the order of the stamps is kept. *)
Theorem ring_is_window (rounds : list Round) (r : Runner) (e : Entry) :
  ordered (ring r ++ pushed rounds) ->
  last (pushed rounds) = Some e ->
  ring (run rounds r)
  = List.filter (fun x => ts e - RING_SECONDS <=? ts x) (ring r ++ pushed rounds) /\
  last (ring (run rounds r)) = Some e /\
  ordered (ring (run rounds r)).
Proof.
  intros Hord Hlast.
  pose proof (run_ring rounds r Hord) as H. rewrite Hlast in H.
  split; [exact H|]. rewrite H. split.
  - apply last_Some in Hlast as [l' Hl']. rewrite Hl', app_assoc, List.filter_app.
    cbn [List.filter].
    replace (ts e - RING_SECONDS <=? ts e) with true
      by (symmetry; apply Z.leb_le; unfold RING_SECONDS; lia).
    apply last_snoc.
  - now apply ordered_filter.
Qed.

Lemma ring_is_window_witness :
  ring (run [(Some (mkEntry 0 0x100 1 [0]), false, 1);
             (None, false, 2);
             (Some (mkEntry 4000 0x200 1 [1]), false, 4001);
             (Some (mkEntry 6000 0x100 1 [1]), true, 6001)] start)
  = [mkEntry 4000 0x200 1 [1]; mkEntry 6000 0x100 1 [1]] /\
  last (ring (run [(Some (mkEntry 0 0x100 1 [0]), false, 1);
                   (None, false, 2);
                   (Some (mkEntry 4000 0x200 1 [1]), false, 4001);
                   (Some (mkEntry 6000 0x100 1 [1]), true, 6001)] start))
  = Some (mkEntry 6000 0x100 1 [1]) /\
  ordered (ring (run [(Some (mkEntry 0 0x100 1 [0]), false, 1);
                      (None, false, 2);
                      (Some (mkEntry 4000 0x200 1 [1]), false, 4001);
                      (Some (mkEntry 6000 0x100 1 [1]), true, 6001)] start)).
Proof.
  apply (ring_is_window
           [(Some (mkEntry 0 0x100 1 [0]), false, 1);
            (None, false, 2);
            (Some (mkEntry 4000 0x200 1 [1]), false, 4001);
            (Some (mkEntry 6000 0x100 1 [1]), true, 6001)] start
           (mkEntry 6000 0x100 1 [1])).
  - unfold ordered. cbn. repeat constructor; cbn; lia.
  - reflexivity.
Defined.

End Ring.

Section Hits.

Import Correlate Run.

Lemma rise_count_nonneg (before : gmap Z (list Z)) (win : list Entry)
    (k : Z * nat * nat) :
  0 <= rise_count before win k.
Proof. unfold rise_count. destruct (before !! k.1.1); lia. Qed.

Lemma rise_count_pos (before : gmap Z (list Z)) (win : list Entry)
    (k : Z * nat * nat) :
  0 < rise_count before win k ->
  In k.1.1 (map can_id win) /\ (k.2 < 8)%nat.
Proof.
  unfold rise_count. destruct (before !! k.1.1) as [prev|]; [|lia].
  destruct (List.filter (fun e => (can_id e =? k.1.1) && rises prev k.1.2 k.2 e) win)
    as [|e l] eqn:Hf; [cbn; lia|]. intros _.
  assert (He : In e (List.filter
                       (fun e => (can_id e =? k.1.1) && rises prev k.1.2 k.2 e) win))
    by (rewrite Hf; now left).
  apply filter_In in He as [He Hc].
  apply andb_prop in Hc as [Hid Hr]. apply Z.eqb_eq in Hid.
  split.
  - apply in_map_iff. exists e. auto.
  - unfold rises in Hr. apply andb_prop in Hr as [Hr _].
    apply andb_prop in Hr as [_ Hb]. now apply Nat.ltb_lt in Hb.
Qed.

Lemma run_cons (rd : option Entry) (state : bool) (t_event : Z)
    (rest : list Round) (r : Runner) :
  run ((rd, state, t_event) :: rest) r = run rest (iteration rd state t_event r).
Proof. reflexivity. Qed.

Lemma iteration_last_state (rd : option Entry) (state : bool) (t_event : Z)
    (r : Runner) :
  last_state (iteration rd state t_event r) = state.
Proof. reflexivity. Qed.

(** X20.  Over any run of the loop of [_run] no counter ever decreases, the
    hit count of an id grows by at most one per rising edge of the
    detector's answers, and without a rising edge the counters are what
    they were. *)
Theorem hits_bounded_by_edges (rounds : list Round) (r : Runner) :
  (forall cid,
     count (id_hits (hits r)) cid <= count (id_hits (hits (run rounds r))) cid
     <= count (id_hits (hits r)) cid + Z.of_nat (edges (last_state r) rounds)) /\
  (forall k, count (bit_hits (hits r)) k <= count (bit_hits (hits (run rounds r))) k) /\
  (edges (last_state r) rounds = 0%nat -> hits (run rounds r) = hits r).
Proof.
  revert r. induction rounds as [|[[rd state] t_event] rest IH]; intros r.
  - cbn [run edges]. repeat split; intros; lia.
  - rewrite run_cons. cbn [edges].
    destruct (IH (iteration rd state t_event r)) as (IH1 & IH2 & IH3).
    rewrite iteration_last_state in IH1, IH3.
    pose proof (iteration_hits rd state t_event r) as Hit.
    destruct (state && negb (last_state r)) eqn:Hedge.
    + destruct (on_rising_edge_counts (ring (iteration rd state t_event r)) t_event (hits r))
        as [Hb Hi].
      rewrite <- Hit in Hb, Hi.
      repeat split.
      * specialize (IH1 cid). specialize (Hi cid).
        destruct (bool_decide _) in Hi; cbn [Z.b2z] in Hi; lia.
      * specialize (IH1 cid). specialize (Hi cid).
        destruct (bool_decide _) in Hi; cbn [Z.b2z] in Hi; lia.
      * intros k. specialize (IH2 k). specialize (Hb k).
        pose proof (rise_count_nonneg
          (before_of (ring (iteration rd state t_event r)) (t_event - PRE_WIN))
          (in_win (ring (iteration rd state t_event r)) (t_event - PRE_WIN)
             (t_event + POST_WIN)) k). lia.
      * intros H. lia.
    + repeat split.
      * specialize (IH1 cid). rewrite Hit in IH1. lia.
      * specialize (IH1 cid). rewrite Hit in IH1. lia.
      * intros k. specialize (IH2 k). rewrite Hit in IH2. exact IH2.
      * intros H. rewrite IH3 by lia. exact Hit.
Qed.

Lemma consistent_start : consistent (hits start).
Proof.
  unfold consistent, start, count. cbn [hits id_hits bit_hits].
  repeat split; intros; rewrite ?lookup_empty in *; cbn in *; lia.
Qed.

Lemma consistent_edge (ring : list Entry) (t_event : Z) (c : Counters) :
  consistent c -> consistent (on_rising_edge ring t_event c).
Proof.
  intros (Hid & Hbit & Hrel).
  destruct (on_rising_edge_counts ring t_event c) as [Hb Hi].
  split; [|split].
  - intros cid. rewrite Hi. specialize (Hid cid).
    destruct (bool_decide _); cbn [Z.b2z]; lia.
  - intros k. rewrite Hb. specialize (Hbit k).
    pose proof (rise_count_nonneg (before_of ring (t_event - PRE_WIN))
                  (in_win ring (t_event - PRE_WIN) (t_event + POST_WIN)) k). lia.
  - intros k. rewrite Hb, Hi. intros Hpos.
    pose proof (rise_count_nonneg (before_of ring (t_event - PRE_WIN))
                  (in_win ring (t_event - PRE_WIN) (t_event + POST_WIN)) k) as Hnn.
    destruct (decide (0 < rise_count (before_of ring (t_event - PRE_WIN))
                          (in_win ring (t_event - PRE_WIN) (t_event + POST_WIN)) k))
      as [Hr|Hr].
    + apply rise_count_pos in Hr as [Hin Hlt]. split; [|exact Hlt].
      rewrite bool_decide_eq_true_2 by (now apply list_elem_of_In).
      cbn [Z.b2z]. specialize (Hid k.1.1). lia.
    + assert (Hk : 0 < count (bit_hits c) k) by lia.
      destruct (Hrel k Hk) as [H1 H2]. split; [|exact H2].
      destruct (bool_decide _); cbn [Z.b2z]; lia.
Qed.

Lemma consistent_run (rounds : list Round) :
  forall r, consistent (hits r) -> consistent (hits (run rounds r)).
Proof.
  induction rounds as [|[[rd state] t_event] rest IH]; intros r Hc; [exact Hc|].
  rewrite run_cons. apply IH. rewrite iteration_hits.
  destruct (state && negb (last_state r)); [now apply consistent_edge | exact Hc].
Qed.

(** X21.  Starting from empty counters, a bit candidate (id, byte, bit)
    with a positive count always belongs to an id with a positive hit
    count, and its bit number is below 8. *)
Theorem bit_hit_has_id_hit (rounds : list Round) (cid : Z) (idx bit : nat) :
  0 < count (bit_hits (hits (run rounds start))) (cid, idx, bit) ->
  0 < count (id_hits (hits (run rounds start))) cid /\ (bit < 8)%nat.
Proof.
  intros H.
  destruct (consistent_run rounds start consistent_start) as (_ & _ & Hrel).
  exact (Hrel (cid, idx, bit) H).
Qed.

Lemma bit_hit_has_id_hit_witness :
  0 < count (bit_hits (hits (run
        [(Some (mkEntry 0 0x100 1 [0]), false, 1);
         (Some (mkEntry 400 0x100 1 [4]), true, 500)] start))) (0x100, 0%nat, 2%nat) /\
  0 < count (id_hits (hits (run
        [(Some (mkEntry 0 0x100 1 [0]), false, 1);
         (Some (mkEntry 400 0x100 1 [4]), true, 500)] start))) 0x100 /\
  (2 < 8)%nat.
Proof.
  assert (H : 0 < count (bit_hits (hits (run
        [(Some (mkEntry 0 0x100 1 [0]), false, 1);
         (Some (mkEntry 400 0x100 1 [4]), true, 500)] start))) (0x100, 0%nat, 2%nat))
    by (vm_compute; reflexivity).
  split; [exact H|].
  exact (bit_hit_has_id_hit _ _ _ _ H).
Defined.

End Hits.

Section TableFirstFrame.

Import TriggerUds.

Variable p : Profile.
Variable did : Z.

Local Abbreviation request := [EA_REQ p; 0x03; 0x22; did_hi did; did_lo did; 0; 0; 0].
Local Abbreviation flow_control := [EA_REQ p; 0x30; 0x00; 0x00; 0; 0; 0; 0].

(** X22.  What [_uds_read_by_identifier] makes of a first frame on [rx_id]
    it cannot use (the data filled up with zeros to 8 bytes): another byte
    than 0xF1 in front gives 'Keine gueltige UDS Antwort.', a frame type
    other than single or first frame gives 'Unerwartete PCI Art.', both
    without reading on or sending anything more; a first frame answering
    another identifier gives 'Negative Antwort (FF).' only after the flow
    control has been sent. *)
Theorem table_first_frame_errors (b : Bus) (pre post : list Read) (r : Read)
    (f : Frame) :
  pending b = pre ++ r :: post ->
  Forall (fun r => TableUds.passed_over (RX_ID p) r = true
                   /\ stamp r < now b + 1000) pre ->
  got r = Some f -> arbitration_id f = RX_ID p ->
  let raw := TableUds.pad8 (data f) in
  let b1 := mkBus (stamp r) post
              (log b ++ [Sent (TX_ID p) request] ++ map Recv pre ++ [Recv r]) in
  (byte_at raw 0 <> TableUds.EA_RSP ->
   TableUds._uds_read_by_identifier b (TX_ID p) (RX_ID p) (EA_REQ p) did
   = (inl TableUds.NoValidResponse, b1)) /\
  (byte_at raw 0 = TableUds.EA_RSP ->
   Z.land (byte_at raw 1) 0xF0 <> 0x00 -> Z.land (byte_at raw 1) 0xF0 <> 0x10 ->
   TableUds._uds_read_by_identifier b (TX_ID p) (RX_ID p) (EA_REQ p) did
   = (inl TableUds.UnexpectedPCI, b1)) /\
  (byte_at raw 0 = TableUds.EA_RSP ->
   Z.land (byte_at raw 1) 0xF0 = 0x10 ->
   ~ (byte_at raw 3 = 0x62 /\ byte_at raw 4 = did_hi did /\ byte_at raw 5 = did_lo did) ->
   TableUds._uds_read_by_identifier b (TX_ID p) (RX_ID p) (EA_REQ p) did
   = (inl TableUds.NegativeFF, send b1 (TX_ID p) flow_control)).
Proof.
  intros Hp Hpre Hg Hid raw b1.
  pose proof (table_reaches p did b pre post r f Hp Hpre Hg Hid) as Hreach.
  pose proof (table_dispatch p did b b1 raw Hreach (pad8_nonempty (data f))) as Hd.
  repeat split.
  - intros H0. rewrite Hd.
    destruct (byte_at raw 0 =? TableUds.EA_RSP) eqn:E; [apply Z.eqb_eq in E; contradiction|].
    reflexivity.
  - intros H0 H1 H2. rewrite Hd, H0, Z.eqb_refl. cbn [negb].
    destruct (Z.land (byte_at raw 1) 240 =? 0) eqn:E1;
      [apply Z.eqb_eq in E1; contradiction|].
    destruct (Z.land (byte_at raw 1) 240 =? 16) eqn:E2;
      [apply Z.eqb_eq in E2; contradiction|].
    reflexivity.
  - intros H0 H1 H2. rewrite Hd, H0, Z.eqb_refl, H1. cbn [negb Z.eqb Pos.eqb].
    destruct (negb (byte_at raw 3 =? 98) || negb (byte_at raw 4 =? did_hi did)
              || negb (byte_at raw 5 =? did_lo did)) eqn:E; [reflexivity|].
    exfalso. apply H2.
    apply orb_false_elim in E as [E E5]. apply orb_false_elim in E as [E3 E4].
    apply negb_false_iff, Z.eqb_eq in E3, E4, E5. auto.
Qed.

End TableFirstFrame.

Lemma table_first_frame_errors_witness :
  TableUds._uds_read_by_identifier
    (mkBus 0 [mkRead 1 (Some (mkFrame 0x0643 [0xF1; 0x10; 0x0A; 0x7F; 0x22; 0x31; 0; 0]));
              mkRead 2 (Some (mkFrame 0x0643 [0xF1; 0x21; 1; 2; 3; 4; 5; 6]))] [])
    0x06F1 0x0643 0x43 0xD631
  = (inl TableUds.NegativeFF,
     mkBus 1 [mkRead 2 (Some (mkFrame 0x0643 [0xF1; 0x21; 1; 2; 3; 4; 5; 6]))]
       [Sent 0x06F1 [0x43; 0x03; 0x22; 0xD6; 0x31; 0; 0; 0];
        Recv (mkRead 1 (Some (mkFrame 0x0643 [0xF1; 0x10; 0x0A; 0x7F; 0x22; 0x31; 0; 0])));
        Sent 0x06F1 [0x43; 0x30; 0; 0; 0; 0; 0; 0]]).
Proof.
  apply (proj2 (proj2 (table_first_frame_errors TriggerUds.links 0xD631
    (mkBus 0 [mkRead 1 (Some (mkFrame 0x0643 [0xF1; 0x10; 0x0A; 0x7F; 0x22; 0x31; 0; 0]));
              mkRead 2 (Some (mkFrame 0x0643 [0xF1; 0x21; 1; 2; 3; 4; 5; 6]))] [])
    [] [mkRead 2 (Some (mkFrame 0x0643 [0xF1; 0x21; 1; 2; 3; 4; 5; 6]))]
    (mkRead 1 (Some (mkFrame 0x0643 [0xF1; 0x10; 0x0A; 0x7F; 0x22; 0x31; 0; 0])))
    (mkFrame 0x0643 [0xF1; 0x10; 0x0A; 0x7F; 0x22; 0x31; 0; 0])
    eq_refl ltac:(constructor) eq_refl eq_refl))).
  - reflexivity.
  - reflexivity.
  - vm_compute. intros [H _]. discriminate H.
Defined.

Section ExchangeSends.

Import TriggerUds.

Variable p : Profile.
Variable did : Z.

Local Abbreviation request := [EA_REQ p; 0x03; 0x22; did_hi did; did_lo did; 0; 0; 0].
Local Abbreviation flow_control := [EA_REQ p; 0x30; 0x00; 0x00; 0; 0; 0; 0].

Lemma await_sends (timeout : Z) (pending : list Read) :
  forall t0 now log,
  let res := await p did (did_hi did) (did_lo did) timeout t0 now pending log in
  sends (Transport.log res.2) = sends log \/
  (sends (Transport.log res.2) = sends log ++ [(TX_ID p, flow_control)] /\
   exists payload, res.1 = inr payload).
Proof.
  induction pending as [|r rest IH]; intros t0 now log; cbv zeta.
  - left. reflexivity.
  - rewrite await_cons.
    assert (Hrec : forall now',
      sends (Transport.log
               (await p did (did_hi did) (did_lo did) timeout t0 now' rest
                  (log ++ [Recv r])).2) = sends log \/
      (sends (Transport.log
                (await p did (did_hi did) (did_lo did) timeout t0 now' rest
                   (log ++ [Recv r])).2) = sends log ++ [(TX_ID p, flow_control)] /\
       exists payload,
         (await p did (did_hi did) (did_lo did) timeout t0 now' rest
            (log ++ [Recv r])).1 = inr payload)).
    { intros now'. specialize (IH t0 now' (log ++ [Recv r])). cbv zeta in IH.
      rewrite sends_app in IH. cbn [sends omap] in IH.
      change (sends [Recv r]) with (@nil (Z * list Z)) in IH.
      rewrite app_nil_r in IH. exact IH. }
    destruct (now - t0 <? timeout); [|left; reflexivity].
    destruct (got r) as [f|]; [|apply Hrec].
    destruct (negb (addressed p f)); [apply Hrec|].
    destruct (is_single (did_hi did) (did_lo did) (data f)).
    { left. cbn [snd Transport.log]. rewrite sends_app. cbn. apply app_nil_r. }
    destruct (is_first (did_hi did) (did_lo did) (data f)); [|apply Hrec].
    right.
    destruct (collect_shape p timeout rest (stamp r) (stamp r) (drop 6 (data f))
                ((log ++ [Recv r]) ++ [Sent (TX_ID p) flow_control]))
      as (consumed & more & _ & Hlog & _).
    destruct (collect p timeout (stamp r) (stamp r) (drop 6 (data f)) rest
                ((log ++ [Recv r]) ++ [Sent (TX_ID p) flow_control])) as [payload b'].
    cbn [fst snd] in *. split; [|eauto].
    rewrite Hlog, !sends_app, sends_reads. cbn. now rewrite !app_nil_r.
Qed.

(** X23.  Whatever the bus delivers, one call of [uds_read_by_id] or of
    [_uds_read_by_identifier] sends the request and after it at most one
    flow control, both to [tx_id], and nothing else; [uds_read_by_id] sends
    the flow control only in calls that return a payload. *)
Theorem exchange_sends (timeout : Z) (b : Bus) :
  (sends (log (uds_read_by_id b did p timeout).2)
   = sends (log b) ++ [(TX_ID p, request)] \/
   (sends (log (uds_read_by_id b did p timeout).2)
    = sends (log b) ++ [(TX_ID p, request); (TX_ID p, flow_control)] /\
    exists payload, (uds_read_by_id b did p timeout).1 = inr payload)) /\
  (sends (log (TableUds._uds_read_by_identifier b (TX_ID p) (RX_ID p) (EA_REQ p) did).2)
   = sends (log b) ++ [(TX_ID p, request)] \/
   sends (log (TableUds._uds_read_by_identifier b (TX_ID p) (RX_ID p) (EA_REQ p) did).2)
   = sends (log b) ++ [(TX_ID p, request); (TX_ID p, flow_control)]).
Proof.
  split.
  - unfold uds_read_by_id. fold (did_hi did) (did_lo did).
    cbn [send now pending log].
    pose proof (await_sends timeout (pending b) (now b) (now b)
                  (log b ++ [Sent (TX_ID p) request])) as H.
    cbv zeta in H. rewrite sends_app in H.
    change (sends [Sent (TX_ID p) request]) with [(TX_ID p, request)] in H.
    destruct H as [H|[H Hr]]; [left; exact H | right].
    split; [|exact Hr]. rewrite H, <- app_assoc. reflexivity.
  - destruct (recv_until_shape (send b (TX_ID p) request) (RX_ID p) 1000)
      as (consumed & _ & Hlog & _).
    destruct (TableUds._recv_until (send b (TX_ID p) request) (RX_ID p) 1000)
      as [first b1] eqn:E.
    cbn [snd send log] in Hlog.
    assert (Hs1 : sends (log b1) = sends (log b) ++ [(TX_ID p, request)]).
    { rewrite Hlog, !sends_app, sends_reads. cbn. now rewrite app_nil_r. }
    destruct first as [raw|].
    2:{ left. unfold TableUds._uds_read_by_identifier.
        fold (did_hi did) (did_lo did). rewrite E. exact Hs1. }
    destruct raw as [|x raw].
    { left. unfold TableUds._uds_read_by_identifier.
      fold (did_hi did) (did_lo did). rewrite E. exact Hs1. }
    rewrite (table_dispatch p did b b1 (x :: raw) E) by discriminate.
    destruct (negb _); [left; exact Hs1|].
    destruct (_ =? 0).
    { destruct (_ || _); left; exact Hs1. }
    destruct (_ =? 16); [|left; exact Hs1].
    right.
    assert (Hs2 : sends (log (send b1 (TX_ID p) flow_control))
                  = sends (log b) ++ [(TX_ID p, request); (TX_ID p, flow_control)]).
    { unfold send. cbn [log]. rewrite sends_app, Hs1, <- app_assoc. reflexivity. }
    destruct (_ || _); [exact Hs2|].
    cbn [snd].
    destruct (cf_loop_shape (RX_ID p) (length (pending b1)) (drop 6 (x :: raw))
                (send b1 (TX_ID p) flow_control)) as (cons2 & more & _ & Hlog2 & _).
    rewrite Hlog2, sends_app, sends_reads, app_nil_r. exact Hs2.
Qed.

End ExchangeSends.

Section Reassemble.

Import TriggerUds Reassembly.

Variable p : Profile.
Variable did : Z.

Lemma collect_consecutive (timeout : Z) (cfs : list Read) :
  forall now payload log,
  0 < timeout ->
  Forall (fun r => is_consecutive p r = true) cfs ->
  (collect p timeout now now payload cfs log).1
  = payload ++ concat (map tail_of cfs).
Proof.
  induction cfs as [|r rest IH]; intros now payload log Ht Hall.
  - cbn. now rewrite app_nil_r.
  - inversion Hall as [|? ? Hr Hrest]; subst.
    rewrite collect_cons.
    replace (now - now) with 0 by lia.
    destruct (Z.ltb_spec 0 timeout) as [_|]; [|lia].
    unfold is_consecutive in Hr. unfold tail_of at 1. cbn [map concat].
    destruct (got r) as [f|]; [|discriminate].
    apply andb_prop in Hr as [Ha Hn]. rewrite Ha, Hn. cbn [negb].
    rewrite IH by assumption. now rewrite <- app_assoc.
Qed.

Lemma cf_loop_consecutive (rx_id : Z) (cfs : list Read) :
  forall fuel payload b,
  pending b = cfs ->
  (length cfs <= fuel)%nat ->
  Forall (fun r => is_table_consecutive rx_id r = true) cfs ->
  (length payload + length (concat (map padded_tail_of cfs)) <= 128)%nat ->
  (TableUds.cf_loop fuel rx_id payload b).1
  = payload ++ concat (map padded_tail_of cfs).
Proof.
  induction cfs as [|r rest IH]; intros fuel payload b Hp Hfuel Hall Hlen.
  - rewrite cf_loop_eq. unfold TableUds._recv_until. rewrite Hp. cbn.
    now rewrite app_nil_r.
  - inversion Hall as [|? ? Hr Hrest]; subst.
    unfold is_table_consecutive in Hr.
    destruct (got r) as [f|] eqn:Hg; [|discriminate].
    apply andb_prop in Hr as [Hr Hn]. apply andb_prop in Hr as [Hid H0].
    apply Z.eqb_eq in Hid.
    rewrite cf_loop_eq.
    rewrite (recv_until_hit b rx_id 1000 [] rest r f ltac:(lia) Hp
               ltac:(constructor) Hg Hid).
    pose proof (pad8_nonempty (data f)) as Hne.
    cbn [map concat] in Hlen |- *. unfold padded_tail_of at 1 in Hlen.
    unfold padded_tail_of at 1. rewrite Hg in Hlen |- *.
    destruct (TableUds.pad8 (data f)) as [|x raw] eqn:Hraw; [congruence|].
    rewrite H0, Hn. cbn [negb orb].
    rewrite length_app in Hlen.
    destruct (Nat.ltb_spec 128 (length (payload ++ drop 2 (x :: raw)))) as [Hgt|_];
      [rewrite length_app in Hgt; lia|].
    destruct fuel as [|fuel]; [cbn [length] in Hfuel; lia|].
    rewrite IH; try assumption.
    + now rewrite <- app_assoc.
    + reflexivity.
    + cbn [length] in Hfuel. lia.
    + rewrite length_app. lia.
Qed.

(** X24.  A multi-frame response is put together in the order of arrival:
    bytes 6.. of the first frame, then bytes 2.. of every consecutive frame
    that follows, whatever their sequence numbers and whatever length the
    first frame announces; [_uds_read_by_identifier] does so after filling
    each frame up to 8 bytes with zeros, for responses of at most 128
    bytes. *)
Theorem multi_frame_reassembly (timeout : Z) (b : Bus) (pre cfs : list Read)
    (st : Z) (data : list Z) :
  pending b = pre ++ mkRead st (Some (mkFrame (RX_ID p) data)) :: cfs ->
  (6 <= length data)%nat ->
  Z.land (byte_at data 1) 0xF0 = 0x10 ->
  byte_at data 3 = 0x62 -> byte_at data 4 = did_hi did -> byte_at data 5 = did_lo did ->
  (0 < timeout -> byte_at data 0 = EA_RSP p ->
   Forall (fun r => skipped p (did_hi did) (did_lo did) r = true
                    /\ stamp r - now b < timeout) pre ->
   Forall (fun r => is_consecutive p r = true) cfs ->
   (uds_read_by_id b did p timeout).1
   = inr (drop 6 data ++ concat (map tail_of cfs))) /\
  (byte_at data 0 = TableUds.EA_RSP ->
   Forall (fun r => TableUds.passed_over (RX_ID p) r = true
                    /\ stamp r < now b + 1000) pre ->
   Forall (fun r => is_table_consecutive (RX_ID p) r = true) cfs ->
   (length (drop 6 (TableUds.pad8 data))
    + length (concat (map padded_tail_of cfs)) <= 128)%nat ->
   (TableUds._uds_read_by_identifier b (TX_ID p) (RX_ID p) (EA_REQ p) did).1
   = inr (drop 6 (TableUds.pad8 data) ++ concat (map padded_tail_of cfs))).
Proof.
  intros Hp Hlen Hpci H3 H4 H5. split.
  - intros Ht H0 Hpre Hcfs.
    assert (Ha : addressed p (mkFrame (RX_ID p) data) = true).
    { unfold addressed. cbn [arbitration_id Transport.data].
      rewrite Z.eqb_refl, H0, Z.eqb_refl.
      destruct (Nat.leb_spec 2 (length data)); [reflexivity|lia]. }
    assert (Hf : is_first (did_hi did) (did_lo did) data = true).
    { unfold is_first. rewrite Hpci, H3, H4, H5, !Z.eqb_refl.
      destruct (Nat.leb_spec 6 (length data)); [reflexivity|lia]. }
    rewrite (trigger_first_frame p did timeout b pre cfs
               (mkRead st (Some (mkFrame (RX_ID p) data))) (mkFrame (RX_ID p) data));
      auto.
    cbn [fst stamp Transport.data]. f_equal.
    now apply collect_consecutive.
  - intros H0 Hpre Hcfs Hceil.
    pose proof (table_reaches p did b pre cfs
                  (mkRead st (Some (mkFrame (RX_ID p) data))) (mkFrame (RX_ID p) data)
                  Hp Hpre eq_refl eq_refl) as Hreach.
    cbn [stamp Transport.data] in Hreach.
    rewrite (table_dispatch p did b _ _ Hreach (pad8_nonempty data)).
    rewrite !pad8_byte_at by lia.
    rewrite H0, Hpci, H3, H4, H5, !Z.eqb_refl. cbn [negb orb Z.eqb Pos.eqb fst].
    f_equal. apply cf_loop_consecutive; try assumption; try reflexivity.
Qed.

End Reassemble.

Lemma multi_frame_reassembly_witness :
  (TriggerUds.uds_read_by_id
     (mkBus 0 [mkRead 1 (Some (mkFrame 0x0643 [0xF1; 0x10; 0x0B; 0x62; 0xD6; 0x31; 1; 2]));
               mkRead 2 (Some (mkFrame 0x0643 [0xF1; 0x22; 9; 10; 11; 12; 13; 14]));
               mkRead 3 (Some (mkFrame 0x0643 [0xF1; 0x21; 3; 4; 5; 6; 7; 8]))] [])
     0xD631 TriggerUds.links 1000).1
  = inr [1; 2; 9; 10; 11; 12; 13; 14; 3; 4; 5; 6; 7; 8].
Proof.
  apply (proj1 (multi_frame_reassembly TriggerUds.links 0xD631 1000
    (mkBus 0 [mkRead 1 (Some (mkFrame 0x0643 [0xF1; 0x10; 0x0B; 0x62; 0xD6; 0x31; 1; 2]));
              mkRead 2 (Some (mkFrame 0x0643 [0xF1; 0x22; 9; 10; 11; 12; 13; 14]));
              mkRead 3 (Some (mkFrame 0x0643 [0xF1; 0x21; 3; 4; 5; 6; 7; 8]))] [])
    []
    [mkRead 2 (Some (mkFrame 0x0643 [0xF1; 0x22; 9; 10; 11; 12; 13; 14]));
     mkRead 3 (Some (mkFrame 0x0643 [0xF1; 0x21; 3; 4; 5; 6; 7; 8]))]
    1 [0xF1; 0x10; 0x0B; 0x62; 0xD6; 0x31; 1; 2]
    eq_refl ltac:(cbn; lia) eq_refl eq_refl eq_refl eq_refl)).
  - lia.
  - reflexivity.
  - constructor.
  - repeat constructor.
Defined.

Section RecvDrain.

Import CanUtils.

Lemma drain_loop_shape (end_t : Z) (pending : list Read) :
  forall now log,
  exists consumed,
    pending = consumed ++ Transport.pending (drain_loop end_t now pending log) /\
    Transport.log (drain_loop end_t now pending log) = log ++ map Recv consumed /\
    (Transport.pending (drain_loop end_t now pending log) <> [] ->
     end_t <= Transport.now (drain_loop end_t now pending log)).
Proof.
  induction pending as [|r rest IH]; intros now log; cbn [drain_loop].
  - exists []. cbn. rewrite app_nil_r. repeat split; congruence.
  - destruct (Z.ltb_spec now end_t) as [Hlt|Hge].
    + destruct (IH (stamp r) (log ++ [Recv r])) as (consumed & Hp & Hl & He).
      exists (r :: consumed). cbn [app map]. rewrite <- Hp, Hl, <- app_assoc.
      repeat split; try reflexivity; exact He.
    + exists []. cbn. rewrite app_nil_r. repeat split; auto.
Qed.

(** X25.  [recv_drain] only reads: it takes reads from the bus in order and
    sends nothing; when it returns with reads still to come, the window is
    over; and with a window of 0 seconds or less it reads nothing at all. *)
Theorem recv_drain_reads (b : Bus) (max_duration : Z) :
  (exists consumed,
     pending b = consumed ++ pending (recv_drain b max_duration) /\
     log (recv_drain b max_duration) = log b ++ map Recv consumed /\
     (pending (recv_drain b max_duration) <> [] ->
      now b + max_duration <= now (recv_drain b max_duration))) /\
  sends (log (recv_drain b max_duration)) = sends (log b) /\
  (max_duration <= 0 -> recv_drain b max_duration = b).
Proof.
  unfold recv_drain.
  destruct (drain_loop_shape (now b + max_duration) (pending b) (now b) (log b))
    as (consumed & Hp & Hl & He).
  split; [exists consumed; auto|]. split.
  - rewrite Hl, sends_app, sends_reads. apply app_nil_r.
  - intros Hd. destruct b as [n p l]. cbn [now pending log] in *.
    destruct p as [|r rest]; cbn [drain_loop]; [reflexivity|].
    destruct (Z.ltb_spec n (n + max_duration)); [lia | reflexivity].
Qed.

End RecvDrain.

Lemma table_payload_bound_witness :
  (TableUds._uds_read_by_identifier (mkBus 0 (TriggerUds.flood 30) [])
     0x06F1 0x0643 0x43 0xD631).1
  = inr ([1; 2] ++ concat (replicate 22 [3; 4; 5; 6; 7; 8])) /\
  (length (([1; 2] ++ concat (replicate 22 [3; 4; 5; 6; 7; 8]))%Z : list Z) <= 134)%nat.
Proof.
  assert (H : (TableUds._uds_read_by_identifier (mkBus 0 (TriggerUds.flood 30) [])
                 0x06F1 0x0643 0x43 0xD631).1
              = inr ([1; 2] ++ concat (replicate 22 [3; 4; 5; 6; 7; 8])))
    by (vm_compute; reflexivity).
  split; [exact H|].
  apply (table_payload_bound (mkBus 0 (TriggerUds.flood 30) [])
           0x06F1 0x0643 0x43 0xD631 _ ).
  - apply Forall_forall. intros r Hr f Hf.
    cbn [pending TriggerUds.flood] in Hr.
    apply elem_of_cons in Hr as [->|Hr].
    + injection Hf as <-. cbn. lia.
    + apply elem_of_replicate in Hr as [-> _]. injection Hf as <-. cbn. lia.
  - exact H.
Defined.

Section FetchValues.

Import TablePage.

Variable two_decimals : Z -> string.

Lemma decode_led_lengths (payload : list Z) :
  length (TableUds._decode_led payload).1 = 10%nat /\
  length (TableUds._decode_led payload).2 = 10%nat.
Proof.
  unfold TableUds._decode_led, slice. cbn [fst snd].
  rewrite !length_map, !length_take, length_drop.
  destruct (length payload <? 20)%nat eqn:E.
  - apply Nat.ltb_lt in E. rewrite length_app, length_take, length_replicate. lia.
  - apply Nat.ltb_ge in E. rewrite length_take. lia.
Qed.

(** X27.  When the three reads of [_fetch_values] succeed, it returns 22
    texts: ten percentages and ten currents of the LED payload, then the AHL
    and the LWR value; with the 22 variables of the table, [_apply_values]
    shows exactly these texts and no dash. *)
Theorem fetch_values_fill_table (TX_ID RX_ID EA_REQ : Z) (b b' : Bus)
    (vars values : list string) :
  _fetch_values two_decimals TX_ID RX_ID EA_REQ b = (inr values, b') ->
  length vars = 22%nat ->
  length values = 22%nat /\
  _apply_values vars values = values /\
  exists payload_led payload_ahl payload_lwr,
    take 10 values = (TableUds._decode_led payload_led).1 /\
    take 10 (drop 10 values) = (TableUds._decode_led payload_led).2 /\
    drop 20 values = [two_decimals (_decode_ahl payload_ahl);
                      two_decimals (_decode_lwr payload_lwr)].
Proof.
  intros Hf Hv. unfold _fetch_values in Hf.
  destruct (TableUds._uds_read_by_identifier b TX_ID RX_ID EA_REQ DID_LED)
    as [[e|payload_led] b1]; [discriminate|].
  destruct (TableUds._uds_read_by_identifier b1 TX_ID RX_ID EA_REQ DID_AHL)
    as [[e|payload_ahl] b2]; [discriminate|].
  destruct (TableUds._uds_read_by_identifier b2 TX_ID RX_ID EA_REQ DID_LWR)
    as [[e|payload_lwr] b3]; [discriminate|].
  destruct (decode_led_lengths payload_led) as [H1 H2].
  destruct (TableUds._decode_led payload_led) as [pct_vals ma_vals] eqn:Hd.
  cbn [fst snd] in H1, H2. injection Hf as <- <-.
  assert (Hlen : length (pct_vals ++ ma_vals
                           ++ [two_decimals (_decode_ahl payload_ahl);
                               two_decimals (_decode_lwr payload_lwr)]) = 22%nat)
    by (rewrite !length_app; cbn [length]; lia).
  split; [exact Hlen|]. split.
  - destruct (apply_values_parts vars
                (pct_vals ++ ma_vals ++ [two_decimals (_decode_ahl payload_ahl);
                                         two_decimals (_decode_lwr payload_lwr)]))
      as [H _].
    rewrite H, Hv, Hlen. cbn [Nat.sub replicate]. rewrite app_nil_r.
    apply take_ge. lia.
  - exists payload_led, payload_ahl, payload_lwr. rewrite Hd. cbn [fst snd].
    repeat split.
    + apply take_app_length'. lia.
    + rewrite drop_app_length' by lia. apply take_app_length'. lia.
    + rewrite app_assoc. apply drop_app_length'. rewrite length_app. lia.
Qed.

End FetchValues.

Lemma fetch_values_fill_table_witness :
  (TablePage._fetch_values Py.str 0x06F1 0x0643 0x43
     (mkBus 0 [mkRead 1 (Some (mkFrame 0x0643 [0xF1; 0x07; 0x62; 0xD6; 0x31; 40; 60; 80]));
               mkRead 2 (Some (mkFrame 0x0643 [0xF1; 0x05; 0x62; 0xD6; 0x63; 0x01; 0x2C; 0]));
               mkRead 3 (Some (mkFrame 0x0643 [0xF1; 0x04; 0x62; 0xD6; 0x3B; 0x19; 0; 0]))]
        [])).1
  = inr ["40"; "60"; "80"; "0"; "0"; "0"; "0"; "0"; "0"; "0";
     "0"; "0"; "0"; "0"; "0"; "0"; "0"; "0"; "0"; "0"; "300"; "25"]%string /\
  TablePage._apply_values (replicate 22 "-"%string)
    ["40"; "60"; "80"; "0"; "0"; "0"; "0"; "0"; "0"; "0";
     "0"; "0"; "0"; "0"; "0"; "0"; "0"; "0"; "0"; "0"; "300"; "25"]%string
  = ["40"; "60"; "80"; "0"; "0"; "0"; "0"; "0"; "0"; "0";
     "0"; "0"; "0"; "0"; "0"; "0"; "0"; "0"; "0"; "0"; "300"; "25"]%string.
Proof.
  split; [vm_compute; reflexivity|].
  refine (proj1 (proj2 (fetch_values_fill_table Py.str 0x06F1 0x0643 0x43
    (mkBus 0 [mkRead 1 (Some (mkFrame 0x0643 [0xF1; 0x07; 0x62; 0xD6; 0x31; 40; 60; 80]));
              mkRead 2 (Some (mkFrame 0x0643 [0xF1; 0x05; 0x62; 0xD6; 0x63; 0x01; 0x2C; 0]));
              mkRead 3 (Some (mkFrame 0x0643 [0xF1; 0x04; 0x62; 0xD6; 0x3B; 0x19; 0; 0]))]
       [])
    (TablePage._fetch_values Py.str 0x06F1 0x0643 0x43
       (mkBus 0 [mkRead 1 (Some (mkFrame 0x0643 [0xF1; 0x07; 0x62; 0xD6; 0x31; 40; 60; 80]));
                 mkRead 2 (Some (mkFrame 0x0643 [0xF1; 0x05; 0x62; 0xD6; 0x63; 0x01; 0x2C; 0]));
                 mkRead 3 (Some (mkFrame 0x0643 [0xF1; 0x04; 0x62; 0xD6; 0x3B; 0x19; 0; 0]))]
          [])).2
    (replicate 22 "-"%string)
    (["40"; "60"; "80"; "0"; "0"; "0"; "0"; "0"; "0"; "0";
      "0"; "0"; "0"; "0"; "0"; "0"; "0"; "0"; "0"; "0"; "300"; "25"]%string) _ _))).
  - vm_compute. reflexivity.
  - reflexivity.
Defined.
